(** * COFFEE expression rewriter and loop optimizer: a shallow embedding

    This development embeds [coffee/rewriter.py] (ExpressionRewriter,
    ExpressionHoister, ExpressionExpander, ExpressionFactorizer) and
    [coffee/optimizer.py] (LoopOptimizer, CPULoopOptimizer) as Rocq
    functions over an explicit state, and states the properties of the
    specification about them.

    Conventions.
    - A Python object with identity (a tracked statement, a loop) carries a
      natural number; two objects are the same object iff the numbers agree.
    - A Python [dict] is an association list in first-insertion order; the
      iteration order of a Python 2 dict is unspecified, and every concrete
      input below is chosen so that its result does not depend on it.
    - An exception is a [Raise] result; a warning is appended to a log.
    - The AST node classes ([base.py]), the helpers of [utils.py] and the
      visitors are not part of the sources at hand; what the rewriter needs
      of them is either a [Variable] of the section or a definition whose
      comment says so. *)

From Stdlib Require Import List String Ascii ZArith QArith Lia Bool Arith.
From Stdlib Require Import DecimalString DecimalNat Permutation.
Import ListNotations.
Close Scope Q_scope.
Close Scope Z_scope.
Open Scope nat_scope.
Open Scope string_scope.
Open Scope list_scope.

Set Implicit Arguments.

(* ------------------------------------------------------------------ *)
(** ** Exceptions and results *)

Inductive exn :=
| IndexError
| ValueError
| KeyError
| AttributeError
| TypeError
| RuntimeError (msg : string).

Inductive result (A : Type) :=
| Ok (a : A)
| Raise (e : exn).

Arguments Ok {A} a.
Arguments Raise {A} e.

Definition bind {A B} (r : result A) (k : A -> result B) : result B :=
  match r with
  | Ok a => k a
  | Raise e => Raise e
  end.

Notation "x <- c ;; k" := (bind c (fun x => k))
  (at level 61, c at next level, right associativity).
Notation "' p <- c ;; k" := (bind c (fun p => k))
  (at level 61, p pattern, c at next level, right associativity).

(* ------------------------------------------------------------------ *)
(** ** Expression nodes

    [Symbol.symbol] is a string for a variable and an integer for a
    literal ([Symbol(occurrences)] in the factorizer, the step of a loop
    increment); an entry of [Symbol.rank] is a loop dimension where the
    symbol is used and an extent where it is declared. *)

Inductive atom :=
| Str (s : string)
| Num (n : Z).

#[warnings="-register-all"]
Inductive expr :=
| Symbol (symbol : atom) (rank : list atom) (offset : list (Z * Z))
| Par (child : expr)
| Sum (left right : expr)
| Sub (left right : expr)
| Prod (left right : expr)
| Div (left right : expr)
| Neg (child : expr)
| FunCall (funcall_name : string) (children : list expr).

(** The induction principle that reaches the arguments of a call. *)
Section ExprInd.
Variable P : expr -> Prop.
Hypothesis HSymbol : forall s r o, P (Symbol s r o).
Hypothesis HPar : forall c, P c -> P (Par c).
Hypothesis HSum : forall l r, P l -> P r -> P (Sum l r).
Hypothesis HSub : forall l r, P l -> P r -> P (Sub l r).
Hypothesis HProd : forall l r, P l -> P r -> P (Prod l r).
Hypothesis HDiv : forall l r, P l -> P r -> P (Div l r).
Hypothesis HNeg : forall c, P c -> P (Neg c).
Hypothesis HFunCall : forall f args, Forall P args -> P (FunCall f args).

Fixpoint expr_rect' (e : expr) : P e :=
  match e with
  | Symbol s r o => HSymbol s r o
  | Par c => HPar (expr_rect' c)
  | Sum l r => HSum (expr_rect' l) (expr_rect' r)
  | Sub l r => HSub (expr_rect' l) (expr_rect' r)
  | Prod l r => HProd (expr_rect' l) (expr_rect' r)
  | Div l r => HDiv (expr_rect' l) (expr_rect' r)
  | Neg c => HNeg (expr_rect' c)
  | FunCall f args =>
      HFunCall f
        ((fix go (l : list expr) : Forall P l :=
            match l with
            | [] => Forall_nil P
            | x :: xs => Forall_cons x (expr_rect' x) (go xs)
            end) args)
  end.
End ExprInd.

Definition atom_eqb (a b : atom) : bool :=
  match a, b with
  | Str s, Str t => String.eqb s t
  | Num n, Num m => Z.eqb n m
  | _, _ => false
  end.

Fixpoint list_eqb {A} (eqb : A -> A -> bool) (l1 l2 : list A) : bool :=
  match l1, l2 with
  | [], [] => true
  | x :: xs, y :: ys => eqb x y && list_eqb eqb xs ys
  | _, _ => false
  end.

Definition ofs_eqb (a b : Z * Z) : bool :=
  Z.eqb (fst a) (fst b) && Z.eqb (snd a) (snd b).

(** Structural equality of nodes. *)
Fixpoint expr_eqb (a b : expr) : bool :=
  match a, b with
  | Symbol s r o, Symbol s' r' o' =>
      atom_eqb s s' && list_eqb atom_eqb r r' && list_eqb ofs_eqb o o'
  | Par c, Par c' => expr_eqb c c'
  | Sum l r, Sum l' r' => expr_eqb l l' && expr_eqb r r'
  | Sub l r, Sub l' r' => expr_eqb l l' && expr_eqb r r'
  | Prod l r, Prod l' r' => expr_eqb l l' && expr_eqb r r'
  | Div l r, Div l' r' => expr_eqb l l' && expr_eqb r r'
  | Neg c, Neg c' => expr_eqb c c'
  | FunCall f args, FunCall f' args' =>
      String.eqb f f' &&
      (fix go (l1 l2 : list expr) : bool :=
         match l1, l2 with
         | [], [] => true
         | x :: xs, y :: ys => expr_eqb x y && go xs ys
         | _, _ => false
         end) args args'
  | _, _ => false
  end.

(** Number of nodes of a tree. *)
Fixpoint node_count (e : expr) : nat :=
  match e with
  | Symbol _ _ _ => 1
  | Par c | Neg c => S (node_count c)
  | Sum l r | Sub l r | Prod l r | Div l r => S (node_count l + node_count r)
  | FunCall _ args =>
      S ((fix go (l : list expr) : nat :=
            match l with
            | [] => 0
            | x :: xs => node_count x + go xs
            end) args)
  end.

Definition is_Symbol (e : expr) : bool :=
  match e with Symbol _ _ _ => true | _ => false end.

Definition is_Par (e : expr) : bool :=
  match e with Par _ => true | _ => false end.

(** [node.children] of an expression node. *)
Definition expr_children (e : expr) : list expr :=
  match e with
  | Symbol _ _ _ => []
  | Par c | Neg c => [c]
  | Sum l r | Sub l r | Prod l r | Div l r => [l; r]
  | FunCall _ args => args
  end.

(** The node of the same class over new children (the in-place assignment
    to [node.children]); a wrong number of children leaves the node. *)
Definition with_children (e : expr) (cs : list expr) : expr :=
  match e, cs with
  | Par _, [c] => Par c
  | Neg _, [c] => Neg c
  | Sum _ _, [l; r] => Sum l r
  | Sub _ _, [l; r] => Sub l r
  | Prod _ _, [l; r] => Prod l r
  | Div _ _, [l; r] => Div l r
  | FunCall f _, _ => FunCall f cs
  | _, _ => e
  end.

(** All [Symbol] nodes of a tree, left to right
    ([visit(node, search=Symbol)['search'][Symbol]]). *)
Fixpoint symbols_of (e : expr) : list expr :=
  match e with
  | Symbol _ _ _ => [e]
  | Par c | Neg c => symbols_of c
  | Sum l r | Sub l r | Prod l r | Div l r => symbols_of l ++ symbols_of r
  | FunCall _ args =>
      (fix go (l : list expr) : list expr :=
         match l with
         | [] => []
         | x :: xs => symbols_of x ++ go xs
         end) args
  end.

Definition sym_rank (e : expr) : list atom :=
  match e with Symbol _ r _ => r | _ => [] end.

Definition sym_name (e : expr) : atom :=
  match e with Symbol s _ _ => s | _ => Str "" end.

(* ------------------------------------------------------------------ *)
(** ** Association lists for Python dictionaries *)

Section Alist.
Context {K V : Type}.
Variable keqb : K -> K -> bool.

Fixpoint alist_get (k : K) (l : list (K * V)) : option V :=
  match l with
  | [] => None
  | (k', v) :: tl => if keqb k k' then Some v else alist_get k tl
  end.

(** [d[k] = v]: the value is replaced where the key already is, a new key
    goes last. *)
Fixpoint alist_set (k : K) (v : V) (l : list (K * V)) : list (K * V) :=
  match l with
  | [] => [(k, v)]
  | (k', v') :: tl =>
      if keqb k k' then (k', v) :: tl else (k', v') :: alist_set k v tl
  end.

(** [d.update(pairs)] and [dict(pairs)]. *)
Definition alist_update (l : list (K * V)) (pairs : list (K * V)) : list (K * V) :=
  fold_left (fun acc kv => alist_set (fst kv) (snd kv) acc) pairs l.

Definition alist_mem (k : K) (l : list (K * V)) : bool :=
  match alist_get k l with Some _ => true | None => false end.
End Alist.

Definition dep := list string.

Definition dep_eqb : dep -> dep -> bool := list_eqb String.eqb.

Definition mem_str (d : string) (l : list string) : bool :=
  existsb (String.eqb d) l.

(** [set(a).issubset(set(b))] *)
Definition issubset (a b : list string) : bool :=
  forallb (fun d => mem_str d b) a.

(* ------------------------------------------------------------------ *)
(** ** Statements, declarations and the loop nest *)

Inductive writer := Assign | Incr.

(** [Assign(lhs, rhs)] and [Incr(lhs, rhs)]: [children = [lhs; rhs]]. *)
Record statement := mkStmt {
  st_kind : writer;
  st_lhs : expr;
  st_rhs : expr
}.

Inductive scope := LOCAL | EXTERNAL.

Record Decl := mkDecl {
  typ : string;
  sym : expr;
  init : option expr;
  d_scope : scope;
  is_static_const : bool
}.

(** A node of the loop nest. The [Block] that is [For.children[0]] is the
    list [body]; a tracked statement is the reference [Stmt sid] into the
    store of statements, a statement generated by the rewriter is a
    [Write]. [incr] is the step of the loop increment
    ([loop.incr.children[1].symbol]). *)
#[warnings="-register-all"]
Inductive node :=
| For (lid : nat) (dim : string) (size : atom) (incr : Z) (pragma : string)
      (body : list node)
| DeclNode (d : Decl)
| Stmt (sid : nat)
| Write (w : writer) (lhs rhs : expr)
| FlatBlock (text : string).

(** The induction principle that reaches the body of a loop. *)
Section NodeInd.
Variable P : node -> Prop.
Hypothesis HFor : forall lid dim size incr pragma body,
    Forall P body -> P (For lid dim size incr pragma body).
Hypothesis HDecl : forall d, P (DeclNode d).
Hypothesis HStmt : forall sid, P (Stmt sid).
Hypothesis HWrite : forall w lhs rhs, P (Write w lhs rhs).
Hypothesis HFlat : forall text, P (FlatBlock text).

Fixpoint node_rect' (n : node) : P n :=
  match n with
  | For l d s i p body =>
      HFor l d s i p
        ((fix go (ns : list node) : Forall P ns :=
            match ns with
            | [] => Forall_nil P
            | x :: xs => Forall_cons x (node_rect' x) (go xs)
            end) body)
  | DeclNode d => HDecl d
  | Stmt sid => HStmt sid
  | Write w lhs rhs => HWrite w lhs rhs
  | FlatBlock text => HFlat text
  end.
End NodeInd.

Definition is_For (n : node) : bool :=
  match n with For _ _ _ _ _ _ => true | _ => false end.

Definition loop_dim (n : node) : string :=
  match n with For _ d _ _ _ _ => d | _ => "" end.

Definition loop_size (n : node) : atom :=
  match n with For _ _ s _ _ _ => s | _ => Num 0 end.

Definition loop_incr (n : node) : Z :=
  match n with For _ _ _ i _ _ => i | _ => 0%Z end.

Definition loop_body (n : node) : list node :=
  match n with For _ _ _ _ _ b => b | _ => [] end.

Definition loop_id (n : node) : option nat :=
  match n with For l _ _ _ _ _ => Some l | _ => None end.

(** Modelled from the spec: [is_perfect_loop] of utils.py is missing. The
    glossary: a loop is perfect when its body consists solely of its single
    nested loop, itself perfect, with no sibling statements; the innermost
    loop holds statements only. *)
Fixpoint is_perfect_loop (l : node) : bool :=
  match l with
  | For _ _ _ _ _ body =>
      match body with
      | [inner] =>
          match inner with
          | For _ _ _ _ _ _ => is_perfect_loop inner
          | _ => true
          end
      | _ => forallb (fun n => negb (is_For n)) body
      end
  | _ => false
  end.

(** The loop object with identity [l], searched in a list of nodes. *)
Fixpoint find_loop_in (l : nat) (n : node) : option node :=
  match n with
  | For l' _ _ _ _ body =>
      if Nat.eqb l l' then Some n
      else (fix go (ns : list node) : option node :=
              match ns with
              | [] => None
              | x :: xs =>
                  match find_loop_in l x with
                  | Some r => Some r
                  | None => go xs
                  end
              end) body
  | _ => None
  end.

Fixpoint find_loop (l : nat) (ns : list node) : option node :=
  match ns with
  | [] => None
  | x :: xs =>
      match find_loop_in l x with
      | Some r => Some r
      | None => find_loop l xs
      end
  end.

(** In-place change of the body of the loop with identity [l]. *)
Fixpoint map_body_in (l : nat) (f : list node -> list node) (n : node) : node :=
  match n with
  | For l' d s i p body =>
      if Nat.eqb l l' then For l' d s i p (f body)
      else For l' d s i p (List.map (map_body_in l f) body)
  | _ => n
  end.

Definition map_body (l : nat) (f : list node -> list node) (ns : list node)
  : list node :=
  List.map (map_body_in l f) ns.

(** In-place change of the loop object with identity [l] itself. *)
Fixpoint map_loop_in (l : nat) (f : node -> node) (n : node) : node :=
  match n with
  | For l' d s i p body =>
      if Nat.eqb l l' then f n
      else For l' d s i p (List.map (map_loop_in l f) body)
  | _ => n
  end.

(** [copy.deepcopy] of a loop: a new object for every loop inside it. The
    copy of the loop with identity [l] has identity [l + base], for a [base]
    above every identity in use. *)
Fixpoint dcopy_node (base : nat) (n : node) : node :=
  match n with
  | For l d s i p body => For (l + base) d s i p (List.map (dcopy_node base) body)
  | _ => n
  end.

(** A [Block] whose children the rewriter edits: the header of the nest or
    the body of a loop. *)
Inductive place :=
| Header
| BodyOf (lid : nat).

Definition place_eqb (a b : place) : bool :=
  match a, b with
  | Header, Header => true
  | BodyOf l, BodyOf l' => Nat.eqb l l'
  | _, _ => false
  end.

(** Modelled from the spec: [MetaExpr] is missing. Section 3: the enclosing
    loop objects from outermost to innermost ([loops]), the dimensions that
    index the output ([domain]), the element type, the parent block of the
    statement; the other attributes derive from these. *)
Record MetaExpr := mkMetaExpr {
  me_type : string;
  me_parent : place;
  me_loops : list nat;
  me_domain : list string
}.

(** The hoist tracker ([StmtTracker]): per temporary, the defining
    expression, the declaration, the wrapping loop and the block of
    insertion. Before [update_stmt] the third component is the list of the
    invariant assignments of the group. *)
Inductive tracked_loop :=
| LoopUnset (inv_loop : list node)
| LoopNone
| LoopFor (l : node).

Record hoist_rec := mkHoist {
  h_expr : expr;
  h_decl : Decl;
  h_loop : tracked_loop;
  h_place : option place
}.

(** The state shared by the optimizer and its rewriters: the AST below the
    header, the tracked statements, [decls], the hoist tracker, the
    expression graph, the two class-level registries [_expr_handled], the
    tracked expressions [exprs] and the warnings emitted so far. *)
Record state := mkState {
  header : list node;
  stmts : list (nat * statement);
  decls : list (atom * Decl);
  hoisted : list (atom * hoist_rec);
  expr_graph : list (expr * expr * bool);
  hoister_handled : list nat;
  expander_handled : list nat;
  exprs : list (nat * MetaExpr);
  log : list string
}.

Definition set_header (h : list node) (s : state) : state :=
  mkState h (stmts s) (decls s) (hoisted s) (expr_graph s)
          (hoister_handled s) (expander_handled s) (exprs s) (log s).

Definition set_stmts (x : list (nat * statement)) (s : state) : state :=
  mkState (header s) x (decls s) (hoisted s) (expr_graph s)
          (hoister_handled s) (expander_handled s) (exprs s) (log s).

Definition set_decls (x : list (atom * Decl)) (s : state) : state :=
  mkState (header s) (stmts s) x (hoisted s) (expr_graph s)
          (hoister_handled s) (expander_handled s) (exprs s) (log s).

Definition set_hoisted (x : list (atom * hoist_rec)) (s : state) : state :=
  mkState (header s) (stmts s) (decls s) x (expr_graph s)
          (hoister_handled s) (expander_handled s) (exprs s) (log s).

Definition set_expr_graph (x : list (expr * expr * bool)) (s : state) : state :=
  mkState (header s) (stmts s) (decls s) (hoisted s) x
          (hoister_handled s) (expander_handled s) (exprs s) (log s).

Definition set_hoister_handled (x : list nat) (s : state) : state :=
  mkState (header s) (stmts s) (decls s) (hoisted s) (expr_graph s)
          x (expander_handled s) (exprs s) (log s).

Definition set_expander_handled (x : list nat) (s : state) : state :=
  mkState (header s) (stmts s) (decls s) (hoisted s) (expr_graph s)
          (hoister_handled s) x (exprs s) (log s).

Definition set_exprs (x : list (nat * MetaExpr)) (s : state) : state :=
  mkState (header s) (stmts s) (decls s) (hoisted s) (expr_graph s)
          (hoister_handled s) (expander_handled s) x (log s).

(** [warning(msg)] *)
Definition warning (msg : string) (s : state) : state :=
  mkState (header s) (stmts s) (decls s) (hoisted s) (expr_graph s)
          (hoister_handled s) (expander_handled s) (exprs s)
          (log s ++ [msg]).

Definition get_stmt (sid : nat) (s : state) : option statement :=
  alist_get Nat.eqb sid (stmts s).

(** [stmt.children[1] = e] on the statement object [sid]. *)
Definition set_rhs (sid : nat) (e : expr) (s : state) : state :=
  match get_stmt sid s with
  | Some st =>
      set_stmts (alist_set Nat.eqb sid (mkStmt (st_kind st) (st_lhs st) e) (stmts s)) s
  | None => s
  end.

(** [place.children] *)
Definition place_children (p : place) (s : state) : option (list node) :=
  match p with
  | Header => Some (header s)
  | BodyOf l =>
      match find_loop l (header s) with
      | Some n => Some (loop_body n)
      | None => None
      end
  end.

Definition set_place_children (p : place) (f : list node -> list node)
  (s : state) : state :=
  match p with
  | Header => set_header (f (header s)) s
  | BodyOf l => set_header (map_body l f (header s)) s
  end.

(** The attributes of [MetaExpr] that derive from its loops. *)
Definition me_loop_objs (info : MetaExpr) (s : state) : list node :=
  flat_map (fun l => match find_loop l (header s) with
                     | Some n => [n]
                     | None => []
                     end) (me_loops info).

Definition me_dims (info : MetaExpr) (s : state) : list string :=
  List.map loop_dim (me_loop_objs info s).

(** [loops_from_dims]: the ordered dictionary from a dimension to the
    identity of its loop. *)
Definition loops_from_dims (info : MetaExpr) (s : state) : list (string * nat) :=
  alist_update String.eqb []
    (flat_map (fun n => match loop_id n with
                        | Some l => [(loop_dim n, l)]
                        | None => []
                        end) (me_loop_objs info s)).

(** [out_loop = loops[0]] *)
Definition out_loop (info : MetaExpr) : option nat := hd_error (me_loops info).

(** [perfect_loops] *)
Definition perfect_loops (info : MetaExpr) (s : state) : list node :=
  filter is_perfect_loop (me_loop_objs info s).

(** [expr_info.dimension]: truthy for a non-trivial domain. *)
Definition me_dimension (info : MetaExpr) : bool :=
  negb (Nat.eqb (List.length (me_domain info)) 0).

(** Modelled from the spec: [od_find_next] of utils.py is missing. By its
    name and use, the value that follows [key] in an ordered dictionary;
    there is none for the last key. *)
Fixpoint od_find_next {V} (d : list (string * V)) (key : string) : option V :=
  match d with
  | [] => None
  | (k, _) :: tl =>
      if String.eqb k key then
        match tl with
        | (_, v) :: _ => Some v
        | [] => None
        end
      else od_find_next tl key
  end.

(* ------------------------------------------------------------------ *)
(** ** Positions of nodes

    The hoister keeps references to nodes of the tree it is rewriting
    ([dep_subexprs]), and rewrites the tree in place while it still holds
    them. A reference is the path of child indices from the root of the
    right-hand side. *)

Definition path := list nat.

Definition path_eqb : path -> path -> bool := list_eqb Nat.eqb.

Fixpoint subtree_at (e : expr) (p : path) : option expr :=
  match p with
  | [] => Some e
  | i :: p' =>
      match nth_error (expr_children e) i with
      | Some c => subtree_at c p'
      | None => None
      end
  end.

(* ------------------------------------------------------------------ *)
(** ** ExpressionHoister._extract_exprs *)

Inductive info := INVARIANT | SEARCH | HOISTED.

Definition info_eqb (a b : info) : bool :=
  match a, b with
  | INVARIANT, INVARIANT | SEARCH, SEARCH | HOISTED, HOISTED => true
  | _, _ => false
  end.

(** [dep_subexprs] (a [defaultdict(list)]) and the flag [self.extracted]. *)
Record extraction := mkExtraction {
  dep_subexprs : list (dep * list path);
  extracted : bool
}.

Definition is_nil {A} (l : list A) : bool :=
  match l with [] => true | _ => false end.

(** [tuple(set(l))]: the distinct elements, here in order of first
    occurrence. *)
Fixpoint distinct (l : list string) : list string :=
  match l with
  | [] => []
  | x :: xs => x :: filter (fun y => negb (String.eqb x y)) (distinct xs)
  end.

Section ExtractExprs.
(** [self.symbols], [self.expr_info.dims], [self.nrank_tmps],
    [self.outer_only]. *)
Variable symbols : expr -> dep.
Variable dims : list string.
Variable nrank_tmps : bool.
Variable outer_only : bool.

(** The inner function [hoist(node, dep)]. *)
Definition hoist (node : expr) (p : path) (d : dep) (acc : extraction)
  : extraction :=
  let should_extract :=
    if is_Symbol node then false
    else if outer_only && negb (is_nil d) then
      if negb (is_nil dims) && negb (dep_eqb d (firstn 1 dims)) then false
      else true
    else true in
  let subs :=
    if should_extract then
      match alist_get dep_eqb d (dep_subexprs acc) with
      | Some ps => alist_set dep_eqb d (ps ++ [p]) (dep_subexprs acc)
      | None => alist_set dep_eqb d [p] (dep_subexprs acc)
      end
    else dep_subexprs acc in
  mkExtraction subs (extracted acc || should_extract).

(** The case analysis on the two children of a binary node. *)
Definition combine_children (node left right : expr) (p : path)
  (dl : dep) (il : info) (dr : dep) (ir : info) (acc : extraction)
  : (dep * info) * extraction :=
  let dep_l := filter (fun d => mem_str d dims) dl in
  let dep_r := filter (fun d => mem_str d dims) dr in
  let dep_n := dep_l ++ filter (fun d => negb (mem_str d dep_l)) dep_r in
  let pl := p ++ [0] in
  let pr := p ++ [1] in
  match il, ir with
  | SEARCH, SEARCH =>
      if negb (dep_eqb dep_l dep_r) then
        (([], HOISTED), hoist right pr dep_r (hoist left pl dep_l acc))
      else ((dep_l, SEARCH), acc)
  | SEARCH, INVARIANT | INVARIANT, SEARCH =>
      (([], HOISTED), hoist right pr dep_r (hoist left pl dep_l acc))
  | INVARIANT, INVARIANT =>
      if dep_eqb dep_l dep_r then ((dep_l, INVARIANT), acc)
      else if negb (is_nil dep_l) && is_nil dep_r then
        ((dep_l, SEARCH), hoist right pr dep_r acc)
      else if negb (is_nil dep_r) && is_nil dep_l then
        ((dep_r, SEARCH), hoist left pl dep_l acc)
      else if issubset dep_l dep_r then ((dep_r, SEARCH), acc)
      else if issubset dep_r dep_l then ((dep_l, SEARCH), acc)
      else if nrank_tmps then (([], HOISTED), hoist node p dep_n acc)
      else (([], HOISTED), hoist right pr dep_r (hoist left pl dep_l acc))
  | _, _ =>
      match ir with
      | INVARIANT | SEARCH => (([], HOISTED), hoist right pr dep_r acc)
      | HOISTED =>
          match il with
          | INVARIANT | SEARCH => (([], HOISTED), hoist left pl dep_l acc)
          | HOISTED => (([], HOISTED), acc)
          end
      end
  end.

Fixpoint _extract_exprs (node : expr) (p : path) (acc : extraction)
  : result ((dep * info) * extraction) :=
  let binary left right :=
    '(dil, acc1) <- _extract_exprs left (p ++ [0]) acc ;;
    '(dir, acc2) <- _extract_exprs right (p ++ [1]) acc1 ;;
    Ok (combine_children node left right p
          (fst dil) (snd dil) (fst dir) (snd dir) acc2) in
  match node with
  | Symbol _ _ _ => Ok ((symbols node, INVARIANT), acc)
  | FunCall _ args =>
      '(arg_deps, acc') <-
        (fix go (l : list expr) (i : nat) (acc : extraction)
           : result (list (dep * info) * extraction) :=
           match l with
           | [] => Ok ([], acc)
           | n :: ns =>
               '(di, acc1) <- _extract_exprs n (p ++ [i]) acc ;;
               '(rest, acc2) <- go ns (S i) acc1 ;;
               Ok (di :: rest, acc2)
           end) args 0 acc ;;
      let d := distinct (flat_map fst arg_deps) in
      let i := if forallb (fun di => info_eqb (snd di) INVARIANT) arg_deps
               then INVARIANT else HOISTED in
      Ok ((d, i), acc')
  | Par child => _extract_exprs child (p ++ [0]) acc
  | Sum l r | Sub l r | Prod l r | Div l r => binary l r
  (* [left, right = node.children] on a node with one child *)
  | Neg _ => Raise ValueError
  end.
End ExtractExprs.

(* ------------------------------------------------------------------ *)
(** ** Strings of the temporaries *)

Definition upper_ascii (c : ascii) : ascii :=
  let n := nat_of_ascii c in
  if Nat.leb 97 n && Nat.leb n 122 then ascii_of_nat (n - 32) else c.

(** [str.upper()] *)
Fixpoint upper (s : string) : string :=
  match s with
  | EmptyString => EmptyString
  | String c tl => String (upper_ascii c) (upper tl)
  end.

(** ["%d" % n] for a natural number. *)
Definition fmt_d (n : nat) : string := NilEmpty.string_of_uint (Nat.to_uint n).

(** ['_'.join(dep).upper() if dep else 'CONST'] *)
Definition loop_dep_label (d : dep) : string :=
  if is_nil d then "CONST" else upper (String.concat "_" d).

(** [ExpressionHoister._hoisted_sym % {...}]:
    ["%(loop_dep)s_%(expr_id)d_%(round)d_%(i)d"]. *)
Definition _hoisted_sym (d : dep) (expr_id round i : nat) : string :=
  loop_dep_label d ++ "_" ++ fmt_d expr_id ++ "_" ++ fmt_d round ++ "_" ++ fmt_d i.

(** [ExpressionExpander._expanded_sym % {...}]:
    ["%(loop_dep)s_EXP_%(expr_id)d_%(i)d"]. *)
Definition _expanded_sym (loop_dep : string) (expr_id i : nat) : string :=
  loop_dep ++ "_EXP_" ++ fmt_d expr_id ++ "_" ++ fmt_d i.

Definition newline : string := String (ascii_of_nat 10) EmptyString.

(** [l.index(x)] on a registry of statement objects. *)
Fixpoint index_of (x : nat) (l : list nat) : option nat :=
  match l with
  | [] => None
  | y :: tl =>
      if Nat.eqb x y then Some 0
      else match index_of x tl with
           | Some i => Some (S i)
           | None => None
           end
  end.

(** The [try: index / except ValueError: append; index] of both
    constructors: the registry after the call and the identifier. *)
Definition register (stmt : nat) (handled : list nat) : list nat * nat :=
  match index_of stmt handled with
  | Some i => (handled, i)
  | None => (handled ++ [stmt], List.length handled)
  end.

(* ------------------------------------------------------------------ *)
(** ** ast_replace

    Modelled from the spec: [ast_replace] of utils.py is missing. As its
    call sites use it: the children below [node] are examined top-down; a
    child whose printed form is a key of [to_replace] is replaced by the
    value and not entered; the result counts the replacements per printed
    form of the replacing node. The root [node] itself is never replaced:
    the helper receives the node, not the slot that holds it. *)

Section AstReplace.
Variable repr : expr -> string.
Variable to_replace : list (string * expr).

Fixpoint ast_replace (n : expr) : expr * list string :=
  let child c :=
    match alist_get String.eqb (repr c) to_replace with
    | Some r => (r, [repr r])
    | None => ast_replace c
    end in
  match n with
  | Symbol _ _ _ => (n, [])
  | Par c => let (c', k) := child c in (Par c', k)
  | Neg c => let (c', k) := child c in (Neg c', k)
  | Sum l r =>
      let (l', kl) := child l in let (r', kr) := child r in (Sum l' r', kl ++ kr)
  | Sub l r =>
      let (l', kl) := child l in let (r', kr) := child r in (Sub l' r', kl ++ kr)
  | Prod l r =>
      let (l', kl) := child l in let (r', kr) := child r in (Prod l' r', kl ++ kr)
  | Div l r =>
      let (l', kl) := child l in let (r', kr) := child r in (Div l' r', kl ++ kr)
  | FunCall f args =>
      let res :=
        (fix go (l : list expr) : list expr * list string :=
           match l with
           | [] => ([], [])
           | c :: cs =>
               let (c', k) := child c in
               let (cs', ks) := go cs in (c' :: cs', k ++ ks)
           end) args in
      (FunCall f (fst res), snd res)
  end.

(** Whether the node at [p], or a node above it and below the root, is
    replaced by [ast_replace]. *)
Fixpoint hit_on_path (n : expr) (p : path) : bool :=
  match p with
  | [] => false
  | i :: p' =>
      match nth_error (expr_children n) i with
      | Some c =>
          if alist_mem String.eqb (repr c) to_replace then true
          else hit_on_path c p'
      | None => false
      end
  end.
End AstReplace.

(** [n_replaced[key]] *)
Definition count_key (key : string) (l : list string) : nat :=
  List.length (filter (String.eqb key) l).

(* ------------------------------------------------------------------ *)
(** ** ExpressionHoister *)

(** Where the hoisted code goes inside [place.children]: before the loop
    object [next_loop], before the last child of the block
    ([place.children[-1]]), or nowhere when [od_find_next] has no loop to
    give. *)
Inductive anchor :=
| AnchorLoop (lid : nat)
| AnchorLast
| AnchorNone.

Definition anchor_eqb (a b : anchor) : bool :=
  match a, b with
  | AnchorLoop l, AnchorLoop l' => Nat.eqb l l'
  | AnchorLast, AnchorLast | AnchorNone, AnchorNone => true
  | _, _ => false
  end.

(** [inv_info = (loop_dim, place, next_loop, wrap_loop)] *)
Definition inv_info := (list string * place * anchor * list nat)%type.

Definition inv_info_eqb (a b : inv_info) : bool :=
  let '(d, p, n, w) := a in
  let '(d', p', n', w') := b in
  dep_eqb d d' && place_eqb p p' && anchor_eqb n n' && list_eqb Nat.eqb w w'.

(** [inv_dep]: from [inv_info] to [(hoisted_decls, inv_loop)]. *)
Definition inv_dep_t := list (inv_info * (list Decl * list node)).

(** Lexicographic order of tuples of strings, as Python compares them. *)
Fixpoint tuple_ltb (a b : list string) : bool :=
  match a, b with
  | [], [] => false
  | [], _ :: _ => true
  | _ :: _, [] => false
  | x :: xs, y :: ys =>
      if String.ltb x y then true
      else if String.eqb x y then tuple_ltb xs ys
      else false
  end.

(** [sorted(inv_dep.items())], a stable insertion sort on the first
    component of the key; entries that differ in the blocks or loops only
    keep their order of insertion. *)
Fixpoint insert_sorted (x : inv_info * (list Decl * list node)) (l : inv_dep_t)
  : inv_dep_t :=
  match l with
  | [] => [x]
  | y :: tl =>
      if tuple_ltb (fst (fst (fst (fst y)))) (fst (fst (fst (fst x))))
      then y :: insert_sorted x tl
      else x :: y :: tl
  end.

Definition sorted_items (l : inv_dep_t) : inv_dep_t :=
  fold_right insert_sorted [] l.

Fixpoint max_lid_in (n : node) : nat :=
  match n with
  | For l _ _ _ _ body =>
      Nat.max l ((fix go (ns : list node) : nat :=
                    match ns with
                    | [] => 0
                    | x :: xs => Nat.max (max_lid_in x) (go xs)
                    end) body)
  | _ => 0
  end.

Definition max_lid (ns : list node) : nat :=
  fold_right (fun n m => Nat.max (max_lid_in n) m) 0 ns.

(** [place.children.index(next_loop)] *)
Fixpoint index_of_loop (l : nat) (ns : list node) : option nat :=
  match ns with
  | [] => None
  | n :: tl =>
      match loop_id n with
      | Some l' =>
          if Nat.eqb l l' then Some 0
          else option_map S (index_of_loop l tl)
      | None => option_map S (index_of_loop l tl)
      end
  end.

Definition anchor_index (a : anchor) (children : list node) : result nat :=
  match a with
  | AnchorLoop l =>
      match index_of_loop l children with
      | Some i => Ok i
      | None => Raise ValueError
      end
  | AnchorLast =>
      match children with
      | [] => Raise ValueError
      | _ => Ok (List.length children - 1)
      end
  | AnchorNone => Raise ValueError
  end.

Definition map2 {A B C} (f : A -> B -> C) (l1 : list A) (l2 : list B) : list C :=
  List.map (fun ab => f (fst ab) (snd ab)) (combine l1 l2).

Record Hoister := mkHoister {
  hs_stmt : nat;
  hs_info : MetaExpr;
  hs_expr_id : nat;
  hs_counter : nat;
  hs_symbols : expr -> dep
}.

(** [ExpressionHoister.__init__] *)
Definition Hoister_init (stmt : nat) (expr_info : MetaExpr) (st : state)
  : Hoister * state :=
  let (handled, expr_id) := register stmt (hoister_handled st) in
  (mkHoister stmt expr_info expr_id 0 (fun _ => []),
   set_hoister_handled handled st).

(** [_check_loops]: all loops but the outermost are perfect. *)
Definition _check_loops (info : MetaExpr) (st : state) : bool :=
  forallb (fun l => match find_loop l (header st) with
                    | Some n => is_perfect_loop n
                    | None => false
                    end) (tl (me_loops info)).

Definition lookup_loop (l : nat) (st : state) : result node :=
  match find_loop l (header st) with
  | Some n => Ok n
  | None => Raise KeyError
  end.

Fixpoint mapM {A B} (f : A -> result B) (l : list A) : result (list B) :=
  match l with
  | [] => Ok []
  | x :: xs => y <- f x ;; ys <- mapM f xs ;; Ok (y :: ys)
  end.

(** [expr_dims_loops[k]] *)
Definition dims_loop (expr_dims_loops : list (string * nat)) (k : string)
  : result nat :=
  match alist_get String.eqb k expr_dims_loops with
  | Some l => Ok l
  | None => Raise KeyError
  end.

(** [od_find_next(expr_dims_loops, k)] as an anchor. *)
Definition next_of (expr_dims_loops : list (string * nat)) (k : string)
  : anchor :=
  match od_find_next expr_dims_loops k with
  | Some l => AnchorLoop l
  | None => AnchorNone
  end.

(** Step 0 of a round: the block [place], the loops [wrap_loop] and the
    loop [next_loop] for the sub-expressions that depend on [d]. *)
Definition placement (info : MetaExpr) (st : state) (d : dep)
  : result (place * list nat * anchor) :=
  let expr_dims_loops := loops_from_dims info st in
  match d with
  | [] =>
      (* As scalar, outside of the loop nest *)
      match out_loop info with
      | Some o => Ok (Header, [], AnchorLoop o)
      | None => Raise IndexError
      end
  | [d0] =>
      match out_loop info with
      | None => Raise IndexError
      | Some o =>
          out <- lookup_loop o st ;;
          if is_perfect_loop out then
            (* As vector, outside of the loop nest *)
            l <- dims_loop expr_dims_loops d0 ;; Ok (Header, [l], AnchorLoop o)
          else if Nat.ltb 1 (List.length expr_dims_loops) then
            (* As scalar, within the loop imposing the dependency *)
            l <- dims_loop expr_dims_loops d0 ;;
            Ok (BodyOf l, [], next_of expr_dims_loops d0)
          else
            (* As scalar, at the bottom of the loop imposing the dependency *)
            l <- dims_loop expr_dims_loops d0 ;;
            match place_children (BodyOf l) st with
            | Some (_ :: _) => Ok (BodyOf l, [], AnchorLast)
            | _ => Raise IndexError
            end
      end
  | d0 :: rest =>
      (* As vector, within the outermost loop imposing the dependency *)
      l <- dims_loop expr_dims_loops d0 ;;
      wrap <- mapM (dims_loop expr_dims_loops) rest ;;
      Ok (BodyOf l, wrap, next_of expr_dims_loops d0)
  end.

Section Licm.
(** [str(node)]: the printed form of a node, of base.py. *)
Variable repr : expr -> string.
(** [visit(header, None)['symbols_dep']], already as dimensions: the
    visitor is missing; for each symbol of the AST under the header, the
    dimensions of the loops it depends on. *)
Variable visit_symbols_dep : list node -> list (nat * statement) -> expr -> dep.
Variable nrank_tmps : bool.
Variable outer_only : bool.

(** The current content of the extracted node at [p]: the subtree that
    is there in the right-hand side, or what the node was when it left
    the tree. *)
Definition obj_value (rhs : expr) (frozen : list (path * expr)) (p : path)
  : expr :=
  match alist_get path_eqb p frozen with
  | Some v => v
  | None => match subtree_at rhs p with Some v => v | None => rhs end
  end.

(** The extracted nodes that a call of [ast_replace] takes out of the
    tree keep their content from then on. *)
Definition freeze (to_replace : list (string * expr)) (rhs : expr)
  (frozen : list (path * expr)) (ps : list path) : list (path * expr) :=
  fold_left
    (fun fr p =>
       if alist_mem path_eqb p fr then fr
       else if hit_on_path repr to_replace rhs p
            then alist_set path_eqb p (obj_value rhs fr p) fr
            else fr)
    ps frozen.

(** The body of [for dep, subexprs in dep_subexprs.items()]. *)
Fixpoint process_groups (groups : list (dep * list path))
  (frozen : list (path * expr)) (h : Hoister) (st : state)
  (inv_dep : inv_dep_t) : result (Hoister * state * inv_dep_t) :=
  match groups with
  | [] => Ok (h, st, inv_dep)
  | (d, paths) :: rest =>
      match get_stmt (hs_stmt h) st with
      | None => Raise KeyError
      | Some s =>
          let rhs := st_rhs s in
          (* -1) remove identical subexpressions *)
          let subexprs :=
            List.map snd
              (alist_update String.eqb []
                 (List.map (fun p => let e := obj_value rhs frozen p in
                                     (repr e, e)) paths)) in
          (* 0) where to hoist *)
          '(place_wrap, next_loop) <- placement (hs_info h) st d ;;
          let place := fst place_wrap in
          let wrap_loop := snd place_wrap in
          wrap_nodes <- mapM (fun l => lookup_loop l st) wrap_loop ;;
          (* 1) the new temporaries *)
          let loop_size := List.map loop_size wrap_nodes in
          let loop_dim := List.map loop_dim wrap_nodes in
          let names :=
            List.map (fun i => _hoisted_sym d (hs_expr_id h) (hs_counter h) i)
                     (seq 0 (List.length subexprs)) in
          let hoisted_syms :=
            List.map (fun nm => Symbol (Str nm) loop_size []) names in
          let hoisted_decls :=
            List.map (fun s => mkDecl (me_type (hs_info h)) s None LOCAL false)
                     hoisted_syms in
          let inv_loop_syms :=
            List.map (fun nm => Symbol (Str nm) (List.map Str loop_dim) [])
                     names in
          (* 2) the invariant statements *)
          let _subexprs :=
            List.map (fun e => if is_Par e then e else Par e) subexprs in
          let inv_loop := map2 (Write Assign) inv_loop_syms _subexprs in
          (* 3) the known declarations *)
          let decls' :=
            alist_update atom_eqb (decls st)
              (List.map (fun dc => (sym_name (sym dc), dc)) hoisted_decls) in
          (* 4) replace the invariant sub-trees *)
          let to_replace := combine (List.map repr subexprs) inv_loop_syms in
          let (rhs', n_replaced) := ast_replace repr to_replace rhs in
          let frozen' :=
            freeze to_replace rhs frozen (flat_map snd rest) in
          (* 5) track hoisted symbols and dependencies *)
          let sym_info :=
            map2 (fun e dc => mkHoist e dc (LoopUnset inv_loop) None)
                 _subexprs hoisted_decls in
          let hoisted' :=
            alist_update atom_eqb (hoisted st)
              (combine (List.map sym_name inv_loop_syms) sym_info) in
          let graph' :=
            expr_graph st ++
            map2 (fun s e => (s, e, Nat.ltb 1 (count_key (repr s) n_replaced)))
                 inv_loop_syms subexprs in
          let symbols' := fun e =>
            if existsb (expr_eqb e) inv_loop_syms then d else hs_symbols h e in
          let st' :=
            set_expr_graph graph'
              (set_hoisted hoisted'
                 (set_decls decls' (set_rhs (hs_stmt h) rhs' st))) in
          let h' := mkHoister (hs_stmt h) (hs_info h) (hs_expr_id h)
                              (hs_counter h) symbols' in
          (* 6) group what goes to the same place *)
          let key : inv_info := (loop_dim, place, next_loop, wrap_loop) in
          let inv_dep' :=
            match alist_get inv_info_eqb key inv_dep with
            | Some (ds, il) =>
                alist_set inv_info_eqb key (ds ++ hoisted_decls, il ++ inv_loop)
                          inv_dep
            | None =>
                alist_set inv_info_eqb key (hoisted_decls, inv_loop) inv_dep
            end in
          process_groups rest frozen' h' st' inv_dep'
      end
  end.

(** The [while True] loop of [licm]; [None] when [fuel] rounds were not
    enough to reach a round without extraction. *)
Fixpoint licm_rounds (fuel : nat) (h : Hoister) (st : state)
  (inv_dep : inv_dep_t) : option (result (Hoister * state * inv_dep_t)) :=
  match fuel with
  | 0 => None
  | S fuel' =>
      match get_stmt (hs_stmt h) st with
      | None => Some (Raise KeyError)
      | Some s =>
          match _extract_exprs (hs_symbols h) (me_dims (hs_info h) st)
                  nrank_tmps outer_only (st_rhs s) []
                  (mkExtraction [] false) with
          | Raise e => Some (Raise e)
          | Ok (_, acc) =>
              if negb (extracted acc) then Some (Ok (h, st, inv_dep))
              else
                let h1 := mkHoister (hs_stmt h) (hs_info h) (hs_expr_id h)
                                    (S (hs_counter h)) (hs_symbols h) in
                match process_groups (dep_subexprs acc) [] h1 st inv_dep with
                | Raise e => Some (Raise e)
                | Ok (h2, st2, inv_dep2) => licm_rounds fuel' h2 st2 inv_dep2
                end
          end
      end
  end.

(** [hoisted.update_stmt(sym, loop=..., place=...)] *)
Definition update_stmt (name : atom) (l : tracked_loop) (p : place)
  (tr : list (atom * hoist_rec)) : list (atom * hoist_rec) :=
  match alist_get atom_eqb name tr with
  | Some r => alist_set atom_eqb name (mkHoist (h_expr r) (h_decl r) l (Some p)) tr
  | None => tr
  end.

(** The body of [for inv_info, (hoisted_decls, inv_loop) in
    sorted(inv_dep.items())]. *)
Definition insert_hoisted (st : state)
  (item : inv_info * (list Decl * list node)) : result state :=
  let '((_, place, next_loop, wrap_loop), (hoisted_decls, inv_loop)) := item in
  wrap_nodes <- mapM (fun l => lookup_loop l st) wrap_loop ;;
  let base := S (max_lid (header st)) in
  let '(inv_loop', inv_code) :=
    match List.map (dcopy_node base) wrap_nodes with
    | [] => (inv_loop, LoopNone)
    | first :: _ =>
        let w := map_body_in (last wrap_loop 0 + base) (fun _ => inv_loop) first in
        ([w], LoopFor w)
    end in
  match place_children place st with
  | None => Raise KeyError
  | Some children =>
      ofs <- anchor_index next_loop children ;;
      let new_nodes :=
        List.map DeclNode hoisted_decls ++ inv_loop' ++ [FlatBlock newline] in
      let st1 :=
        set_place_children place
          (fun c => firstn ofs c ++ new_nodes ++ skipn ofs c) st in
      Ok (set_hoisted
            (fold_left (fun tr dc => update_stmt (sym_name (sym dc)) inv_code place tr)
                       hoisted_decls (hoisted st1))
            st1)
  end.

Fixpoint insert_all (items : inv_dep_t) (st : state) : result state :=
  match items with
  | [] => Ok st
  | it :: tl => st' <- insert_hoisted st it ;; insert_all tl st'
  end.

(** [ExpressionHoister.licm(nrank_tmps, outer_only)] *)
Definition licm (fuel : nat) (h : Hoister) (st : state)
  : option (result (Hoister * state)) :=
  if negb (_check_loops (hs_info h) st) then
    Some (Ok (h, warning "Loop nest unsuitable for generalized licm. Skipping." st))
  else
    let h0 := mkHoister (hs_stmt h) (hs_info h) (hs_expr_id h) (hs_counter h)
                        (visit_symbols_dep (header st) (stmts st)) in
    match licm_rounds fuel h0 st [] with
    | None => None
    | Some (Raise e) => Some (Raise e)
    | Some (Ok (h1, st1, inv_dep)) =>
        match insert_all (sorted_items inv_dep) st1 with
        | Raise e => Some (Raise e)
        | Ok st2 => Some (Ok (h1, st2))
        end
    end.
End Licm.

(* ------------------------------------------------------------------ *)
(** ** A printer and a visitor for the concrete runs

    The general statements below hold for every printer [repr] and every
    visitor. The concrete runs need one of each. *)

Definition atom_str (a : atom) : string :=
  match a with
  | Str s => s
  | Num n => NilZero.string_of_int (Z.to_int n)
  end.

Fixpoint rank_str (r : list atom) (o : list (Z * Z)) : string :=
  match r with
  | [] => ""
  | a :: r' =>
      match o with
      | (m, k) :: o' =>
          "[" ++ atom_str (Num m) ++ "*" ++ atom_str a ++ "+" ++ atom_str (Num k)
              ++ "]" ++ rank_str r' o'
      | [] => "[" ++ atom_str a ++ "]" ++ rank_str r' []
      end
  end.

(** A printed form in the manner of [gencode]: a symbol with its indices,
    infix operators, parentheses where the tree has a [Par]. *)
Fixpoint gencode (e : expr) : string :=
  match e with
  | Symbol s r o => atom_str s ++ rank_str r o
  | Par c => "(" ++ gencode c ++ ")"
  | Sum l r => gencode l ++ " + " ++ gencode r
  | Sub l r => gencode l ++ " - " ++ gencode r
  | Prod l r => gencode l ++ " * " ++ gencode r
  | Div l r => gencode l ++ " / " ++ gencode r
  | Neg c => "-" ++ gencode c
  | FunCall f args =>
      f ++ "(" ++
      String.concat ", "
        ((fix go (l : list expr) : list string :=
            match l with
            | [] => []
            | x :: xs => gencode x :: go xs
            end) args) ++ ")"
  end.

(** Modelled from the spec: the visitor of utils.py, whose ['symbols_dep']
    the hoister reads, is missing. Section 4.1: "Symbol leaf: INVARIANT
    with dependency = the dimensions it is indexed over". This reads a
    dependency off the indices alone; it is used on statements over
    input arrays and scalars and over temporaries indexed by the
    dimensions they depend on. What the visitor reports for a scalar
    temporary assigned inside a loop is not known, and no statement
    below runs it on one. *)
Definition rank_symbols_dep (_ : list node) (_ : list (nat * statement))
  (e : expr) : dep :=
  flat_map (fun a => match a with Str d => [d] | Num _ => [] end) (sym_rank e).

(* ------------------------------------------------------------------ *)
(** ** Helpers of utils.py used by the expander and the factorizer *)

Inductive binop := OpSum | OpSub | OpProd | OpDiv.

Definition mk_binop (op : binop) (l r : expr) : expr :=
  match op with
  | OpSum => Sum l r
  | OpSub => Sub l r
  | OpProd => Prod l r
  | OpDiv => Div l r
  end.

(** Modelled from the spec: [ast_make_expr] of utils.py is missing. By its
    use, the expression of class [op] over the given nodes: the node itself
    for one node, nothing ([None]) for no node; for more than two nodes the
    nesting is to the right. The operator is absent ([None]) in a [Term]
    built from a single symbol; calling it fails. *)
Fixpoint ast_make_expr (op : option binop) (nodes : list expr)
  : result (option expr) :=
  match nodes with
  | [] => Ok None
  | n :: tl =>
      match tl with
      | [] => Ok (Some n)
      | _ :: _ =>
          match op with
          | None => Raise TypeError
          | Some o =>
              r <- ast_make_expr op tl ;;
              match r with
              | Some e => Ok (Some (mk_binop o n e))
              | None => Ok (Some n)
              end
          end
      end
  end.

(** Where the [k]-th of [n] nodes is in [ast_make_expr(op, nodes)]. *)
Definition make_expr_pos (n k : nat) : path :=
  if Nat.leb n 1 then []
  else if Nat.eqb (S k) n then repeat 1 k
  else repeat 1 k ++ [0].

(** [Counter(occurrences).most_common(1)]: an element with the highest
    count, the first such in order of first occurrence; the empty list for
    no occurrence. *)
Definition rank_eqb : list atom -> list atom -> bool := list_eqb atom_eqb.

Definition count_rank (r : list atom) (l : list (list atom)) : nat :=
  List.length (filter (rank_eqb r) l).

Definition most_common_1 (occurrences : list (list atom))
  : list (list atom * nat) :=
  match occurrences with
  | [] => []
  | r0 :: _ =>
      let best :=
        fold_left (fun b r => if Nat.ltb (count_rank b occurrences)
                                         (count_rank r occurrences)
                              then r else b) occurrences r0 in
      [(best, count_rank best occurrences)]
  end.

(** [set(a).issubset(set(b))] on rank entries. *)
Definition rank_subset (a b : list atom) : bool :=
  forallb (fun x => existsb (atom_eqb x) b) a.

(** The selection of the dimension by the 'standard' strategy of
    [ExpressionRewriter.expand] and [ExpressionRewriter.factorize]:
    [Counter(occurrences).most_common(1)[0][0]]. *)
Definition standard_dimension (rhs : expr) (domain : list string)
  : result (list atom) :=
  (* Get the ranks... *)
  let occurrences :=
    filter (fun r => negb (is_nil r)) (List.map sym_rank (symbols_of rhs)) in
  (* ...filter out irrelevant dimensions... *)
  let occurrences :=
    List.map (filter (fun r => existsb (atom_eqb r) (List.map Str domain)))
             occurrences in
  (* ...and finally establish the dimension *)
  match most_common_1 occurrences with
  | [] => Raise IndexError
  | (d, _) :: _ => Ok d
  end.

(* ------------------------------------------------------------------ *)
(** ** ExpressionExpander *)

Inductive tag := GRP | EXP.

(** A node handed up by [_expand]: where it is below the node that now
    sits in the slot of the parent ([None] for a node that is in no tree,
    as the [Neg] nodes of a difference), and what it is. *)
Definition item := (option path * expr)%type.

Definition shift (i : nat) (it : item) : item :=
  (option_map (cons i) (fst it), snd it).

Fixpoint map_nth {A} (i : nat) (f : A -> A) (l : list A) : list A :=
  match l, i with
  | [], _ => []
  | x :: xs, 0 => f x :: xs
  | x :: xs, S j => x :: map_nth j f xs
  end.

(** Replace the subtree at a path. *)
Fixpoint replace_at (p : path) (new : expr) (e : expr) : expr :=
  match p with
  | [] => new
  | i :: p' => with_children e (map_nth i (replace_at p' new) (expr_children e))
  end.

(** The result of [_expand(node, parent)]: the node that sits in the slot
    of the parent after the call, the nodes handed up with their tag, and
    what the call appended to [self.expansions]. *)
Record expanded := mkExpanded {
  x_node : expr;
  x_items : list item;
  x_tag : tag;
  x_expansions : list expr
}.

(** The state of the loop [for exp, grp in itertools.product(expandable,
    groupable)]: [to_replace] (keyed by the position of [exp] in
    [expandable]), the expansions appended, and the expansion that became
    the [expanding_child] when the loop met the [break]. *)
Record product_loop := mkProductLoop {
  pl_to_replace : list (nat * list expr);
  pl_expansions : list expr;
  pl_break : option expr
}.

Section Expand.
Variable should_expand : expr -> bool.

Definition product_step (acc : product_loop) (pair : (nat * item) * item)
  : product_loop :=
  match pl_break acc with
  | Some _ => acc
  | None =>
      let '((k, exp), grp) := pair in
      let expansion := Prod (snd exp) (snd grp) in
      match fst exp with
      | Some [] =>
          (* [exp == expanding_child]: [expanding_child = expansion; break] *)
          mkProductLoop (pl_to_replace acc) (pl_expansions acc) (Some expansion)
      | _ =>
          let old := match alist_get Nat.eqb k (pl_to_replace acc) with
                     | Some l => l
                     | None => []
                     end in
          mkProductLoop (alist_set Nat.eqb k (old ++ [expansion]) (pl_to_replace acc))
                        (pl_expansions acc ++ [expansion]) None
      end
  end.

(** The [Prod] case once both children are expanded. *)
Definition expand_product (expanding_child : expr)
  (expandable groupable : list item) : result (expr * list item * list expr) :=
  let indexed := combine (seq 0 (List.length expandable)) expandable in
  let loop :=
    fold_left product_step (list_prod indexed groupable)
              (mkProductLoop [] [] None) in
  (* [ast_replace(node, {k: ast_make_expr(Sum, v) ...}, mode='symbol')] *)
  replaced <-
    fold_left
      (fun acc kv =>
         child <- acc ;;
         sum <- ast_make_expr (Some OpSum) (snd kv) ;;
         match nth_error expandable (fst kv), sum with
         | Some (Some p, _), Some s => Ok (replace_at p s child)
         | _, _ => Ok child
         end)
      (pl_to_replace loop) (Ok expanding_child) ;;
  let located (kv : nat * list expr) : list item :=
    let n := List.length (snd kv) in
    List.map (fun je =>
                (match nth_error expandable (fst kv) with
                 | Some (Some p, _) =>
                     Some (match pl_break loop with
                           | Some _ => 0 :: p ++ make_expr_pos n (fst je)
                           | None => p ++ make_expr_pos n (fst je)
                           end)
                 | _ => None
                 end, snd je))
             (combine (seq 0 n) (snd kv)) in
  let new_child :=
    match pl_break loop with
    | Some (Prod _ g) => Prod replaced g
    | Some e => e
    | None => replaced
    end in
  let items :=
    match flat_map located (pl_to_replace loop) with
    | [] => [(Some [], new_child)]
    | l => l
    end in
  Ok (new_child, items, pl_expansions loop).

Fixpoint _expand (node : expr) : result expanded :=
  match node with
  | Symbol _ _ _ =>
      Ok (mkExpanded node [(Some [], node)]
                     (if should_expand node then EXP else GRP) [])
  | Par child =>
      x <- _expand child ;;
      Ok (mkExpanded (Par (x_node x)) (List.map (shift 0) (x_items x))
                     (x_tag x) (x_expansions x))
  | Div _ _ | FunCall _ _ => Ok (mkExpanded node [(Some [], node)] GRP [])
  | Prod l r =>
      xl <- _expand l ;;
      xr <- _expand r ;;
      let node' := Prod (x_node xl) (x_node xr) in
      let sofar := x_expansions xl ++ x_expansions xr in
      match x_tag xl, x_tag xr with
      | GRP, GRP => Ok (mkExpanded node' [(Some [], node')] GRP sofar)
      | GRP, EXP =>
          '(child, items, exps) <-
            expand_product (x_node xr) (x_items xr) (x_items xl) ;;
          Ok (mkExpanded child items EXP (sofar ++ exps))
      | EXP, _ =>
          '(child, items, exps) <-
            expand_product (x_node xl) (x_items xl) (x_items xr) ;;
          Ok (mkExpanded child items EXP (sofar ++ exps))
      end
  | Sum l r =>
      xl <- _expand l ;;
      xr <- _expand r ;;
      let node' := Sum (x_node xl) (x_node xr) in
      let sofar := x_expansions xl ++ x_expansions xr in
      match x_tag xl, x_tag xr with
      | EXP, EXP =>
          Ok (mkExpanded node'
                (List.map (shift 0) (x_items xl) ++ List.map (shift 1) (x_items xr))
                EXP sofar)
      | _, _ => Ok (mkExpanded node' [(Some [], node')] GRP sofar)
      end
  | Sub l r =>
      xl <- _expand l ;;
      xr <- _expand r ;;
      let node' := Sub (x_node xl) (x_node xr) in
      let sofar := x_expansions xl ++ x_expansions xr in
      match x_tag xl, x_tag xr with
      | EXP, EXP =>
          Ok (mkExpanded node'
                (List.map (shift 0) (x_items xl) ++
                 List.map (fun it => (None, Neg (snd it))) (x_items xr))
                EXP sofar)
      | _, _ => Ok (mkExpanded node' [(Some [], node')] GRP sofar)
      end
  | Neg _ => Raise (RuntimeError "Expansion error: unknown node")
  end.
End Expand.

Record Expander := mkExpander {
  ex_stmt : nat;
  ex_info : MetaExpr;
  ex_expr_id : nat;
  expanded_decls : list (atom * Decl);
  cache : list (string * expr)
}.

(** [ExpressionExpander.__init__] *)
Definition Expander_init (stmt : nat) (expr_info : MetaExpr) (st : state)
  : Expander * state :=
  let (handled, expr_id) := register stmt (expander_handled st) in
  (mkExpander stmt expr_info expr_id [] [], set_expander_handled handled st).

Section ExpanderExpand.
(** The second half of [ExpressionExpander.expand]: for each expansion,
    [_hoist] folds the grouped term into the temporary it multiplies,
    and the statement is updated with [ast_replace] and [ast_remove].
    [_hoist] reads what the visitors report ([symbol_refs],
    [SymbolReferences]) and edits blocks with [insert_at_elem], none of
    which is at hand: the step is a parameter. It is not reached when
    [self.expansions] is empty. *)
Variable fusion : (expr -> bool) -> list expr -> Expander -> state
                  -> result (Expander * state).

(** [ExpressionExpander.expand(should_expand)] *)
Definition Expander_expand (should_expand : expr -> bool) (x : Expander)
  (st : state) : result (Expander * state) :=
  match get_stmt (ex_stmt x) st with
  | None => Raise KeyError
  | Some s =>
      r <- _expand should_expand (st_rhs s) ;;
      let st1 := set_rhs (ex_stmt x) (x_node r) st in
      match x_expansions r with
      | [] => Ok (x, st1)
      | exps => fusion should_expand exps x st1
      end
  end.
End ExpanderExpand.

(* ------------------------------------------------------------------ *)
(** ** ExpressionFactorizer *)

(** [ExpressionFactorizer.Term]: in [a*(b+c)], [a] is an operand, [b] and
    [c] are factors and [+] is the op. The two sets hold node objects,
    which are distinct objects unless the code puts the same one twice;
    they are lists here. *)
Record Term := mkTerm {
  operands : list expr;
  factors : list expr;
  op : option binop
}.

Fixpoint foldM {A B} (f : A -> B -> result A) (l : list B) (a : A) : result A :=
  match l with
  | [] => Ok a
  | x :: xs => a' <- f a x ;; foldM f xs a'
  end.

Section Factorizer.
Variable repr : expr -> string.
Variable should_factorize : expr -> bool.

(** [str(x)] where [x] may be [None]. *)
Definition repr_opt (o : option expr) : string :=
  match o with
  | Some e => repr e
  | None => "None"
  end.

(** [sorted(list(s), key=lambda o: str(o))], stable. *)
Fixpoint insert_by_repr (x : expr) (l : list expr) : list expr :=
  match l with
  | [] => [x]
  | y :: tl =>
      if String.ltb (repr y) (repr x) then y :: insert_by_repr x tl
      else x :: y :: tl
  end.

Definition sorted_by_repr (l : list expr) : list expr :=
  fold_right insert_by_repr [] l.

(** [Term.operands_ast] *)
Definition operands_ast (t : Term) : result (option expr) :=
  ast_make_expr (Some OpProd) (sorted_by_repr (operands t)).

(** [Term.factors_ast] *)
Definition factors_ast (t : Term) : result (option expr) :=
  ast_make_expr (op t) (sorted_by_repr (factors t)).

(** [Term.generate_ast] *)
Definition generate_ast (t : Term) : result (option expr) :=
  if Nat.eqb (List.length (factors t)) 0 then operands_ast t
  else if Nat.eqb (List.length (operands t)) 0 then factors_ast t
  else
    o <- operands_ast t ;;
    f <- factors_ast t ;;
    match o, f with
    | Some a, Some b => Ok (Some (Prod a b))
    | _, _ => Raise TypeError
    end.

(** [Term.process(symbols, should_factorize, op)] *)
Definition process (symbols : list expr) (o : option binop) : Term :=
  mkTerm (filter should_factorize symbols)
         (filter (fun s => negb (should_factorize s)) symbols) o.

(** The first loop of [_simplify_sum]:
    [unique_terms.setdefault(str(t.generate_ast), list()).append(t)]. *)
Definition unique_step (acc : list (string * list Term)) (t : Term)
  : result (list (string * list Term)) :=
  g <- generate_ast t ;;
  let k := repr_opt g in
  Ok (match alist_get String.eqb k acc with
      | Some l => alist_set String.eqb k (l ++ [t]) acc
      | None => alist_set String.eqb k [t] acc
      end).

(** The second loop of [_simplify_sum], for one printed form: the first
    of the terms, with the number of occurrences as one more operand when
    there are several. *)
Definition fold_occurrences (kv : string * list Term) : list Term :=
  match snd kv with
  | [] => []
  | t0 :: _ =>
      let occurrences := List.length (snd kv) in
      if Nat.ltb 1 occurrences then
        [mkTerm (operands t0 ++ [Symbol (Num (Z.of_nat occurrences)) [] []])
                (factors t0) (op t0)]
      else [t0]
  end.

(** [_simplify_sum(terms)] *)
Definition _simplify_sum (terms : list Term) : result (list Term) :=
  unique_terms <- foldM unique_step terms [] ;;
  Ok (flat_map fold_occurrences unique_terms).

Definition opt_list (o : option expr) : list expr :=
  match o with Some e => [e] | None => [] end.

(** The body of the grouping loop of the [Sum]/[Sub] case; [cls] is
    [node.__class__]. *)
Definition group_step (cls : binop) (acc : list (string * Term)) (t : Term)
  : result (list (string * Term)) :=
  o <- operands_ast t ;;
  f <- factors_ast t ;;
  let operand := if is_nil (operands t) then [] else opt_list o in
  let factor := if is_nil (factors t) then [] else opt_list f in
  let key := repr_opt o in
  Ok (match alist_get String.eqb key acc with
      | Some _t =>
          alist_set String.eqb key
            (mkTerm (operands _t) (factors _t ++ factor) (op _t)) acc
      | None =>
          alist_set String.eqb key (mkTerm operand factor (Some cls)) acc
      end).

(** The grouping loop and the expression it builds. *)
Definition group_terms (cls : binop) (terms : list Term) : result (option expr) :=
  factorized <- foldM (group_step cls) terms [] ;;
  asts <- mapM (fun kv => generate_ast (snd kv)) factorized ;;
  ast_make_expr (Some OpSum) (flat_map opt_list asts).

(** [explore_operator(node)] followed by [_factorize] on each operand, as
    the [Prod] case does: children of class [Prod] are entered; the
    symbols among the operands are collected, the other operands are
    factorized by [rec] and give their operands. The result is the product
    with the operands as [rec] left them, the symbols, and the operands of
    the others. *)
Fixpoint prod_chain (rec : expr -> result (expr * Term)) (e : expr)
  : result (expr * (list expr * list expr)) :=
  match e with
  | Prod a b =>
      '(a', sa) <- prod_chain rec a ;;
      '(b', sb) <- prod_chain rec b ;;
      Ok (Prod a' b', (fst sa ++ fst sb, snd sa ++ snd sb))
  | Symbol _ _ _ => Ok (e, ([e], []))
  | _ =>
      '(e', t) <- rec e ;;
      Ok (e', ([], operands t))
  end.

(** The same for the [Sum] and the [Sub] case: the terms of the
    operands. *)
Fixpoint sum_chain (rec : expr -> result (expr * Term)) (e : expr)
  : result (list Term) :=
  match e with
  | Sum a b =>
      ta <- sum_chain rec a ;;
      tb <- sum_chain rec b ;;
      Ok (ta ++ tb)
  | _ =>
      '(_, t) <- rec e ;;
      Ok [t]
  end.

Fixpoint sub_chain (rec : expr -> result (expr * Term)) (e : expr)
  : result (list Term) :=
  match e with
  | Sub a b =>
      ta <- sub_chain rec a ;;
      tb <- sub_chain rec b ;;
      Ok (ta ++ tb)
  | _ =>
      '(_, t) <- rec e ;;
      Ok [t]
  end.

(** The end of the [Sum]/[Sub] case: [_simplify_sum], the grouping, and
    the [Term] of the new node. *)
Definition factorize_terms (cls : binop) (terms : list Term)
  : result (expr * Term) :=
  terms' <- _simplify_sum terms ;;
  factorized <- group_terms cls terms' ;;
  match factorized with
  | Some f => Ok (f, mkTerm [f] [] None)
  | None => Raise ValueError (* not reached: a sum has terms *)
  end.

(** [_factorize(node, parent)]: the node that sits in the slot of the
    parent after the call, and the [Term] returned. *)
Fixpoint _factorize (node : expr) : result (expr * Term) :=
  match node with
  | Symbol _ _ _ => Ok (node, process [node] None)
  | Par child =>
      '(c, t) <- _factorize child ;;
      Ok (Par c, t)
  | FunCall _ _ | Div _ _ => Ok (node, mkTerm [node] [] None)
  | Prod l r =>
      '(l', sl) <- prod_chain _factorize l ;;
      '(r', sr) <- prod_chain _factorize r ;;
      let term := process (fst sl ++ fst sr) (Some OpProd) in
      Ok (Prod l' r',
          mkTerm (operands term ++ snd sl ++ snd sr) (factors term) (op term))
  | Sum l r =>
      tl <- sum_chain _factorize l ;;
      tr <- sum_chain _factorize r ;;
      factorize_terms OpSum (tl ++ tr)
  | Sub l r =>
      tl <- sub_chain _factorize l ;;
      tr <- sub_chain _factorize r ;;
      factorize_terms OpSub (tl ++ tr)
  | Neg _ => Raise (RuntimeError "Factorization error: unknown node")
  end.

(** [ExpressionFactorizer.factorize(should_factorize)] *)
Definition Factorizer_factorize (stmt : nat) (st : state) : result state :=
  match get_stmt stmt st with
  | None => Raise KeyError
  | Some s =>
      '(rhs, _) <- _factorize (st_rhs s) ;;
      Ok (set_rhs stmt rhs st)
  end.
End Factorizer.

(* ------------------------------------------------------------------ *)
(** ** ExpressionRewriter and LoopOptimizer.rewrite *)

(** A computation that may run out of [fuel] ([None]) or raise. *)
Definition obind {A B} (c : option (result A)) (k : A -> option (result B))
  : option (result B) :=
  match c with
  | None => None
  | Some (Raise e) => Some (Raise e)
  | Some (Ok a) => k a
  end.

Record Rewriter := mkRewriter {
  ew_stmt : nat;
  ew_info : MetaExpr;
  expr_hoister : Hoister;
  expr_expander : Expander
}.

(** [ExpressionRewriter.reset()] *)
Definition reset (st : state) : state :=
  set_expander_handled [] (set_hoister_handled [] st).

(** [ExpressionRewriter.__init__]: the hoister, the expander and the
    factorizer of the statement are created, in this order. *)
Definition Rewriter_init (stmt : nat) (expr_info : MetaExpr) (st : state)
  : Rewriter * state :=
  let (h, st1) := Hoister_init stmt expr_info st in
  let (x, st2) := Expander_init stmt expr_info st1 in
  (mkRewriter stmt expr_info h x, st2).

Section Rewrite.
Variable repr : expr -> string.
Variable visit_symbols_dep : list node -> list (nat * statement) -> expr -> dep.
Variable fusion : (expr -> bool) -> list expr -> Expander -> state
                  -> result (Expander * state).

(** [ExpressionRewriter.licm] with its keywords; a keyword that is not given is
    [None], which is false. *)
Definition Rewriter_licm (fuel : nat) (nrank_tmps outer_only : bool)
  (ew : Rewriter) (st : state) : option (result (Rewriter * state)) :=
  obind (licm repr visit_symbols_dep nrank_tmps outer_only fuel
              (expr_hoister ew) st)
        (fun hs => Some (Ok (mkRewriter (ew_stmt ew) (ew_info ew) (fst hs)
                                        (expr_expander ew), snd hs))).

(** [lambda n: n.symbol in self.decls and self.decls[n.symbol].is_static_const] *)
Definition static_const_in (ds : list (atom * Decl)) (n : expr) : bool :=
  match alist_get atom_eqb (sym_name n) ds with
  | Some d => is_static_const d
  | None => false
  end.

(** [ExpressionRewriter.expand(mode)] *)
Definition Rewriter_expand (mode : string) (ew : Rewriter) (st : state)
  : result (Rewriter * state) :=
  match get_stmt (ew_stmt ew) st with
  | None => Raise KeyError
  | Some s =>
      let perform should_expand :=
        '(x, st1) <- Expander_expand fusion should_expand (expr_expander ew) st ;;
        (* Update known declarations *)
        Ok (mkRewriter (ew_stmt ew) (ew_info ew) (expr_hoister ew) x,
            set_decls (alist_update atom_eqb (decls st1) (expanded_decls x)) st1) in
      if String.eqb mode "standard" then
        dimension <- standard_dimension (st_rhs s) (me_domain (ew_info ew)) ;;
        perform (fun n => rank_subset dimension (sym_rank n))
      else if String.eqb mode "full" then
        perform (static_const_in (decls st))
      else
        Ok (ew, warning "Unknown expansion strategy. Skipping." st)
  end.

(** [ExpressionRewriter.factorize(mode)] *)
Definition Rewriter_factorize (mode : string) (ew : Rewriter) (st : state)
  : result (Rewriter * state) :=
  match get_stmt (ew_stmt ew) st with
  | None => Raise KeyError
  | Some s =>
      if String.eqb mode "standard" then
        dimension <- standard_dimension (st_rhs s) (me_domain (ew_info ew)) ;;
        st1 <- Factorizer_factorize repr
                 (fun n => rank_subset dimension (sym_rank n)) (ew_stmt ew) st ;;
        Ok (ew, st1)
      else if String.eqb mode "immutable" then
        st1 <- Factorizer_factorize repr (static_const_in (decls st))
                 (ew_stmt ew) st ;;
        Ok (ew, st1)
      else
        Ok (ew, warning "Unknown factorization strategy. Skipping." st)
  end.

(** The body of the loop of [LoopOptimizer.rewrite] for one statement. *)
Definition rewrite_stmt (fuel : nat) (level : Z) (stmt : nat)
  (expr_info : MetaExpr) (st : state) : option (result state) :=
  let (ew, st0) := Rewriter_init stmt expr_info st in
  obind (if (0 <? level)%Z then Rewriter_licm fuel false false ew st0
         else Some (Ok (ew, st0)))
    (fun es1 =>
       if (1 <? level)%Z && me_dimension expr_info then
         obind (Some (Rewriter_expand "standard" (fst es1) (snd es1)))
           (fun es2 =>
              obind (Some (Rewriter_factorize "standard" (fst es2) (snd es2)))
                (fun es3 =>
                   obind (Rewriter_licm fuel false false (fst es3) (snd es3))
                     (fun es4 => Some (Ok (snd es4)))))
       else Some (Ok (snd es1))).

Fixpoint rewrite_all (fuel : nat) (level : Z) (items : list (nat * MetaExpr))
  (st : state) : option (result state) :=
  match items with
  | [] => Some (Ok st)
  | (stmt, expr_info) :: tl =>
      obind (rewrite_stmt fuel level stmt expr_info st)
            (fun st' => rewrite_all fuel level tl st')
  end.

(** [LoopOptimizer.rewrite(level)] *)
Definition rewrite (fuel : nat) (level : Z) (st : state)
  : option (result state) :=
  rewrite_all fuel level (exprs st) (reset st).
End Rewrite.

(* ------------------------------------------------------------------ *)
(** ** CPULoopOptimizer *)

(** The inner function [update_expr(node, var, factor)] of [unroll]. *)
Fixpoint update_expr (var : string) (factor : Z) (node : expr) : expr :=
  match node with
  | Symbol s rank offset =>
      let offset0 :=
        if is_nil offset then List.map (fun _ => (1%Z, 0%Z)) rank else offset in
      Symbol s rank
        (List.map (fun ro => if atom_eqb (fst ro) (Str var)
                             then (fst (snd ro), (snd (snd ro) + factor)%Z)
                             else snd ro)
                  (combine rank offset0))
  | Par c => Par (update_expr var factor c)
  | Neg c => Neg (update_expr var factor c)
  | Sum l r => Sum (update_expr var factor l) (update_expr var factor r)
  | Sub l r => Sub (update_expr var factor l) (update_expr var factor r)
  | Prod l r => Prod (update_expr var factor l) (update_expr var factor r)
  | Div l r => Div (update_expr var factor l) (update_expr var factor r)
  | FunCall f args => FunCall f (List.map (update_expr var factor) args)
  end.

Definition update_stmt_expr (var : string) (factor : Z) (s : statement)
  : statement :=
  mkStmt (st_kind s) (update_expr var factor (st_lhs s))
         (update_expr var factor (st_rhs s)).

(** A new statement object. *)
Definition new_sid (st : state) : nat :=
  S (fold_right (fun kv m => Nat.max (fst kv) m) 0 (stmts st)).

Definition bump_loop (n : Z) (x : node) : node :=
  match x with
  | For l d s i p b => For l d s (i + n)%Z p b
  | _ => x
  end.

(** [loop.incr.children[1].symbol += n] on the loop object [l]. *)
Definition bump_incr (l : nat) (n : Z) (st : state) : state :=
  set_header (List.map (map_loop_in l (bump_loop n)) (header st)) st.

(** The body of [for i in range(uf-1)]: one clone of [stmt]. *)
Definition unroll_clone (itspace : string) (stmt : nat) (expr_info : MetaExpr)
  (acc : state * list (nat * MetaExpr)) (i : nat)
  : state * list (nat * MetaExpr) :=
  let (st, new_exprs) := acc in
  match get_stmt stmt st with
  | None => acc
  | Some s =>
      let sid := new_sid st in
      let new_stmt := update_stmt_expr itspace (Z.of_nat i + 1)%Z s in
      let st1 := set_stmts (stmts st ++ [(sid, new_stmt)]) st in
      let st2 := set_place_children (me_parent expr_info)
                                    (fun c => c ++ [Stmt sid]) st1 in
      (st2, alist_set Nat.eqb sid expr_info new_exprs)
  end.

(** The body of [for stmt, expr_info in self.exprs.items()]. *)
Definition unroll_expr (itspace : string) (uf : Z)
  (acc : state * list (nat * MetaExpr) * list nat) (item : nat * MetaExpr)
  : state * list (nat * MetaExpr) * list nat :=
  let '(st, new_exprs, unrolled_loops) := acc in
  let (stmt, expr_info) := item in
  match filter (fun l => String.eqb (loop_dim l) itspace)
               (perfect_loops expr_info st) with
  | [] => acc (* Unroll only loops in a perfect loop nest *)
  | loop :: _ =>
      let (st1, new_exprs1) :=
        fold_left (unroll_clone itspace stmt expr_info)
                  (seq 0 (Z.to_nat (uf - 1))) (st, new_exprs) in
      match loop_id loop with
      | Some l =>
          if existsb (Nat.eqb l) unrolled_loops then (st1, new_exprs1, unrolled_loops)
          else (bump_incr l (uf - 1) st1, new_exprs1, unrolled_loops ++ [l])
      | None => (st1, new_exprs1, unrolled_loops)
      end
  end.

(** The body of [for itspace, uf in loop_uf.items()]. *)
Definition unroll_dim (acc : state * list nat) (kv : string * Z)
  : state * list nat :=
  let (st, unrolled_loops) := acc in
  let '(st1, new_exprs, unrolled1) :=
    fold_left (unroll_expr (fst kv) (snd kv)) (exprs st) (st, [], unrolled_loops) in
  (set_exprs (alist_update Nat.eqb (exprs st1) new_exprs) st1, unrolled1).

(** [CPULoopOptimizer.unroll(loop_uf)] *)
Definition unroll (loop_uf : list (string * Z)) (st : state) : state :=
  fst (fold_left unroll_dim loop_uf (st, [])).

Section PermuteBlas.
(** [inner_loops] and [itspace_copy] of utils.py are missing: the
    innermost loops below a loop, and the copy of the iteration space
    (dimension, size, increment) between two loop objects, given as the
    iteration spaces of both after the call. *)
Variable inner_loops : node -> list nat.
Variable itspace_copy :
  (string * atom * Z) -> (string * atom * Z)
  -> (string * atom * Z) * (string * atom * Z).
(** [visit(self.loop, self.header)['max_depth']]: the visitor is
    missing. *)
Variable visit_max_depth : nat -> state -> nat.

Definition itspace_of (n : node) : string * atom * Z :=
  (loop_dim n, loop_size n, loop_incr n).

Definition set_itspace (l : nat) (its : string * atom * Z) (st : state)
  : state :=
  set_header
    (List.map (map_loop_in l (fun x =>
       match x with
       | For l' _ _ _ p b => For l' (fst (fst its)) (snd (fst its)) (snd its) p b
       | _ => x
       end)) (header st)) st.

(** The names that the first call of [transpose_layout] collects below
    the inner loop ([to_transpose] is empty there). *)
Definition names_in_stmt (s : statement) : list atom :=
  List.map sym_name (symbols_of (st_lhs s) ++ symbols_of (st_rhs s)).

Fixpoint names_in (st : state) (n : node) : list atom :=
  match n with
  | For _ _ _ _ _ body => flat_map (names_in st) body
  | DeclNode d => [sym_name (sym d)]
  | Stmt sid =>
      match get_stmt sid st with
      | Some s => names_in_stmt s
      | None => []
      end
  | Write _ lhs rhs => List.map sym_name (symbols_of lhs ++ symbols_of rhs)
  | FlatBlock _ => []
  end.

(** [node.rank = (node.rank[1], node.rank[0])] on the symbols named in
    [to_transpose]; a rank with fewer than two entries has no
    [rank[1]]. *)
Fixpoint transpose_expr (to_transpose : list atom) (e : expr) : result expr :=
  match e with
  | Symbol s rank o =>
      if existsb (atom_eqb s) to_transpose then
        match rank with
        | r0 :: r1 :: _ => Ok (Symbol s [r1; r0] o)
        | _ => Raise IndexError
        end
      else Ok e
  | Par c => c' <- transpose_expr to_transpose c ;; Ok (Par c')
  | Neg c => c' <- transpose_expr to_transpose c ;; Ok (Neg c')
  | Sum l r =>
      l' <- transpose_expr to_transpose l ;;
      r' <- transpose_expr to_transpose r ;; Ok (Sum l' r')
  | Sub l r =>
      l' <- transpose_expr to_transpose l ;;
      r' <- transpose_expr to_transpose r ;; Ok (Sub l' r')
  | Prod l r =>
      l' <- transpose_expr to_transpose l ;;
      r' <- transpose_expr to_transpose r ;; Ok (Prod l' r')
  | Div l r =>
      l' <- transpose_expr to_transpose l ;;
      r' <- transpose_expr to_transpose r ;; Ok (Div l' r')
  | FunCall f args =>
      args' <- (fix go (l : list expr) : result (list expr) :=
                  match l with
                  | [] => Ok []
                  | x :: xs =>
                      x' <- transpose_expr to_transpose x ;;
                      xs' <- go xs ;; Ok (x' :: xs')
                  end) args ;;
      Ok (FunCall f args')
  end.

Fixpoint transpose_node (to_transpose : list atom) (n : node) : result node :=
  match n with
  | For l d s i p body =>
      body' <- (fix go (ns : list node) : result (list node) :=
                  match ns with
                  | [] => Ok []
                  | x :: xs =>
                      x' <- transpose_node to_transpose x ;;
                      xs' <- go xs ;; Ok (x' :: xs')
                  end) body ;;
      Ok (For l d s i p body')
  | DeclNode d =>
      s' <- transpose_expr to_transpose (sym d) ;;
      Ok (DeclNode (mkDecl (typ d) s' (init d) (d_scope d) (is_static_const d)))
  | Write w lhs rhs =>
      lhs' <- transpose_expr to_transpose lhs ;;
      rhs' <- transpose_expr to_transpose rhs ;;
      Ok (Write w lhs' rhs')
  | Stmt _ | FlatBlock _ => Ok n
  end.

(** The second call of [transpose_layout], on the header: the nodes of
    the AST and the tracked statements. With nothing to transpose every
    symbol is only recorded. *)
Definition transpose_header (to_transpose : list atom) (st : state)
  : result state :=
  if is_nil to_transpose then Ok st
  else
    hdr <- mapM (transpose_node to_transpose) (header st) ;;
    ss <- mapM (fun kv =>
                  l <- transpose_expr to_transpose (st_lhs (snd kv)) ;;
                  r <- transpose_expr to_transpose (st_rhs (snd kv)) ;;
                  Ok (fst kv, mkStmt (st_kind (snd kv)) l r)) (stmts st) ;;
    Ok (set_stmts ss (set_header hdr st)).

(** [CPULoopOptimizer.permute(transpose)]; [loop] is [self.loop]. *)
Definition permute (loop : nat) (transpose : bool) (st : state)
  : result state :=
  match find_loop loop (header st) with
  | None => Raise KeyError
  | Some outer =>
      (* Check if the outermost loop is perfect, otherwise avoid permutation *)
      if negb (is_perfect_loop outer) then Ok st
      else
        match inner_loops outer with
        | [] => Raise IndexError
        | inner_id :: _ =>
            inner <- lookup_loop inner_id st ;;
            let tmp := itspace_of inner in
            let (its_inner, its_loop) :=
              itspace_copy (itspace_of inner) (itspace_of outer) in
            let (its_loop', _) := itspace_copy its_loop tmp in
            let st1 :=
              set_itspace loop its_loop' (set_itspace inner_id its_inner st) in
            if transpose then
              inner1 <- lookup_loop inner_id st1 ;;
              transpose_header (names_in st1 inner1) st1
            else Ok st1
        end
  end.

(** [CPULoopOptimizer.blas(library)]. Past the check of the depth the
    method reads [self.kernel_decls], which no constructor of the class
    sets. *)
Definition blas (loop : nat) (library : string) (st : state)
  : result (state * option node) :=
  if negb (Nat.eqb (visit_max_depth loop st) 3) then Ok (st, None)
  else Raise AttributeError.
End PermuteBlas.

(* ------------------------------------------------------------------ *)
(** ** Concrete inputs used by the closed statements *)

Definition sym_ (name : string) (rank : list string) : expr :=
  Symbol (Str name) (List.map Str rank) [].

(** A state with one tracked statement [X[lhs_rank] += rhs], object 0,
    below the given header. *)
Definition one_stmt_state (hdr : list node) (info : MetaExpr)
  (lhs_rank : list string) (rhs : expr) : state :=
  mkState hdr [(0, mkStmt Incr (sym_ "X" lhs_rank) rhs)] [] [] [] [] []
          [(0, info)] [].

(** [for i: for j: stmt], a perfect nest. *)
Definition nest_ij : list node :=
  [For 1 "i" (Num 3) 1 "" [For 2 "j" (Num 4) 1 "" [Stmt 0]]].

Definition info_ij : MetaExpr := mkMetaExpr "double" (BodyOf 2) [1; 2] ["i"; "j"].

Definition state_ij (rhs : expr) : state :=
  one_stmt_state nest_ij info_ij ["i"; "j"] rhs.

(** [for i: for j: { t = c; for k: stmt }]: the loop over [j] is not
    perfect. *)
Definition nest_imperfect_inner : list node :=
  [For 1 "i" (Num 3) 1 ""
     [For 2 "j" (Num 4) 1 ""
        [Write Assign (sym_ "t" []) (sym_ "c" []);
         For 3 "k" (Num 5) 1 "" [Stmt 0]]]].

Definition info_ijk : MetaExpr :=
  mkMetaExpr "double" (BodyOf 3) [1; 2; 3] ["j"; "k"].

Definition state_imperfect_inner : state :=
  one_stmt_state nest_imperfect_inner info_ijk ["j"; "k"]
                 (Prod (sym_ "A" ["j"]) (sym_ "B" ["k"])).

(** [for i: { t = c; for j: stmt }]: the outermost loop is not perfect. *)
Definition nest_imperfect_outer : list node :=
  [For 1 "i" (Num 3) 1 ""
     [Write Assign (sym_ "t" []) (sym_ "c" []);
      For 2 "j" (Num 4) 1 "" [Stmt 0]]].

Definition state_imperfect_outer (rhs : expr) : state :=
  one_stmt_state nest_imperfect_outer info_ij ["i"; "j"] rhs.

(** Stand-ins for the missing helpers where a closed statement needs
    some: the innermost loops of a nest, the copy of an iteration space
    from the second loop into the first, the depth of a nest. *)
Fixpoint innermost_loops (n : node) : list nat :=
  match n with
  | For l _ _ _ _ body =>
      match flat_map innermost_loops body with
      | [] => [l]
      | ls => ls
      end
  | _ => []
  end.

Definition copy_into_first (a b : string * atom * Z)
  : (string * atom * Z) * (string * atom * Z) := (b, b).

Fixpoint nest_depth (n : node) : nat :=
  match n with
  | For _ _ _ _ _ body =>
      S (fold_right (fun x m => Nat.max (nest_depth x) m) 0 body)
  | _ => 0
  end.

Definition depth_of_loop (l : nat) (st : state) : nat :=
  match find_loop l (header st) with
  | Some n => nest_depth n
  | None => 0
  end.

(** A fusion step for the concrete runs that reach none. *)
Definition no_fusion (_ : expr -> bool) (_ : list expr) (x : Expander)
  (st : state) : result (Expander * state) := Ok (x, st).

(** The registry [_expr_handled] after the constructors have seen the
    statements [ids], in this order, starting from [handled]. *)
Definition registered (ids : list nat) (handled : list nat) : list nat :=
  fold_left (fun acc s => fst (register s acc)) ids handled.

(** The rewriter of the only statement of [one_stmt_state]. *)
Definition rewriter_of (st : state) (info : MetaExpr) : Rewriter :=
  fst (Rewriter_init 0 info st).

(* ------------------------------------------------------------------ *)
(** ** The value of an expression

    [rho] gives a number to every reference of a variable (name, indices
    and offsets), [phi] to every call; a literal is its own value. The
    numbers are exact rationals, where the generated code computes in
    doubles: the value is used below only to tell two expressions apart
    at small integers, where both arithmetics agree, never to state that
    a rewriting keeps the value. *)

Section Eval.
Variable rho : string -> list atom -> list (Z * Z) -> Q.
Variable phi : string -> list Q -> Q.

Fixpoint eval (e : expr) : Q :=
  match e with
  | Symbol (Num n) _ _ => inject_Z n
  | Symbol (Str s) r o => rho s r o
  | Par c => eval c
  | Sum l r => Qplus (eval l) (eval r)
  | Sub l r => Qminus (eval l) (eval r)
  | Prod l r => Qmult (eval l) (eval r)
  | Div l r => Qdiv (eval l) (eval r)
  | Neg c => Qopp (eval c)
  | FunCall f args => phi f (List.map eval args)
  end.
End Eval.

(** The temporaries of the tracker expanded back into their definitions,
    to the given depth of nesting of temporaries. *)
Fixpoint inline_temporaries (depth : nat) (tr : list (atom * hoist_rec))
  (e : expr) : expr :=
  match depth with
  | 0 => e
  | S depth' =>
      let go := inline_temporaries depth' tr in
      match e with
      | Symbol s _ _ =>
          match alist_get atom_eqb s tr with
          | Some r => go (h_expr r)
          | None => e
          end
      | Par c => Par (go c)
      | Neg c => Neg (go c)
      | Sum l r => Sum (go l) (go r)
      | Sub l r => Sub (go l) (go r)
      | Prod l r => Prod (go l) (go r)
      | Div l r => Div (go l) (go r)
      | FunCall f args => FunCall f (List.map go args)
      end
  end.

(** The right-hand side of the tracked statement [sid]. *)
Definition rhs_of (sid : nat) (st : state) : option expr :=
  option_map st_rhs (get_stmt sid st).

(** Every variable is 1. *)
Definition all_ones (_ : string) (_ : list atom) (_ : list (Z * Z)) : Q := 1%Q.

Definition no_calls (_ : string) (_ : list Q) : Q := 0%Q.

(** [X[i][j] += A[i] * (B[i] + C[i])] in the perfect nest over [i], [j]. *)
Definition rhs_both_sides_expandable : expr :=
  Prod (sym_ "A" ["i"]) (Par (Sum (sym_ "B" ["i"]) (sym_ "C" ["i"]))).

(** [X[i][j] += A[i] * b - C[i] * d] in the same nest. *)
Definition rhs_difference : expr :=
  Sub (Prod (sym_ "A" ["i"]) (sym_ "b" [])) (Prod (sym_ "C" ["i"]) (sym_ "d" [])).

(** [for i: for I: X[i][I] += (A[i] + B[i]) * (C[I] + D[I])]: two loops
    whose dimensions differ by case only. *)
Definition nest_iI : list node :=
  [For 1 "i" (Num 3) 1 "" [For 2 "I" (Num 4) 1 "" [Stmt 0]]].

Definition info_iI : MetaExpr := mkMetaExpr "double" (BodyOf 2) [1; 2] ["i"; "I"].

Definition rhs_iI : expr :=
  Prod (Par (Sum (sym_ "A" ["i"]) (sym_ "B" ["i"])))
       (Par (Sum (sym_ "C" ["I"]) (sym_ "D" ["I"]))).

Definition state_iI : state := one_stmt_state nest_iI info_iI ["i"; "I"] rhs_iI.

(** [n] copies of the addend [t] in a sum, nested to the right
    ([t + (t + (... + t))]); [t] itself for [n <= 1]. *)
Fixpoint nsum (n : nat) (t : expr) : expr :=
  match n with
  | 0 => t
  | S m =>
      match m with
      | 0 => t
      | S _ => Sum t (nsum m t)
      end
  end.

(** The predicate of the 'standard' strategy once the dimension is
    [i]. *)
Definition along_i (n : expr) : bool := rank_subset [Str "i"] (sym_rank n).

(** [X[i][j] += (A[i] + B[i]) * (C[j] + D[j])]: one factor per
    dimension, the shape of the example [(A[i]*alpha + D[i])*(B[j]*beta +
    C[j])] in [_extract_exprs]. *)
Definition rhs_factor_per_dimension : expr :=
  Prod (Par (Sum (sym_ "A" ["i"]) (sym_ "B" ["i"])))
       (Par (Sum (sym_ "C" ["j"]) (sym_ "D" ["j"]))).

(** [X[i][j] += A[i] * B[j]]: the whole right-hand side is one product of
    two factors over different dimensions. *)
Definition rhs_cross : expr := Prod (sym_ "A" ["i"]) (sym_ "B" ["j"]).

(** What stays true of the hoister and of the state during
    [licm(nrank_tmps=True)] on [rhs_cross]. *)
Definition cross_invariant (h : Hoister) (st : state) : Prop :=
  hs_stmt h = 0 /\ hs_info h = info_ij /\
  header st = nest_ij /\
  stmts st = [(0, mkStmt Incr (sym_ "X" ["i"; "j"]) rhs_cross)] /\
  hs_symbols h (sym_ "A" ["i"]) = ["i"] /\
  hs_symbols h (sym_ "B" ["j"]) = ["j"].

(** The iteration space of the loop object [l]: dimension, size and
    increment. *)
Definition loop_itspace (l : nat) (st : state) : option (string * atom * Z) :=
  option_map itspace_of (find_loop l (header st)).


(** The loop that [unroll] picks for an expression and a dimension:
    [[l for l in expr_info.perfect_loops if l.dim == itspace][0]]. *)
Definition unroll_target (itspace : string) (expr_info : MetaExpr) (st : state)
  : option node :=
  hd_error (filter (fun l => String.eqb (loop_dim l) itspace)
                   (perfect_loops expr_info st)).

(** The clones of the statement [s] for the unroll factor [uf], with the
    identities they get in a state whose next new statement is [sid]. *)
Definition unroll_clones (itspace : string) (uf : Z) (sid : nat) (s : statement)
  : list (nat * statement) :=
  List.map (fun k => (sid + k, update_stmt_expr itspace (Z.of_nat k + 1)%Z s))
           (seq 0 (Z.to_nat (uf - 1))).

(** The body of a loop after [loop.incr += k] on the loop [l0]: what it
    was, up to the increment of [l0] where that loop is inside. *)
Definition body_up_to_bump (l0 : nat) (k : Z) (r' r : option node) : Prop :=
  match r', r with
  | Some n', Some n =>
      loop_body n' = loop_body n \/
      loop_body n' = List.map (map_loop_in l0 (bump_loop k)) (loop_body n)
  | None, None => True
  | _, _ => False
  end.


Definition max_sid (ss : list (nat * statement)) : nat :=
  fold_right (fun kv m => Nat.max (fst kv) m) 0 ss.

(** [loop in unrolled_loops] *)
Definition mem_nat (l : nat) (ls : list nat) : bool := existsb (Nat.eqb l) ls.


(* ------------------------------------------------------------------ *)
(** ** The calls of [licm] made by [rewrite(1)] *)

Section RewriteTrace.
Variable repr : expr -> string.
Variable visit_symbols_dep : list node -> list (nat * statement) -> expr -> dep.

(** For each tracked statement, in the order of [rewrite(1)]: the state
    in which its hoister ran [licm] and the hoister when [licm]
    returned. The list stops at a call that raises. *)
Fixpoint licm_trace (fuel : nat) (items : list (nat * MetaExpr)) (st : state)
  : list (state * Hoister) :=
  match items with
  | [] => []
  | (stmt, expr_info) :: tl =>
      let (ew, st0) := Rewriter_init stmt expr_info st in
      match licm repr visit_symbols_dep false false fuel (expr_hoister ew) st0 with
      | Some (Ok (h, st1)) => (st0, h) :: licm_trace fuel tl st1
      | _ => []
      end
  end.

(** The visitor, run on the AST of [st1], reports for the symbols of the
    statement of a hoister the dependencies that the hoister holds in
    [self.symbols]. A hoister that skipped its nest holds none. *)
Definition visitor_agrees (st1 : state) (sh : state * Hoister) : bool :=
  negb (_check_loops (hs_info (snd sh)) (fst sh)) ||
  match get_stmt (hs_stmt (snd sh)) st1 with
  | Some s =>
      forallb (fun x => dep_eqb (visit_symbols_dep (header st1) (stmts st1) x)
                                (hs_symbols (snd sh) x))
              (symbols_of (st_rhs s))
  | None => true
  end.
End RewriteTrace.

(** The loops of an expression are loops of the AST. *)
Definition loops_found (info : MetaExpr) (hdr : list node) : bool :=
  forallb (fun l => match find_loop l hdr with
                    | Some _ => true
                    | None => false
                    end) (me_loops info).

(** Every loop of every tracked expression is a loop of the AST. *)
Definition loops_tracked (st : state) : bool :=
  forallb (fun it => loops_found (snd it) (header st)) (exprs st).

(** Two states with the same AST and the same tables about it; the
    registries of the constructors and the warnings may differ. *)
Definition same_ast (a b : state) : Prop :=
  header a = header b /\ stmts a = stmts b /\ decls a = decls b /\
  hoisted a = hoisted b /\ expr_graph a = expr_graph b /\ exprs a = exprs b.

(** A first round of [licm] on a tracked statement would extract
    nothing: the nest is skipped, or [_extract_exprs] leaves
    [self.extracted] false. *)
Definition settled
  (visit_symbols_dep : list node -> list (nat * statement) -> expr -> dep)
  (st : state) (it : nat * MetaExpr) : Prop :=
  _check_loops (snd it) st = true ->
  exists s r acc,
    get_stmt (fst it) st = Some s /\
    _extract_exprs (visit_symbols_dep (header st) (stmts st))
                   (me_dims (snd it) st) false false (st_rhs s) []
                   (mkExtraction [] false) = Ok (r, acc) /\
    extracted acc = false.

(** The keys of a dictionary are distinct. *)
Fixpoint distinct_keys (ks : list nat) : bool :=
  match ks with
  | [] => true
  | k :: tl => negb (mem_nat k tl) && distinct_keys tl
  end.

(** [X[i][j] += ((A[i]*a) + (B[i]+C[i])) * D[i]] *)
Definition rhs_scalars : expr :=
  Prod (Par (Sum (Par (Prod (sym_ "A" ["i"]) (sym_ "a" [])))
                 (Par (Sum (sym_ "B" ["i"]) (sym_ "C" ["i"])))))
       (sym_ "D" ["i"]).

(** The state that [rewrite(1)] leaves for [rhs_scalars] in the perfect
    nest. *)
Definition state_ij_hoisted : state :=
  Eval vm_compute in
    match rewrite gencode rank_symbols_dep no_fusion 5 1 (state_ij rhs_scalars) with
    | Some (Ok s) => s
    | _ => state_ij rhs_scalars
    end.

(** What an insertion of hoisted code keeps of a nest: every loop is
    still there, over the same dimension, and a loop that was not perfect
    is not perfect afterwards. *)
Definition nest_grows (hdr hdr' : list node) : Prop :=
  forall l n, find_loop l hdr = Some n ->
    exists n', find_loop l hdr' = Some n' /\ loop_dim n' = loop_dim n /\
               (is_perfect_loop n = false -> is_perfect_loop n' = false).

(** The invariant assignments collected by the rounds are no loops. *)
Definition no_loops (inv_dep : inv_dep_t) : Prop :=
  Forall (fun it => forallb (fun n => negb (is_For n)) (snd (snd it)) = true)
         inv_dep.

(* ------------------------------------------------------------------ *)
(** ** Shapes of expressions used by the general statements *)

(** A [Neg] node somewhere in the tree. *)
Fixpoint has_neg (e : expr) : bool :=
  match e with
  | Symbol _ _ _ => false
  | Neg _ => true
  | Par c => has_neg c
  | Sum l r | Sub l r | Prod l r | Div l r => has_neg l || has_neg r
  | FunCall _ args =>
      (fix go (l : list expr) : bool :=
         match l with
         | [] => false
         | x :: xs => has_neg x || go xs
         end) args
  end.

(** The nodes of a tree that are no [Symbol]. *)
Fixpoint inner_count (e : expr) : nat :=
  match e with
  | Symbol _ _ _ => 0
  | Par c | Neg c => S (inner_count c)
  | Sum l r | Sub l r | Prod l r | Div l r => S (inner_count l + inner_count r)
  | FunCall _ args =>
      S ((fix go (l : list expr) : nat :=
            match l with
            | [] => 0
            | x :: xs => inner_count x + go xs
            end) args)
  end.

(** A position recorded for hoisting in the right-hand side [e0]: below
    the root, at a node that is no [Symbol]. *)
Definition proper_target (e0 : expr) (q : path) : Prop :=
  q <> [] /\ exists n, subtree_at e0 q = Some n /\ is_Symbol n = false.

(** [X[i][j] += (A[i] + B[i]) * (C[j] + D[j])] *)
Definition rhs_two_sums : expr :=
  Prod (Par (Sum (sym_ "A" ["i"]) (sym_ "B" ["i"])))
       (Par (Sum (sym_ "C" ["j"]) (sym_ "D" ["j"]))).

(** What holds of [dep_subexprs] and [self.extracted] all along
    [_extract_exprs] on the right-hand side [e0]: every group has a
    position, its dependency is made of dimensions of the expression, its
    positions are proper targets, and the flag is set exactly when there
    is a group. *)
Definition records_ok (e0 : expr) (dims : list string) (acc : extraction)
  : Prop :=
  (forall d ps, In (d, ps) (dep_subexprs acc) ->
     ps <> [] /\ (forall x, In x d -> In x dims) /\
     (forall q, In q ps -> proper_target e0 q)) /\
  (extracted acc = true <-> dep_subexprs acc <> []).

(** What [ast_replace] puts in the slot of the child [c]. *)
Definition replace_child (repr : expr -> string)
  (to_replace : list (string * expr)) (c : expr) : expr :=
  match alist_get String.eqb (repr c) to_replace with
  | Some r => r
  | None => fst (ast_replace repr to_replace c)
  end.

(** [X[i][j] += (-A[i]) * B[j]] *)
Definition rhs_negated : expr := Prod (Neg (sym_ "A" ["i"])) (sym_ "B" ["j"]).

(** The hoister of the only statement of [state_ij rhs] and the state in
    which it starts. *)
Definition hoister_ij (rhs : expr) : Hoister * state :=
  Hoister_init 0 info_ij (state_ij rhs).

(** No underscore in a string. *)
Fixpoint no_underscore (s : string) : bool :=
  match s with
  | EmptyString => true
  | String c s' => negb (Ascii.eqb c "_") && no_underscore s'
  end.

(** A symbol named in [to_transpose] that has fewer than two indices. *)
Definition short_rank (to_transpose : list atom) (x : expr) : bool :=
  existsb (atom_eqb (sym_name x)) to_transpose &&
  Nat.ltb (List.length (sym_rank x)) 2.

(** A symbol that is not named in [to_transpose], or has exactly two
    indices. *)
Definition two_indices (to_transpose : list atom) (x : expr) : bool :=
  negb (existsb (atom_eqb (sym_name x)) to_transpose) ||
  Nat.eqb (List.length (sym_rank x)) 2.

(** [X[i][j] += A[i][j] * B[j]] *)
Definition rhs_matrix_vector : expr :=
  Prod (sym_ "A" ["i"; "j"]) (sym_ "B" ["j"]).


(** The [occurrences] of the 'standard' strategy: the ranks of the
    ranked symbols, each without the dimensions that are not in the
    domain. *)
Definition occurrences (rhs : expr) (domain : list string) : list (list atom) :=
  List.map (filter (fun r => existsb (atom_eqb r) (List.map Str domain)))
           (filter (fun r => negb (is_nil r))
                   (List.map sym_rank (symbols_of rhs))).

(** The expander of the only statement of [state_ij rhs]. *)
Definition expander_ij (rhs : expr) : Expander * state :=
  Expander_init 0 info_ij (state_ij rhs).


(** A scalar output: [s += (A[i] + B[i]) * C[j]] in the nest over [i]
    and [j], with no dimension in the domain. *)
Definition info_scalar : MetaExpr := mkMetaExpr "double" (BodyOf 2) [1; 2] [].

Definition state_scalar : state :=
  one_stmt_state nest_ij info_scalar []
    (Prod (Par (Sum (sym_ "A" ["i"]) (sym_ "B" ["i"]))) (sym_ "C" ["j"])).

(* ------------------------------------------------------------------ *)
(** ** ExpressionRewriter.reassociate *)

(** The order of Python 2 on the entries of a rank: a number is below
    every string, numbers and strings compare among themselves. *)
Definition atom_ltb (a b : atom) : bool :=
  match a, b with
  | Num n, Num m => Z.ltb n m
  | Num _, Str _ => true
  | Str _, Num _ => false
  | Str s, Str t => String.ltb s t
  end.

(** Tuples compare entry by entry, a proper prefix is the smaller. *)
Fixpoint rank_ltb (a b : list atom) : bool :=
  match a, b with
  | [], [] => false
  | [], _ :: _ => true
  | _ :: _, [] => false
  | x :: xs, y :: ys =>
      if atom_ltb x y then true
      else if atom_eqb x y then rank_ltb xs ys
      else false
  end.

(** [key=lambda n: (len(n[0]), n[0])] on the rank of a symbol. *)
Definition rank_key_ltb (a b : expr) : bool :=
  Nat.ltb (List.length (sym_rank a)) (List.length (sym_rank b)) ||
  (Nat.eqb (List.length (sym_rank a)) (List.length (sym_rank b)) &&
   rank_ltb (sym_rank a) (sym_rank b)).

(** [symbols.sort(key=...)]: the sort is stable. *)
Fixpoint insert_by_rank (x : expr) (l : list expr) : list expr :=
  match l with
  | [] => [x]
  | y :: tl =>
      if rank_key_ltb y x then y :: insert_by_rank x tl else x :: y :: tl
  end.

Definition sort_by_rank (l : list expr) : list expr :=
  fold_right insert_by_rank [] l.

(** Modelled from the spec: [explore_operator] of utils.py is missing.
    By its use in [_reassociate] and the example of the docstring
    ([a*b[i]*c[i][j]*d] becomes [a*d*b[i]*c[i][j]]) it hands over the
    operands of a chain of products: children of class [Prod] are
    entered, as in [prod_chain]. Here the result is split as the [Prod]
    case of [_reassociate] splits it: the operands that are no symbols,
    each already reassociated by [rec], the operands that are symbols,
    and the warnings of [rec]. *)
Fixpoint reassociate_operands (rec : expr -> expr * list string) (e : expr)
  : list expr * list expr * list string :=
  match e with
  | Prod a b =>
      let '(oa, sa, wa) := reassociate_operands rec a in
      let '(ob, sb, wb) := reassociate_operands rec b in
      (oa ++ ob, sa ++ sb, wa ++ wb)
  | Symbol _ _ _ => ([], [e], [])
  | _ => let (e', w) := rec e in ([e'], [], w)
  end.

(** The inner function [_reassociate(node, parent)]: the node that sits
    in the slot of the parent after the call, and the warnings. The
    message of the warning has the class of the node for [%s]. *)
Fixpoint _reassociate (node : expr) : expr * list string :=
  match node with
  | Symbol _ _ _ | Div _ _ => (node, [])
  | Par child => let (c, w) := _reassociate child in (Par c, w)
  | Sum l r =>
      let (l', wl) := _reassociate l in
      let (r', wr) := _reassociate r in (Sum l' r', wl ++ wr)
  | Sub l r =>
      let (l', wl) := _reassociate l in
      let (r', wr) := _reassociate r in (Sub l' r', wl ++ wr)
  | FunCall f args =>
      let res :=
        (fix go (l : list expr) : list expr * list string :=
           match l with
           | [] => ([], [])
           | x :: xs =>
               let (x', w) := _reassociate x in
               let (xs', ws) := go xs in (x' :: xs', w ++ ws)
           end) args in
      (FunCall f (fst res), snd res)
  | Prod l r =>
      let '(ol, sl, wl) := reassociate_operands _reassociate l in
      let '(or, sr, wr) := reassociate_operands _reassociate r in
      (* Reassociate symbols *)
      let symbols := sort_by_rank (sl ++ sr) in
      (* Create the reassociated product *)
      let children := (ol ++ or) ++ symbols in
      (match ast_make_expr (Some OpProd) children with
       | Ok (Some reassociated_node) => reassociated_node
       | _ => node
       end, wl ++ wr)
  | Neg _ => (node, ["Unexpect node of type Neg while reassociating"])
  end.

(** [ExpressionRewriter.reassociate()] *)
Definition Rewriter_reassociate (ew : Rewriter) (st : state) : result state :=
  match get_stmt (ew_stmt ew) st with
  | None => Raise KeyError
  | Some s =>
      let (rhs, warnings) := _reassociate (st_rhs s) in
      let st1 := set_rhs (ew_stmt ew) rhs st in
      Ok (fold_left (fun acc w => warning w acc) warnings st1)
  end.

(** [a * b[i] * c[i][j] * d], the example of the docstring. *)
Definition rhs_docstring : expr :=
  Prod (Prod (Prod (sym_ "a" []) (sym_ "b" ["i"])) (sym_ "c" ["i"; "j"]))
       (sym_ "d" []).

(** An operand of a product that [explore_operator] hands over as it
    is: neither a symbol nor a product. *)
Definition is_operand (e : expr) : bool :=
  match e with
  | Symbol _ _ _ | Prod _ _ => false
  | _ => true
  end.

(** Symbols in the order of [rank_key_ltb]. *)
Fixpoint rank_sorted (l : list expr) : bool :=
  match l with
  | [] => true
  | x :: tl =>
      match tl with
      | [] => true
      | y :: _ => negb (rank_key_ltb y x) && rank_sorted tl
      end
  end.

(* ------------------------------------------------------------------ *)
(** ** Shapes for the expander *)

(** A sum of candidates for expansion: symbols that [should_expand]
    accepts, under [Sum] and [Par]. *)
Fixpoint candidate_sum (should_expand : expr -> bool) (e : expr) : bool :=
  match e with
  | Symbol _ _ _ => should_expand e
  | Par c => candidate_sum should_expand c
  | Sum l r => candidate_sum should_expand l && candidate_sum should_expand r
  | _ => false
  end.

(** A node that [_expand] hands up as one groupable node. *)
Definition is_group (should_expand : expr -> bool) (g : expr) : bool :=
  match g with
  | Symbol _ _ _ => negb (should_expand g)
  | Div _ _ | FunCall _ _ => true
  | _ => false
  end.

(** The factor [g] multiplied into every term of a sum. *)
Fixpoint distribute (g : expr) (e : expr) : expr :=
  match e with
  | Symbol _ _ _ => Prod e g
  | Par c => Par (distribute g c)
  | Sum l r => Sum (distribute g l) (distribute g r)
  | _ => e
  end.

(** The symbols of a sum with their positions, left to right. *)
Fixpoint leaf_items (e : expr) : list item :=
  match e with
  | Par c => List.map (shift 0) (leaf_items c)
  | Sum l r => List.map (shift 0) (leaf_items l) ++ List.map (shift 1) (leaf_items r)
  | _ => [(Some [], e)]
  end.

(** The expansions put at the positions of the given nodes. *)
Definition put_expansions (g : expr) (its : list item) (e : expr) : expr :=
  fold_left (fun child it =>
               match fst it with
               | Some p => replace_at p (Prod (snd it) g) child
               | None => child
               end) its e.

(* ------------------------------------------------------------------ *)
(** ** Inputs on which the factorizer loses factors *)

(** Every variable is 2. *)
Definition all_twos (_ : string) (_ : list atom) (_ : list (Z * Z)) : Q := 2%Q.

(** [X[i][j] += A[i] * (b * c) + A[i] * (d * e)]: a sum of two products
    with the common operand [A[i]] and a parenthesised product of scalars
    as the other factor. *)
Definition rhs_nested_factors : expr :=
  Sum (Prod (sym_ "A" ["i"]) (Par (Prod (sym_ "b" []) (sym_ "c" []))))
      (Prod (sym_ "A" ["i"]) (Par (Prod (sym_ "d" []) (sym_ "e" [])))).

(** [X[i][j] += A[i] + A[i] * b]: the common operand alone, and the
    common operand times a factor. *)
Definition rhs_bare_operand : expr :=
  Sum (sym_ "A" ["i"]) (Prod (sym_ "A" ["i"]) (sym_ "b" [])).

(* ------------------------------------------------------------------ *)
(** ** One pass of [unroll], read off the state it starts from *)








(** The state and [unrolled_loops] after the dimensions of [loop_uf]. *)
Definition unrolled_loops (loop_uf : list (string * Z)) (st : state) : list nat :=
  snd (fold_left unroll_dim loop_uf (st, [])).





(* ================================================================== *)
(** * Properties *)

Lemma atom_eqb_eq a b : atom_eqb a b = true <-> a = b.
Proof.
  destruct a, b; simpl; split; intro H; try discriminate.
  - apply String.eqb_eq in H. congruence.
  - inversion H. apply String.eqb_refl.
  - apply Z.eqb_eq in H. congruence.
  - inversion H. apply Z.eqb_refl.
Qed.

Lemma list_eqb_eq {A} (eqb : A -> A -> bool) :
  (forall a b, eqb a b = true <-> a = b) ->
  forall l1 l2, list_eqb eqb l1 l2 = true <-> l1 = l2.
Proof.
  intros H l1. induction l1 as [|x xs IH]; intros [|y ys]; simpl;
    split; intro E; try discriminate; try reflexivity.
  - apply andb_true_iff in E. destruct E as [E1 E2].
    apply H in E1. apply IH in E2. congruence.
  - inversion E; subst. apply andb_true_iff. split.
    + now apply H.
    + now apply IH.
Qed.

Lemma ofs_eqb_eq a b : ofs_eqb a b = true <-> a = b.
Proof.
  destruct a, b; unfold ofs_eqb; simpl. rewrite andb_true_iff, !Z.eqb_eq.
  split; [intros [-> ->]; reflexivity | intro H; inversion H; auto].
Qed.

Lemma expr_eqb_eq a : forall b, expr_eqb a b = true <-> a = b.
Proof.
  induction a using expr_rect'; intros b; destruct b; simpl;
    try (split; intro E; discriminate).
  - rewrite !andb_true_iff, atom_eqb_eq,
      (list_eqb_eq atom_eqb atom_eqb_eq), (list_eqb_eq ofs_eqb ofs_eqb_eq).
    split; [intros [[-> ->] ->]; reflexivity | intro E; inversion E; auto].
  - rewrite IHa. split; congruence.
  - rewrite andb_true_iff, IHa1, IHa2. split; [intros [-> ->]|intro E; inversion E]; auto.
  - rewrite andb_true_iff, IHa1, IHa2. split; [intros [-> ->]|intro E; inversion E]; auto.
  - rewrite andb_true_iff, IHa1, IHa2. split; [intros [-> ->]|intro E; inversion E]; auto.
  - rewrite andb_true_iff, IHa1, IHa2. split; [intros [-> ->]|intro E; inversion E]; auto.
  - rewrite IHa. split; congruence.
  - rewrite andb_true_iff, String.eqb_eq.
    assert (G : forall l2,
      (fix go (l1 l2 : list expr) : bool :=
         match l1, l2 with
         | [], [] => true
         | x :: xs, y :: ys => expr_eqb x y && go xs ys
         | _, _ => false
         end) args l2 = true <-> args = l2).
    { induction H as [|x xs Hx Hxs IH]; intros [|y ys];
        try (split; intro E; (discriminate || reflexivity)).
      rewrite andb_true_iff, Hx, IH.
      split; [intros [-> ->]|intro E; inversion E]; auto. }
    rewrite G. split; [intros [-> ->]|intro E; inversion E]; auto.
Qed.

Lemma expr_eqb_refl a : expr_eqb a a = true.
Proof. now apply expr_eqb_eq. Qed.

Lemma dep_eqb_eq (a b : dep) : dep_eqb a b = true <-> a = b.
Proof. apply list_eqb_eq. intros; apply String.eqb_eq. Qed.


(* ------------------------------------------------------------------ *)
(** ** Precondition failures (C2) *)

Section PreconditionFailures.
Variable repr : expr -> string.
Variable visit_symbols_dep : list node -> list (nat * statement) -> expr -> dep.

Lemma licm_unsuitable_nest nrank_tmps outer_only fuel h st :
  _check_loops (hs_info h) st = false ->
  licm repr visit_symbols_dep nrank_tmps outer_only fuel h st =
  Some (Ok (h, warning "Loop nest unsuitable for generalized licm. Skipping." st)).
Proof. intros H. unfold licm. rewrite H. reflexivity. Qed.
End PreconditionFailures.

Lemma warning_keeps_state msg st :
  header (warning msg st) = header st /\
  stmts (warning msg st) = stmts st /\
  decls (warning msg st) = decls st /\
  hoisted (warning msg st) = hoisted st /\
  expr_graph (warning msg st) = expr_graph st /\
  exprs (warning msg st) = exprs st /\
  log (warning msg st) = log st ++ [msg].
Proof. repeat split. Qed.

(** C2. When a loop of the nest other than the outermost is not perfect,
    [ExpressionHoister.licm] returns normally, whatever its arguments and
    the printer and the visitor are: the statements, the AST, the
    declarations, the hoist tracker and the expression graph are what they
    were, and one warning is logged. [CPULoopOptimizer.permute] returns the
    state unchanged when the outermost loop is not perfect, and
    [CPULoopOptimizer.blas] returns the state unchanged and no result when
    the depth reported by the visitor is not 3. None of the three raises. *)
Theorem precondition_failure_is_noop :
  (forall repr visit_symbols_dep nrank_tmps outer_only fuel h st,
      _check_loops (hs_info h) st = false ->
      exists st',
        licm repr visit_symbols_dep nrank_tmps outer_only fuel h st
          = Some (Ok (h, st')) /\
        header st' = header st /\ stmts st' = stmts st /\
        decls st' = decls st /\ hoisted st' = hoisted st /\
        expr_graph st' = expr_graph st /\ exprs st' = exprs st /\
        log st' = log st ++ ["Loop nest unsuitable for generalized licm. Skipping."]) /\
  (forall inner_loops itspace_copy loop outer transpose st,
      find_loop loop (header st) = Some outer ->
      is_perfect_loop outer = false ->
      permute inner_loops itspace_copy loop transpose st = Ok st) /\
  (forall visit_max_depth loop library st,
      visit_max_depth loop st <> 3 ->
      blas visit_max_depth loop library st = Ok (st, None)).
Proof.
  split; [|split].
  - intros repr visit nrank outer fuel h st H.
    eexists. split.
    + apply licm_unsuitable_nest. exact H.
    + apply warning_keeps_state.
  - intros inner_loops itspace_copy loop outer transpose st Hfind Hperf.
    unfold permute. rewrite Hfind, Hperf. reflexivity.
  - intros vmd loop library st H.
    unfold blas. apply Nat.eqb_neq in H. rewrite H. reflexivity.
Qed.

Lemma precondition_failure_is_noop_witness :
  (exists st',
      licm gencode rank_symbols_dep false false 5
           (fst (Hoister_init 0 info_ijk state_imperfect_inner))
           (snd (Hoister_init 0 info_ijk state_imperfect_inner))
        = Some (Ok (fst (Hoister_init 0 info_ijk state_imperfect_inner), st')) /\
      stmts st' = stmts state_imperfect_inner) /\
  permute innermost_loops copy_into_first 1 true
          (state_imperfect_outer (sym_ "A" ["i"]))
    = Ok (state_imperfect_outer (sym_ "A" ["i"])) /\
  blas depth_of_loop 1 "mkl" (state_ij (sym_ "A" ["i"]))
    = Ok (state_ij (sym_ "A" ["i"]), None).
Proof.
  destruct precondition_failure_is_noop as [H1 [H2 H3]].
  split; [|split].
  - destruct (H1 gencode rank_symbols_dep false false 5
                 (fst (Hoister_init 0 info_ijk state_imperfect_inner))
                 (snd (Hoister_init 0 info_ijk state_imperfect_inner)))
      as [st' [E [_ [S _]]]].
    + reflexivity.
    + exists st'. split; [exact E | exact S].
  - eapply H2; reflexivity.
  - apply H3. vm_compute. discriminate.
Defined.

(* ------------------------------------------------------------------ *)
(** ** The registries of handled expressions (C10) *)

Lemma reset_forgets_registries r1 r2 st :
  reset (set_hoister_handled r1 (set_expander_handled r2 st)) = reset st.
Proof. destruct st; reflexivity. Qed.

Lemma exprs_set_registries r1 r2 st :
  exprs (set_hoister_handled r1 (set_expander_handled r2 st)) = exprs st.
Proof. destruct st; reflexivity. Qed.

Lemma Rewriter_init_registers stmt info st :
  snd (Rewriter_init stmt info st) =
  set_expander_handled (fst (register stmt (expander_handled st)))
    (set_hoister_handled (fst (register stmt (hoister_handled st))) st).
Proof.
  unfold Rewriter_init, Hoister_init, Expander_init.
  destruct (register stmt (hoister_handled st)) as [h1 i1] eqn:E1.
  destruct st; simpl in *.
  destruct (register stmt expander_handled0) as [h2 i2] eqn:E2.
  reflexivity.
Qed.

Lemma Rewriter_init_ids_after_reset stmt info st :
  hs_expr_id (expr_hoister (fst (Rewriter_init stmt info (reset st)))) = 0 /\
  ex_expr_id (expr_expander (fst (Rewriter_init stmt info (reset st)))) = 0.
Proof. destruct st; split; reflexivity. Qed.

Section RegistriesReset.
Variable repr : expr -> string.
Variable visit_symbols_dep : list node -> list (nat * statement) -> expr -> dep.
Variable fusion : (expr -> bool) -> list expr -> Expander -> state
                  -> result (Expander * state).

Lemma rewrite_all_level0 fuel items : forall st,
  rewrite_all repr visit_symbols_dep fusion fuel 0 items st =
  Some (Ok (set_expander_handled
              (registered (List.map fst items) (expander_handled st))
              (set_hoister_handled
                 (registered (List.map fst items) (hoister_handled st)) st))).
Proof.
  induction items as [|[stmt info] tl IH]; intros st.
  - destruct st; reflexivity.
  - simpl. unfold rewrite_stmt.
    destruct (Rewriter_init stmt info st) as [ew st0] eqn:E.
    simpl. rewrite IH.
    assert (S0 : st0 = snd (Rewriter_init stmt info st)) by (rewrite E; reflexivity).
    rewrite Rewriter_init_registers in S0. subst st0.
    destruct st; reflexivity.
Qed.

(** C10. [LoopOptimizer.rewrite] starts by emptying both registries
    [_expr_handled], at every level: what the registries held before the
    call has no effect on its result; the first statement the call
    constructs a rewriter for gets the identifier 0 from the hoister and
    from the expander; and at level 0, where no expression is rewritten,
    the call still leaves in both registries exactly the statements of this
    optimizer, and nothing of what was there before. *)
Theorem rewrite_resets_registries :
  forall fuel level st r1 r2,
    rewrite repr visit_symbols_dep fusion fuel level
            (set_hoister_handled r1 (set_expander_handled r2 st))
      = rewrite repr visit_symbols_dep fusion fuel level st /\
    rewrite repr visit_symbols_dep fusion fuel level st
      = rewrite_all repr visit_symbols_dep fusion fuel level (exprs st) (reset st) /\
    (forall stmt info,
        hs_expr_id (expr_hoister (fst (Rewriter_init stmt info (reset st)))) = 0 /\
        ex_expr_id (expr_expander (fst (Rewriter_init stmt info (reset st)))) = 0) /\
    rewrite repr visit_symbols_dep fusion fuel 0
            (set_hoister_handled r1 (set_expander_handled r2 st))
      = Some (Ok (set_expander_handled
                    (registered (List.map fst (exprs st)) [])
                    (set_hoister_handled
                       (registered (List.map fst (exprs st)) []) st))).
Proof.
  intros fuel level st r1 r2. split; [|split; [|split]].
  - unfold rewrite. rewrite reset_forgets_registries, exprs_set_registries.
    reflexivity.
  - reflexivity.
  - intros stmt info. apply Rewriter_init_ids_after_reset.
  - unfold rewrite.
    rewrite reset_forgets_registries, exprs_set_registries, rewrite_all_level0.
    destruct st; reflexivity.
Qed.
End RegistriesReset.

(* ------------------------------------------------------------------ *)
(** ** The 'standard' strategies on a statement without ranked symbol (C9) *)

Lemma no_ranked_symbol_no_occurrence (l : list expr) :
  (forall x, In x l -> sym_rank x = []) ->
  filter (fun r => negb (is_nil r)) (List.map sym_rank l) = [].
Proof.
  induction l as [|x xs IH]; intros H; simpl.
  - reflexivity.
  - rewrite (H x (or_introl eq_refl)). simpl. apply IH.
    intros y Hy. apply H. right. exact Hy.
Qed.

Lemma standard_dimension_no_rank rhs domain :
  (forall x, In x (symbols_of rhs) -> sym_rank x = []) ->
  standard_dimension rhs domain = Raise IndexError.
Proof.
  intros H. unfold standard_dimension.
  rewrite (no_ranked_symbol_no_occurrence _ H). reflexivity.
Qed.

(** C9. On a statement whose right-hand side has no symbol with a
    nonempty rank, [ExpressionRewriter.expand(mode='standard')] and
    [ExpressionRewriter.factorize(mode='standard')] raise [IndexError]
    (the [[0]] on the empty result of [most_common(1)]); a mode that is not
    known logs a warning and returns instead. *)
Theorem standard_mode_raises_without_ranked_symbol :
  forall repr fusion ew st s,
    get_stmt (ew_stmt ew) st = Some s ->
    (forall x, In x (symbols_of (st_rhs s)) -> sym_rank x = []) ->
    Rewriter_expand fusion "standard" ew st = Raise IndexError /\
    Rewriter_factorize repr "standard" ew st = Raise IndexError /\
    Rewriter_expand fusion "other" ew st
      = Ok (ew, warning "Unknown expansion strategy. Skipping." st) /\
    Rewriter_factorize repr "other" ew st
      = Ok (ew, warning "Unknown factorization strategy. Skipping." st).
Proof.
  intros repr fusion ew st s Hs Hr.
  unfold Rewriter_expand, Rewriter_factorize. rewrite Hs. simpl.
  rewrite (standard_dimension_no_rank _ _ Hr). simpl.
  repeat split; reflexivity.
Qed.

Lemma standard_mode_raises_without_ranked_symbol_witness :
  Rewriter_expand no_fusion "standard"
    (rewriter_of (state_ij (Prod (sym_ "a" []) (sym_ "b" []))) info_ij)
    (state_ij (Prod (sym_ "a" []) (sym_ "b" []))) = Raise IndexError /\
  Rewriter_factorize gencode "standard"
    (rewriter_of (state_ij (Prod (sym_ "a" []) (sym_ "b" []))) info_ij)
    (state_ij (Prod (sym_ "a" []) (sym_ "b" []))) = Raise IndexError.
Proof.
  destruct (@standard_mode_raises_without_ranked_symbol gencode no_fusion
              (rewriter_of (state_ij (Prod (sym_ "a" []) (sym_ "b" []))) info_ij)
              (state_ij (Prod (sym_ "a" []) (sym_ "b" [])))
              (mkStmt Incr (sym_ "X" ["i"; "j"]) (Prod (sym_ "a" []) (sym_ "b" []))))
    as [H1 [H2 _]].
  - reflexivity.
  - simpl. intros x [E | [E | []]]; subst x; reflexivity.
  - split; [exact H1 | exact H2].
Defined.

(* ------------------------------------------------------------------ *)
(** ** The value of the rewritten expression (C1) *)

Section ValueAtLevel2.
Variable fusion : (expr -> bool) -> list expr -> Expander -> state
                  -> result (Expander * state).

(** C1, at a concrete statement. [rewrite(2)] on
    [X[i][j] += A[i] * (B[i] + C[i])] in a perfect nest over [i], [j],
    whatever the fusion step does: the first hoisting extracts nothing;
    the expansion along [i] finds both sides of the product expandable,
    builds [A[i] * B[i]] for the first pair of the Cartesian product and
    leaves the loop at the [break], so the addend [C[i]] is lost; nothing
    is factorized or hoisted after that. No temporary exists, and with
    every variable equal to 1 the statement adds 1 where it added 2. The
    same call on [A[i] * b - C[i] * d] returns [A[i] * b + C[i] * d]: the
    factorizer rebuilds every difference as a sum. *)
Theorem rewrite_level2_changes_value :
  (exists st',
      rewrite gencode rank_symbols_dep fusion 20 2
              (state_ij rhs_both_sides_expandable) = Some (Ok st') /\
      hoisted st' = [] /\
      rhs_of 0 st' = Some (Prod (sym_ "A" ["i"]) (sym_ "B" ["i"])) /\
      Qeq (eval all_ones no_calls rhs_both_sides_expandable) 2 /\
      Qeq (eval all_ones no_calls (Prod (sym_ "A" ["i"]) (sym_ "B" ["i"]))) 1) /\
  (exists st',
      rewrite gencode rank_symbols_dep fusion 20 2
              (state_ij rhs_difference) = Some (Ok st') /\
      hoisted st' = [] /\
      rhs_of 0 st' = Some (Sum (Prod (sym_ "A" ["i"]) (sym_ "b" []))
                               (Prod (sym_ "C" ["i"]) (sym_ "d" []))) /\
      Qeq (eval all_ones no_calls rhs_difference) 0 /\
      Qeq (eval all_ones no_calls
             (Sum (Prod (sym_ "A" ["i"]) (sym_ "b" []))
                  (Prod (sym_ "C" ["i"]) (sym_ "d" [])))) 2).
Proof.
  split.
  - eexists. split; [vm_compute; reflexivity|].
    repeat split; vm_compute; reflexivity.
  - eexists. split; [vm_compute; reflexivity|].
    repeat split; vm_compute; reflexivity.
Qed.
End ValueAtLevel2.

(* ------------------------------------------------------------------ *)
(** ** The names of the temporaries (C5) *)

(** C5, at a concrete nest. In a nest over [i] and [I], [rewrite(1)] on
    [X[i][I] += (A[i] + B[i]) * (C[I] + D[I])] extracts the two factors in
    one round, one per dependency [(i,)] and [(I,)]; both labels are
    ['I'] once upper-cased, so both temporaries are named [I_0_1_0]: the
    dictionary of declarations keeps one of the two, and the statement
    multiplies [I_0_1_0[i]] by [I_0_1_0[I]]. *)
Theorem hoisted_names_collide_up_to_case :
  _hoisted_sym ["i"] 0 1 0 = _hoisted_sym ["I"] 0 1 0 /\
  exists st',
    rewrite gencode rank_symbols_dep no_fusion 20 1 state_iI = Some (Ok st') /\
    rhs_of 0 st' = Some (Prod (sym_ "I_0_1_0" ["i"]) (sym_ "I_0_1_0" ["I"])) /\
    List.map fst (decls st') = [Str "I_0_1_0"] /\
    List.map (fun e => fst (fst e)) (expr_graph st')
      = [sym_ "I_0_1_0" ["i"]; sym_ "I_0_1_0" ["I"]].
Proof.
  split; [reflexivity|].
  eexists. split; [vm_compute; reflexivity|].
  repeat split; vm_compute; reflexivity.
Qed.

(* ------------------------------------------------------------------ *)
(** ** Factorization (C6) *)

Section Factorization.
Variable repr : expr -> string.
Variable should_factorize : expr -> bool.

(** The term of a product [o * f] of an operand symbol and a factor
    symbol. *)
Lemma factorize_symbol_product so ro oo sf rf xf :
  should_factorize (Symbol so ro oo) = true ->
  should_factorize (Symbol sf rf xf) = false ->
  _factorize repr should_factorize (Prod (Symbol so ro oo) (Symbol sf rf xf)) =
  Ok (Prod (Symbol so ro oo) (Symbol sf rf xf),
      mkTerm [Symbol so ro oo] [Symbol sf rf xf] (Some OpProd)).
Proof.
  intros Ho Hf. simpl. unfold process. simpl. rewrite Ho, Hf. reflexivity.
Qed.

Lemma generate_ast_one_one o f c :
  generate_ast repr (mkTerm [o] [f] c) = Ok (Some (Prod o f)).
Proof. reflexivity. Qed.

(** [n] copies of a term in [_simplify_sum] leave one entry. *)
Lemma simplify_accumulates t (g : option expr) :
  generate_ast repr t = Ok g ->
  forall n acc0,
    foldM (unique_step repr) (repeat t n) [(repr_opt repr g, acc0)]
    = Ok [(repr_opt repr g, acc0 ++ repeat t n)].
Proof.
  intros Hg n. induction n as [|n IH]; intros acc0; simpl.
  - rewrite app_nil_r. reflexivity.
  - unfold unique_step at 1. rewrite Hg. simpl. rewrite String.eqb_refl.
    rewrite IH. rewrite <- app_assoc. reflexivity.
Qed.

Lemma simplify_repeat t g n :
  generate_ast repr t = Ok g ->
  _simplify_sum repr (repeat t (S (S n))) =
  Ok [mkTerm (operands t ++ [Symbol (Num (Z.of_nat (S (S n)))) [] []])
             (factors t) (op t)].
Proof.
  intros Hg. unfold _simplify_sum.
  change (repeat t (S (S n))) with (t :: repeat t (S n)).
  cbn [foldM]. unfold unique_step at 1. rewrite Hg. cbn [bind alist_get alist_set].
  rewrite (simplify_accumulates t Hg (S n) [t]).
  cbn [bind flat_map]. unfold fold_occurrences. cbn [snd app].
  replace (List.length (t :: repeat t (S n))) with (S (S n))
    by (simpl; rewrite repeat_length; reflexivity).
  reflexivity.
Qed.

Lemma sum_chain_leaf (rec : expr -> result (expr * Term)) t tm :
  (forall a b, t <> Sum a b) ->
  rec t = Ok (t, tm) ->
  sum_chain rec t = Ok [tm].
Proof.
  intros Hns Ht.
  destruct t; cbn [sum_chain]; try (rewrite Ht; reflexivity).
  exfalso. eapply Hns. reflexivity.
Qed.

Lemma sum_chain_nsum t tm n :
  (forall a b, t <> Sum a b) ->
  _factorize repr should_factorize t = Ok (t, tm) ->
  sum_chain (_factorize repr should_factorize) (nsum (S n) t)
    = Ok (repeat tm (S n)).
Proof.
  intros Hns Ht. induction n as [|n IH].
  - apply sum_chain_leaf; assumption.
  - change (nsum (S (S n)) t) with (Sum t (nsum (S n) t)).
    cbn [sum_chain]. rewrite IH.
    rewrite (sum_chain_leaf _ Hns Ht). reflexivity.
Qed.
Lemma String_eqb_neq (a b : string) : a <> b -> String.eqb a b = false.
Proof. intros H. apply String.eqb_neq. exact H. Qed.

(** The sum of two terms with the same printed operand and different
    printed forms. *)
Lemma factorize_terms_pair cls o o' f1 f2 c1 c2 :
  repr o' = repr o ->
  repr (Prod o f1) <> repr (Prod o' f2) ->
  factorize_terms repr cls [mkTerm [o] [f1] c1; mkTerm [o'] [f2] c2] =
  let factor_sum :=
    if String.ltb (repr f2) (repr f1) then mk_binop cls f2 f1
    else mk_binop cls f1 f2 in
  Ok (Prod o factor_sum, mkTerm [Prod o factor_sum] [] None).
Proof.
  intros Ho Hne.
  unfold factorize_terms, _simplify_sum. cbn [foldM].
  unfold unique_step. rewrite !generate_ast_one_one.
  cbn [bind repr_opt alist_get alist_set].
  rewrite (String_eqb_neq (not_eq_sym Hne)).
  cbn [bind flat_map fold_occurrences snd List.length Nat.ltb Nat.leb app].
  unfold group_terms. cbn [foldM]. unfold group_step.
  unfold operands_ast, factors_ast. cbn [operands factors op sorted_by_repr
    fold_right insert_by_repr ast_make_expr bind is_nil opt_list repr_opt
    alist_get alist_set].
  rewrite Ho, String.eqb_refl.
  cbn [bind mapM snd generate_ast List.length Nat.eqb operands factors op app].
  unfold generate_ast. cbn [factors operands List.length Nat.eqb app].
  unfold operands_ast, factors_ast.
  cbn [operands factors op sorted_by_repr fold_right insert_by_repr].
  destruct (String.ltb (repr f2) (repr f1)); destruct cls; reflexivity.
Qed.

End Factorization.

Lemma factorize_terms_repeat repr t0 o f c n :
  t0 = mkTerm [o] [f] c ->
  factorize_terms repr OpSum (repeat t0 (S (S n))) =
  let count := Symbol (Num (Z.of_nat (S (S n)))) [] [] in
  let operand :=
    if String.ltb (repr count) (repr o) then Prod count o else Prod o count in
  Ok (Prod operand f, mkTerm [Prod operand f] [] None).
Proof.
  intros ->. unfold factorize_terms.
  rewrite (@simplify_repeat repr _ (Some (Prod o f)) n) by reflexivity.
  cbn [bind operands factors op app].
  unfold group_terms. cbn [foldM]. unfold group_step.
  unfold operands_ast, factors_ast.
  cbn [operands factors op sorted_by_repr fold_right insert_by_repr].
  destruct (String.ltb (repr (Symbol (Num (Z.of_nat (S (S n)))) [] [])) (repr o));
    reflexivity.
Qed.

(** The shape of the docstring. For every printer and every
    factorization predicate, with [o] and
    [o'] two operand symbols of the same printed form and [f1], [f2] two
    factor symbols: [ExpressionFactorizer.factorize] turns
    [o*f1 + o'*f2], two terms of different printed form, into the single
    product [o*(f1 + f2)], the factors in the order of their printed
    forms; and it turns the sum of [n >= 2] copies of [o*f1] into one
    product whose operands are [o] and the constant [n], in the order of
    their printed forms, and whose factor is [f1]. *)
Theorem factorize_groups_common_operands :
  forall repr should_factorize so ro oo so' ro' oo' s1 r1 x1 s2 r2 x2,
    let o := Symbol so ro oo in
    let o' := Symbol so' ro' oo' in
    let f1 := Symbol s1 r1 x1 in
    let f2 := Symbol s2 r2 x2 in
    should_factorize o = true -> should_factorize o' = true ->
    should_factorize f1 = false -> should_factorize f2 = false ->
    repr o' = repr o ->
    (repr (Prod o f1) <> repr (Prod o' f2) ->
     _factorize repr should_factorize (Sum (Prod o f1) (Prod o' f2)) =
     let factor_sum :=
       if String.ltb (repr f2) (repr f1) then Sum f2 f1 else Sum f1 f2 in
     Ok (Prod o factor_sum, mkTerm [Prod o factor_sum] [] None)) /\
    (forall n,
        _factorize repr should_factorize (nsum (S (S n)) (Prod o f1)) =
        let count := Symbol (Num (Z.of_nat (S (S n)))) [] [] in
        let operand :=
          if String.ltb (repr count) (repr o) then Prod count o else Prod o count in
        Ok (Prod operand f1, mkTerm [Prod operand f1] [] None)).
Proof.
  intros repr sf so ro oo so' ro' oo' s1 r1 x1 s2 r2 x2 o o' f1 f2
         Ho Ho' Hf1 Hf2 Hrepr.
  subst o o' f1 f2.
  split.
  - intros Hne. cbn [_factorize].
    cbn [sum_chain].
    rewrite (factorize_symbol_product repr sf _ _ _ _ _ _ Ho Hf1).
    rewrite (factorize_symbol_product repr sf _ _ _ _ _ _ Ho' Hf2).
    cbn [bind app].
    apply (factorize_terms_pair repr OpSum _ _ _ _ _ _ Hrepr Hne).
  - intros n.
    set (o := Symbol so ro oo) in *. set (f1 := Symbol s1 r1 x1) in *.
    change (nsum (S (S n)) (Prod o f1)) with (Sum (Prod o f1) (nsum (S n) (Prod o f1))).
    cbn [_factorize].
    assert (Hns : forall a b, Prod o f1 <> Sum a b) by (intros a b; discriminate).
    pose proof (factorize_symbol_product repr sf _ _ _ _ _ _ Ho Hf1) as Ht.
    rewrite (sum_chain_leaf _ Hns Ht).
    rewrite (sum_chain_nsum repr sf n Hns Ht).
    cbn [bind].
    change ([mkTerm [o] [f1] (Some OpProd)] ++ repeat (mkTerm [o] [f1] (Some OpProd)) (S n))
      with (repeat (mkTerm [o] [f1] (Some OpProd)) (S (S n))).
    apply (factorize_terms_repeat repr (o:=o) (f:=f1) (c:=Some OpProd) n eq_refl).
Qed.

(** The example of the specification: [A[i]*B[j] + A[i]*C[j]], factorized
    along [i], is [A[i]*(B[j] + C[j])]; and [A[i]*B[j]] three times is
    [(3*A[i])*B[j]]. *)
Lemma factorize_groups_common_operands_witness :
  _factorize gencode along_i
    (Sum (Prod (sym_ "A" ["i"]) (sym_ "B" ["j"]))
         (Prod (sym_ "A" ["i"]) (sym_ "C" ["j"]))) =
  Ok (Prod (sym_ "A" ["i"]) (Sum (sym_ "B" ["j"]) (sym_ "C" ["j"])),
      mkTerm [Prod (sym_ "A" ["i"]) (Sum (sym_ "B" ["j"]) (sym_ "C" ["j"]))]
             [] None) /\
  _factorize gencode along_i (nsum 3 (Prod (sym_ "A" ["i"]) (sym_ "B" ["j"]))) =
  Ok (Prod (Prod (Symbol (Num 3) [] []) (sym_ "A" ["i"])) (sym_ "B" ["j"]),
      mkTerm [Prod (Prod (Symbol (Num 3) [] []) (sym_ "A" ["i"])) (sym_ "B" ["j"])]
             [] None).
Proof.
  destruct (@factorize_groups_common_operands gencode along_i
              (Str "A") [Str "i"] [] (Str "A") [Str "i"] []
              (Str "B") [Str "j"] [] (Str "C") [Str "j"] [])
    as [Hpair Hfold]; try reflexivity.
  split.
  - apply Hpair. vm_compute. discriminate.
  - apply (Hfold 1).
Defined.

(** C6, at two concrete sums of products, through the 'standard'
    strategy, which selects the dimension [i] on both. On
    [A[i] * (b * c) + A[i] * (d * e)] the [Prod] case of [_factorize]
    takes only the operands of the term of a parenthesised product
    ([term.operands |= self._factorize(n, p).operands]), so the factors
    [b], [c], [d], [e] are lost; the two terms then print alike and
    [_simplify_sum] folds them: the statement becomes [2 * A[i]], not
    [A[i] * (b * c + d * e)]. On [A[i] + A[i] * b] the term of the first
    addend has no factor, the grouping unites the factor sets, and the
    statement becomes [A[i] * b]: the addend [A[i]] is lost. With every
    variable equal to 2 the values go from 16 to 4 and from 6 to 4. *)
Theorem factorize_loses_factors :
  (exists ew st',
      Rewriter_factorize gencode "standard"
        (rewriter_of (state_ij rhs_nested_factors) info_ij)
        (state_ij rhs_nested_factors) = Ok (ew, st') /\
      rhs_of 0 st' = Some (Prod (Symbol (Num 2) [] []) (sym_ "A" ["i"])) /\
      Qeq (eval all_twos no_calls rhs_nested_factors) 16 /\
      Qeq (eval all_twos no_calls
             (Prod (Symbol (Num 2) [] []) (sym_ "A" ["i"]))) 4) /\
  (exists ew st',
      Rewriter_factorize gencode "standard"
        (rewriter_of (state_ij rhs_bare_operand) info_ij)
        (state_ij rhs_bare_operand) = Ok (ew, st') /\
      rhs_of 0 st' = Some (Prod (sym_ "A" ["i"]) (sym_ "b" [])) /\
      Qeq (eval all_twos no_calls rhs_bare_operand) 6 /\
      Qeq (eval all_twos no_calls (Prod (sym_ "A" ["i"]) (sym_ "b" []))) 4).
Proof.
  split.
  - eexists. eexists. split; [vm_compute; reflexivity|].
    repeat split; vm_compute; reflexivity.
  - eexists. eexists. split; [vm_compute; reflexivity|].
    repeat split; vm_compute; reflexivity.
Qed.

(* ------------------------------------------------------------------ *)
(** ** Placement of the hoisted code (C3) *)

Lemma find_loop_in_id l n : forall r,
  find_loop_in l n = Some r -> loop_id r = Some l.
Proof.
  induction n as [lid dim size incr pragma body IHbody| | | |] using node_rect';
    intros r H; simpl in H; try discriminate.
  destruct (Nat.eqb l lid) eqn:E.
  - inversion H; subst. apply Nat.eqb_eq in E. subst. reflexivity.
  - induction IHbody as [|x xs Hx Hxs IH]; [discriminate|].
    destruct (find_loop_in l x) eqn:Fx.
    + inversion H; subst. apply Hx. reflexivity.
    + apply IH. exact H.
Qed.

Lemma find_loop_id l ns : forall r,
  find_loop l ns = Some r -> loop_id r = Some l.
Proof.
  induction ns as [|x xs IH]; intros r H; simpl in H; [discriminate|].
  destruct (find_loop_in l x) eqn:Fx.
  - inversion H; subst. eapply find_loop_in_id. exact Fx.
  - apply IH. exact H.
Qed.

Lemma alist_set_get_other {V} k k' (v : V) l :
  String.eqb k k' = false ->
  alist_get String.eqb k (alist_set String.eqb k' v l) = alist_get String.eqb k l.
Proof.
  intros Hne. induction l as [|[k0 v0] tl IH]; simpl.
  - rewrite Hne. reflexivity.
  - destruct (String.eqb k' k0) eqn:E0; simpl.
    + destruct (String.eqb k k0) eqn:E1; [|reflexivity].
      apply String.eqb_eq in E0, E1. subst.
      rewrite String.eqb_refl in Hne. discriminate.
    + destruct (String.eqb k k0); [reflexivity | apply IH].
Qed.

Lemma alist_set_get_same {V} k (v : V) l :
  alist_get String.eqb k (alist_set String.eqb k v l) = Some v.
Proof.
  induction l as [|[k0 v0] tl IH]; simpl.
  - rewrite String.eqb_refl. reflexivity.
  - destruct (String.eqb k k0) eqn:E0; simpl; rewrite E0; [reflexivity | apply IH].
Qed.

Lemma alist_update_get {V} k (v : V) pairs : forall l0,
  alist_get String.eqb k (alist_update String.eqb l0 pairs) = Some v ->
  In (k, v) pairs \/ alist_get String.eqb k l0 = Some v.
Proof.
  unfold alist_update.
  induction pairs as [|[k1 v1] tl IH]; intros l0 H; simpl in *.
  - right. exact H.
  - destruct (IH _ H) as [Hin | Hget].
    + left. right. exact Hin.
    + destruct (String.eqb k k1) eqn:E.
      * apply String.eqb_eq in E. subst k1.
        rewrite alist_set_get_same in Hget. inversion Hget; subst.
        left. left. reflexivity.
      * rewrite alist_set_get_other in Hget by exact E. right. exact Hget.
Qed.

(** A dimension of [loops_from_dims] names a loop of the expression that
    is in the AST and runs over that dimension. *)
Lemma loops_from_dims_sound info st d l :
  alist_get String.eqb d (loops_from_dims info st) = Some l ->
  exists n, find_loop l (header st) = Some n /\ loop_dim n = d /\
            In l (me_loops info).
Proof.
  intros H. unfold loops_from_dims in H.
  apply alist_update_get in H. destruct H as [H | H]; [|discriminate].
  apply in_flat_map in H. destruct H as [n [Hn Hp]].
  unfold me_loop_objs in Hn. apply in_flat_map in Hn.
  destruct Hn as [l' [Hl' Hf]].
  destruct (find_loop l' (header st)) as [n'|] eqn:F; [|contradiction].
  destruct Hf as [Hf | []]. subst n'.
  pose proof (find_loop_id _ _ F) as Hid. rewrite Hid in Hp.
  destruct Hp as [Hp | []]. inversion Hp; subst.
  exists n. repeat split; assumption.
Qed.

Lemma alist_mem_get {V} k (l : list (string * V)) :
  alist_mem String.eqb k l = true -> exists v, alist_get String.eqb k l = Some v.
Proof.
  unfold alist_mem. destruct (alist_get String.eqb k l) as [v|]; intros H.
  - exists v. reflexivity.
  - discriminate.
Qed.

Lemma mapM_dims_loop lfd (ds : list string) :
  Forall (fun k => alist_mem String.eqb k lfd = true) ds ->
  exists wrap, mapM (dims_loop lfd) ds = Ok wrap /\
               Forall2 (fun d w => alist_get String.eqb d lfd = Some w) ds wrap.
Proof.
  induction 1 as [|k ks Hk Hks [wrap [E F]]].
  - exists []. split; [reflexivity | constructor].
  - destruct (alist_mem_get _ _ Hk) as [l Hl].
    exists (l :: wrap). split.
    + simpl. unfold dims_loop at 1. rewrite Hl. simpl. rewrite E. reflexivity.
    + constructor; assumption.
Qed.

(** C3, at a concrete nest. In [for i: { t = c; for j: stmt }] the
    outermost loop is not perfect and the expression has two dimensions.
    For the dependency [(i,)] step 0 of [licm] chooses the body of the
    loop over [i], ahead of the loop over [j]: on
    [(A[i] + B[i]) * C[j]] the scalar [I_0_1_0] is declared and assigned
    there. For the dependency [(j,)] the same branch asks
    [od_find_next] for the loop that follows the loop over [j]; there is
    none, [place.children.index(next_loop)] fails, and [rewrite(1)] on
    [(A[i] + B[i]) * (C[j] + D[j])] ends in a [ValueError] instead of a
    scalar at the top of the loop over [j]. *)
Theorem licm_raises_on_innermost_dependency :
  placement info_ij (state_imperfect_outer rhs_factor_per_dimension) ["i"]
    = Ok (BodyOf 1, [], AnchorLoop 2) /\
  placement info_ij (state_imperfect_outer rhs_factor_per_dimension) ["j"]
    = Ok (BodyOf 2, [], AnchorNone) /\
  rewrite gencode rank_symbols_dep no_fusion 20 1
          (state_imperfect_outer rhs_factor_per_dimension)
    = Some (Raise ValueError) /\
  exists st',
    rewrite gencode rank_symbols_dep no_fusion 20 1
            (state_imperfect_outer
               (Prod (Par (Sum (sym_ "A" ["i"]) (sym_ "B" ["i"])))
                     (sym_ "C" ["j"])))
      = Some (Ok st') /\
    rhs_of 0 st' = Some (Prod (sym_ "I_0_1_0" []) (sym_ "C" ["j"])) /\
    header st' =
      [For 1 "i" (Num 3) 1 ""
         [Write Assign (sym_ "t" []) (sym_ "c" []);
          DeclNode (mkDecl "double" (sym_ "I_0_1_0" []) None LOCAL false);
          Write Assign (sym_ "I_0_1_0" [])
                (Par (Sum (sym_ "A" ["i"]) (sym_ "B" ["i"])));
          FlatBlock newline;
          For 2 "j" (Num 4) 1 "" [Stmt 0]]].
Proof.
  split; [reflexivity|]. split; [reflexivity|].
  split; [vm_compute; reflexivity|].
  eexists. split; [vm_compute; reflexivity|].
  split; vm_compute; reflexivity.
Qed.

(** Scenario 3 of the specification, run: [(A[i] + B[i]) * C[j]] in the
    perfect nest over [i], [j]. The factor that depends on [i] only becomes
    the vector [I_0_1_0], declared with the extent of the loop over [i]
    and computed in a new loop over [i], both in the header ahead of the
    nest. *)
Example licm_scenario_3 :
  exists h' st',
    licm gencode rank_symbols_dep false false 3
         (fst (Hoister_init 0 info_ij
                 (state_ij (Prod (Par (Sum (sym_ "A" ["i"]) (sym_ "B" ["i"])))
                                 (sym_ "C" ["j"])))))
         (snd (Hoister_init 0 info_ij
                 (state_ij (Prod (Par (Sum (sym_ "A" ["i"]) (sym_ "B" ["i"])))
                                 (sym_ "C" ["j"])))))
      = Some (Ok (h', st')) /\
    rhs_of 0 st' = Some (Prod (sym_ "I_0_1_0" ["i"]) (sym_ "C" ["j"])) /\
    header st' =
      [DeclNode (mkDecl "double" (Symbol (Str "I_0_1_0") [Num 3] []) None LOCAL false);
       For 4 "i" (Num 3) 1 ""
           [Write Assign (sym_ "I_0_1_0" ["i"])
                  (Par (Sum (sym_ "A" ["i"]) (sym_ "B" ["i"])))];
       FlatBlock newline;
       For 1 "i" (Num 3) 1 "" [For 2 "j" (Num 4) 1 "" [Stmt 0]]].
Proof.
  eexists. eexists. split; [vm_compute; reflexivity|].
  split; vm_compute; reflexivity.
Qed.

(* ------------------------------------------------------------------ *)
(** ** Rounds of the hoister (C4) *)

Lemma cross_extract (symbols : expr -> dep) :
  symbols (sym_ "A" ["i"]) = ["i"] ->
  symbols (sym_ "B" ["j"]) = ["j"] ->
  _extract_exprs symbols ["i"; "j"] true false rhs_cross []
                 (mkExtraction [] false)
  = Ok (([], HOISTED), mkExtraction [(["i"; "j"], [[]])] true).
Proof.
  intros HA HB. unfold rhs_cross, sym_ in *. cbn [List.map] in *.
  cbn [_extract_exprs bind]. rewrite HA, HB. reflexivity.
Qed.

Lemma cross_process hid hcnt hsym ds ho eg hh eh ex lg inv_dep :
  hsym (sym_ "A" ["i"]) = ["i"] ->
  hsym (sym_ "B" ["j"]) = ["j"] ->
  exists h' st' inv_dep',
    process_groups gencode [(["i"; "j"], [[]])] []
      (mkHoister 0 info_ij hid hcnt hsym)
      (mkState nest_ij [(0, mkStmt Incr (sym_ "X" ["i"; "j"]) rhs_cross)]
               ds ho eg hh eh ex lg)
      inv_dep
    = Ok (h', st', inv_dep') /\
    cross_invariant h' st'.
Proof.
  intros HA HB.
  eexists. eexists. eexists. split.
  - vm_compute. reflexivity.
  - unfold cross_invariant. repeat split; try (vm_compute; reflexivity).
    + vm_compute. exact HA.
    + vm_compute. exact HB.
Qed.

Lemma cross_rounds_diverge fuel : forall h st inv_dep,
  cross_invariant h st ->
  licm_rounds gencode true false fuel h st inv_dep = None.
Proof.
  induction fuel as [|fuel IH]; intros h st inv_dep Hinv; [reflexivity|].
  destruct Hinv as [Hs [Hi [Hh [Hst [HA HB]]]]].
  destruct h as [hstmt hinfo hid hcnt hsym].
  destruct st as [hdr ss ds ho eg hh eh ex lg].
  simpl in Hs, Hi, Hh, Hst, HA, HB. subst hstmt hinfo hdr ss.
  cbn [licm_rounds hs_stmt hs_info hs_symbols hs_counter hs_expr_id].
  change (get_stmt 0 (mkState nest_ij
            [(0, mkStmt Incr (sym_ "X" ["i"; "j"]) rhs_cross)]
            ds ho eg hh eh ex lg))
    with (Some (mkStmt Incr (sym_ "X" ["i"; "j"]) rhs_cross)).
  change (me_dims info_ij (mkState nest_ij
            [(0, mkStmt Incr (sym_ "X" ["i"; "j"]) rhs_cross)]
            ds ho eg hh eh ex lg))
    with ["i"; "j"].
  cbn [st_rhs]. rewrite (cross_extract hsym HA HB).
  cbn [extracted negb dep_subexprs].
  destruct (cross_process hid (S hcnt) hsym ds ho eg hh eh ex lg inv_dep HA HB)
    as [h' [st' [inv' [E Hinv']]]].
  rewrite E. apply IH. exact Hinv'.
Qed.

(** C4, at a concrete call. [licm(nrank_tmps=True)] on
    [X[i][j] += A[i] * B[j]] in the perfect nest over [i], [j] never leaves
    its loop: every round extracts the whole right-hand side for the
    dependency [(i, j)], declares one more temporary, and finds nothing to
    replace, since [ast_replace] examines the nodes below the root and the
    extracted node is the root; the next round starts from the same
    expression. No number of rounds is enough, through
    [ExpressionHoister.licm] and through [ExpressionRewriter.licm]. *)
Theorem licm_nrank_tmps_never_returns :
  forall fuel,
    licm gencode rank_symbols_dep true false fuel
         (fst (Hoister_init 0 info_ij (state_ij rhs_cross)))
         (snd (Hoister_init 0 info_ij (state_ij rhs_cross))) = None /\
    Rewriter_licm gencode rank_symbols_dep fuel true false
         (fst (Rewriter_init 0 info_ij (state_ij rhs_cross)))
         (snd (Rewriter_init 0 info_ij (state_ij rhs_cross))) = None.
Proof.
  intros fuel.
  assert (H : forall h st,
             hs_stmt h = 0 -> hs_info h = info_ij ->
             header st = nest_ij ->
             stmts st = [(0, mkStmt Incr (sym_ "X" ["i"; "j"]) rhs_cross)] ->
             licm gencode rank_symbols_dep true false fuel h st = None).
  { intros h st Hs Hi Hh Hst. unfold licm.
    assert (C : _check_loops (hs_info h) st = true).
    { unfold _check_loops. rewrite Hi, Hh. reflexivity. }
    rewrite C. cbn [negb].
    rewrite cross_rounds_diverge; [reflexivity|].
    repeat split; try assumption; rewrite Hh, Hst; reflexivity. }
  split.
  - apply H; reflexivity.
  - unfold Rewriter_licm. rewrite H; reflexivity.
Qed.

(* ------------------------------------------------------------------ *)
(** ** Unrolling (C7) *)

Unset Implicit Arguments.

Lemma find_loop_in_For l l' d s i p body :
  find_loop_in l (For l' d s i p body) =
  if Nat.eqb l l' then Some (For l' d s i p body) else find_loop l body.
Proof.
  simpl. destruct (Nat.eqb l l'); [reflexivity|].
  induction body as [|x xs IH]; [reflexivity|].
  simpl. rewrite IH. reflexivity.
Qed.

Lemma find_loop_app l xs ys :
  find_loop l (xs ++ ys) =
  match find_loop l xs with
  | Some r => Some r
  | None => find_loop l ys
  end.
Proof.
  induction xs as [|x xs IH]; simpl; [reflexivity|].
  destruct (find_loop_in l x); [reflexivity | apply IH].
Qed.

Lemma find_loop_in_not_For l x : is_For x = false -> find_loop_in l x = None.
Proof. destruct x; simpl; intros H; (discriminate || reflexivity). Qed.

Lemma find_loop_no_For l xs :
  forallb (fun x => negb (is_For x)) xs = true -> find_loop l xs = None.
Proof.
  induction xs as [|x xs IH]; simpl; [reflexivity|].
  intros H. apply andb_true_iff in H. destruct H as [Hx Hxs].
  rewrite find_loop_in_not_For; [apply IH; exact Hxs|].
  destruct (is_For x); [discriminate | reflexivity].
Qed.

(** A transformation of the nodes of a list that changes what [find_loop]
    finds only by [k]. *)
Lemma find_loop_map (g : node -> node) (k : node -> node) l xs :
  Forall (fun x => find_loop_in l (g x) = option_map k (find_loop_in l x)) xs ->
  find_loop l (List.map g xs) = option_map k (find_loop l xs).
Proof.
  induction 1 as [|x xs Hx Hxs IH]; simpl; [reflexivity|].
  rewrite Hx. destruct (find_loop_in l x); simpl; [reflexivity | exact IH].
Qed.

(** Appending a node that is not a loop to the body of a loop leaves the
    iteration space of every loop. *)
Lemma itspace_map_body_in p x l n :
  is_For x = false ->
  option_map itspace_of (find_loop_in l (map_body_in p (fun c => c ++ [x]) n)) =
  option_map itspace_of (find_loop_in l n).
Proof.
  intros Hx. revert l.
  induction n as [l' d s i pr body IHbody| | | |] using node_rect';
    intros l; try reflexivity.
  cbn [map_body_in]. destruct (Nat.eqb p l') eqn:Ep.
  - rewrite !find_loop_in_For. destruct (Nat.eqb l l'); [reflexivity|].
    rewrite find_loop_app. destruct (find_loop l body); [reflexivity|].
    simpl. rewrite (find_loop_in_not_For l x Hx). reflexivity.
  - rewrite !find_loop_in_For. destruct (Nat.eqb l l'); [reflexivity|].
    clear Ep. induction IHbody as [|y ys Hy Hys IH]; [reflexivity|].
    simpl. specialize (Hy l).
    destruct (find_loop_in l (map_body_in p (fun c => c ++ [x]) y)) as [r|] eqn:E1;
      destruct (find_loop_in l y) as [r'|] eqn:E2; simpl in Hy; try discriminate.
    + exact Hy.
    + exact IH.
Qed.

Lemma itspace_map_body p x l hdr :
  is_For x = false ->
  option_map itspace_of (find_loop l (map_body p (fun c => c ++ [x]) hdr)) =
  option_map itspace_of (find_loop l hdr).
Proof.
  intros Hx. unfold map_body.
  induction hdr as [|y ys IH]; [reflexivity|].
  simpl. pose proof (itspace_map_body_in p x l y Hx) as Hy.
  destruct (find_loop_in l (map_body_in p (fun c => c ++ [x]) y)) as [r|] eqn:E1;
    destruct (find_loop_in l y) as [r'|] eqn:E2; simpl in Hy; try discriminate.
  - exact Hy.
  - exact IH.
Qed.

(** The body of the loop whose body is changed. *)
Lemma body_map_body_in p f n :
  option_map loop_body (find_loop_in p (map_body_in p f n)) =
  option_map (fun r => f (loop_body r)) (find_loop_in p n).
Proof.
  induction n as [l' d s i pr body IHbody| | | |] using node_rect';
    try reflexivity.
  cbn [map_body_in]. destruct (Nat.eqb p l') eqn:Ep.
  - rewrite !find_loop_in_For, Ep. reflexivity.
  - rewrite !find_loop_in_For, Ep.
    induction IHbody as [|y ys Hy Hys IH]; [reflexivity|].
    simpl.
    destruct (find_loop_in p (map_body_in p f y)) as [r|] eqn:E1;
      destruct (find_loop_in p y) as [r'|] eqn:E2; simpl in Hy; try discriminate.
    + exact Hy.
    + exact IH.
Qed.

Lemma body_map_body p f hdr :
  option_map loop_body (find_loop p (map_body p f hdr)) =
  option_map (fun r => f (loop_body r)) (find_loop p hdr).
Proof.
  unfold map_body. induction hdr as [|y ys IH]; [reflexivity|].
  simpl. pose proof (body_map_body_in p f y) as Hy.
  destruct (find_loop_in p (map_body_in p f y)) as [r|] eqn:E1;
    destruct (find_loop_in p y) as [r'|] eqn:E2; simpl in Hy; try discriminate.
  - exact Hy.
  - exact IH.
Qed.



Lemma body_bump_in l0 k p n :
  body_up_to_bump l0 k (find_loop_in p (map_loop_in l0 (bump_loop k) n))
                  (find_loop_in p n).
Proof.
  induction n as [l' d s i pr body IHbody| | | |] using node_rect';
    try exact I.
  cbn [map_loop_in]. destruct (Nat.eqb l0 l') eqn:E0.
  - cbn [bump_loop]. rewrite !find_loop_in_For. destruct (Nat.eqb p l').
    + left. reflexivity.
    + destruct (find_loop p body); simpl; auto.
  - rewrite !find_loop_in_For. destruct (Nat.eqb p l').
    + right. reflexivity.
    + induction IHbody as [|y ys Hy Hys IH]; [exact I|].
      simpl.
      destruct (find_loop_in p (map_loop_in l0 (bump_loop k) y)) as [r|] eqn:E1;
        destruct (find_loop_in p y) as [r'|] eqn:E2; simpl in Hy;
        try contradiction.
      * exact Hy.
      * exact IH.
Qed.

Lemma body_bump l0 k p hdr :
  body_up_to_bump l0 k
    (find_loop p (List.map (map_loop_in l0 (bump_loop k)) hdr)) (find_loop p hdr).
Proof.
  induction hdr as [|y ys IH]; [exact I|].
  simpl. pose proof (body_bump_in l0 k p y) as Hy.
  destruct (find_loop_in p (map_loop_in l0 (bump_loop k) y)) as [r|] eqn:E1;
    destruct (find_loop_in p y) as [r'|] eqn:E2; simpl in Hy;
    try contradiction.
  - exact Hy.
  - exact IH.
Qed.

Lemma max_sid_app ss k x :
  max_sid (ss ++ [(k, x)]) = Nat.max (max_sid ss) k.
Proof.
  unfold max_sid. induction ss as [|[k0 x0] tl IH]; simpl.
  - lia.
  - rewrite IH. lia.
Qed.

Lemma new_sid_max st : new_sid st = S (max_sid (stmts st)).
Proof. reflexivity. Qed.

Lemma alist_get_app_some {V} k (v : V) l l' :
  alist_get Nat.eqb k l = Some v -> alist_get Nat.eqb k (l ++ l') = Some v.
Proof.
  induction l as [|[k0 v0] tl IH]; simpl; [discriminate|].
  destruct (Nat.eqb k k0); [auto | exact IH].
Qed.

Lemma alist_set_get_same_nat {V} k (v : V) l :
  alist_get Nat.eqb k (alist_set Nat.eqb k v l) = Some v.
Proof.
  induction l as [|[k0 v0] tl IH]; simpl.
  - rewrite Nat.eqb_refl. reflexivity.
  - destruct (Nat.eqb k k0) eqn:E0; simpl; rewrite E0; [reflexivity | apply IH].
Qed.

Lemma alist_set_get_other_nat {V} k k' (v : V) l :
  k <> k' ->
  alist_get Nat.eqb k (alist_set Nat.eqb k' v l) = alist_get Nat.eqb k l.
Proof.
  intros Hne. apply Nat.eqb_neq in Hne.
  induction l as [|[k0 v0] tl IH]; simpl.
  - rewrite Hne. reflexivity.
  - destruct (Nat.eqb k' k0) eqn:E0; simpl.
    + destruct (Nat.eqb k k0) eqn:E1; [|reflexivity].
      apply Nat.eqb_eq in E0, E1. subst.
      rewrite Nat.eqb_refl in Hne. discriminate.
    + destruct (Nat.eqb k k0); [reflexivity | apply IH].
Qed.

Lemma place_children_append p x st :
  place_children p (set_place_children p (fun c => c ++ [x]) st) =
  option_map (fun c => c ++ [x]) (place_children p st).
Proof.
  destruct p as [|l]; [reflexivity|].
  unfold place_children, set_place_children. cbn [header set_header].
  pose proof (body_map_body l (fun c => c ++ [x]) (header st)) as H.
  destruct (find_loop l (map_body l (fun c => c ++ [x]) (header st)));
    destruct (find_loop l (header st)); simpl in H; try discriminate.
  - inversion H as [H1]. simpl. rewrite H1. reflexivity.
  - reflexivity.
Qed.

Lemma loop_itspace_append p x l st :
  is_For x = false ->
  loop_itspace l (set_place_children p (fun c => c ++ [x]) st) = loop_itspace l st.
Proof.
  intros Hx. unfold loop_itspace. destruct p as [|p]; cbn [set_place_children header set_header].
  - rewrite find_loop_app. destruct (find_loop l (header st)); [reflexivity|].
    simpl. rewrite (find_loop_in_not_For l x Hx). reflexivity.
  - apply itspace_map_body. exact Hx.
Qed.


Lemma stmts_set_place_children p f st :
  stmts (set_place_children p f st) = stmts st.
Proof. destruct p; reflexivity. Qed.

Lemma exprs_set_place_children p f st :
  exprs (set_place_children p f st) = exprs st.
Proof. destruct p; reflexivity. Qed.

(** One clone: the effect of the body of [for i in range(uf-1)]. *)
Lemma unroll_clone_step itspace stmt info st ne i s :
  get_stmt stmt st = Some s ->
  exists st',
    unroll_clone itspace stmt info (st, ne) i
      = (st', alist_set Nat.eqb (new_sid st) info ne) /\
    stmts st' = stmts st ++ [(new_sid st, update_stmt_expr itspace (Z.of_nat i + 1) s)] /\
    place_children (me_parent info) st' =
      option_map (fun c => c ++ [Stmt (new_sid st)]) (place_children (me_parent info) st) /\
    (forall l, loop_itspace l st' = loop_itspace l st) /\
    exprs st' = exprs st /\
    get_stmt stmt st' = Some s /\
    new_sid st' = S (new_sid st).
Proof.
  intros Hs. unfold unroll_clone. rewrite Hs.
  eexists. split; [reflexivity|].
  split; [rewrite stmts_set_place_children; reflexivity|].
  split; [rewrite place_children_append; destruct (me_parent info); reflexivity|].
  split; [intros l; rewrite loop_itspace_append; reflexivity|].
  split; [rewrite exprs_set_place_children; reflexivity|].
  split.
  - unfold get_stmt in *. rewrite stmts_set_place_children.
    cbn [stmts set_stmts]. apply alist_get_app_some. exact Hs.
  - rewrite !new_sid_max. rewrite stmts_set_place_children.
    cbn [stmts set_stmts]. rewrite max_sid_app. lia.
Qed.

Lemma option_map_app_nil {A} (o : option (list A)) :
  option_map (fun c => c ++ []) o = o.
Proof. destruct o; simpl; [rewrite app_nil_r|]; reflexivity. Qed.

Lemma map_seq_S {A} (f : nat -> A) n :
  List.map f (seq 0 (S n)) = f 0 :: List.map (fun j => f (S j)) (seq 0 n).
Proof. simpl. rewrite <- seq_shift, map_map. reflexivity. Qed.

(** The loop [for i in range(uf-1)], from [i = a]. *)
Lemma unroll_clones_fold itspace stmt info s : forall n a st ne,
  get_stmt stmt st = Some s ->
  exists st' ne',
    fold_left (unroll_clone itspace stmt info) (seq a n) (st, ne) = (st', ne') /\
    stmts st' =
      stmts st ++
      List.map (fun j => (new_sid st + j,
                          update_stmt_expr itspace (Z.of_nat (a + j) + 1) s))
               (seq 0 n) /\
    place_children (me_parent info) st' =
      option_map (fun c => c ++ List.map (fun j => Stmt (new_sid st + j)) (seq 0 n))
                 (place_children (me_parent info) st) /\
    (forall l, loop_itspace l st' = loop_itspace l st) /\
    exprs st' = exprs st /\
    (forall j, j < n -> alist_get Nat.eqb (new_sid st + j) ne' = Some info) /\
    (forall k, k < new_sid st -> alist_get Nat.eqb k ne' = alist_get Nat.eqb k ne).
Proof.
  induction n as [|n IH]; intros a st ne Hs.
  - exists st, ne. simpl. rewrite app_nil_r, option_map_app_nil.
    repeat split; auto. intros j Hj. lia.
  - change (seq a (S n)) with (a :: seq (S a) n). cbn [fold_left].
    destruct (unroll_clone_step itspace stmt info st ne a s Hs)
      as [st1 [E1 [S1 [P1 [I1 [X1 [G1 N1]]]]]]].
    rewrite E1.
    destruct (IH (S a) st1 (alist_set Nat.eqb (new_sid st) info ne) G1)
      as [st' [ne' [E [S' [P' [I' [X' [K' O']]]]]]]].
    exists st', ne'. split; [exact E|].
    split.
    { rewrite S', S1, <- app_assoc. f_equal. rewrite map_seq_S.
      cbn [app]. rewrite !Nat.add_0_r. f_equal.
      apply map_ext. intros j.
      rewrite N1. f_equal; [lia|]. f_equal. lia. }
    split.
    { rewrite P', P1. destruct (place_children (me_parent info) st); [|reflexivity].
      cbn [option_map]. rewrite <- app_assoc. do 2 f_equal. rewrite map_seq_S.
      cbn [app]. rewrite !Nat.add_0_r. f_equal.
      apply map_ext. intros j.
      rewrite N1. f_equal. lia. }
    split; [intros l; rewrite I'; apply I1|].
    split; [rewrite X'; exact X1|].
    split.
    { intros j Hj. destruct j as [|j].
      - rewrite Nat.add_0_r. rewrite O' by (rewrite N1; lia).
        apply alist_set_get_same_nat.
      - replace (new_sid st + S j) with (new_sid st1 + j) by (rewrite N1; lia).
        apply K'. lia. }
    { intros k Hk. rewrite O' by (rewrite N1; lia).
      apply alist_set_get_other_nat. lia. }
Qed.



Lemma map_bump_Stmt l0 k (sids : list nat) :
  List.map (map_loop_in l0 (bump_loop k)) (List.map Stmt sids) = List.map Stmt sids.
Proof. rewrite map_map. reflexivity. Qed.

Lemma place_children_bump l0 k p st c sids :
  place_children p st = Some (c ++ List.map Stmt sids) ->
  exists c',
    place_children p (bump_incr l0 k st) = Some (c' ++ List.map Stmt sids) /\
    List.length c' = List.length c.
Proof.
  destruct p as [|p]; simpl; intros H.
  - inversion H as [H1]. exists (List.map (map_loop_in l0 (bump_loop k)) c).
    rewrite H1, map_app, map_bump_Stmt, length_map. split; reflexivity.
  - pose proof (body_bump l0 k p (header st)) as B.
    destruct (find_loop p (header st)) as [n|]; [|discriminate].
    inversion H as [H1]. unfold body_up_to_bump in B.
    destruct (find_loop p (List.map (map_loop_in l0 (bump_loop k)) (header st)))
      as [n'|]; [|contradiction].
    destruct B as [B | B]; rewrite B, H1.
    + exists c. split; reflexivity.
    + exists (List.map (map_loop_in l0 (bump_loop k)) c).
      rewrite map_app, map_bump_Stmt, length_map. split; reflexivity.
Qed.








(** One tracked expression with a perfect loop over the dimension: the
    clones. *)
Lemma unroll_expr_clones itspace uf st ne U stmt info loop l s c :
  unroll_target itspace info st = Some loop ->
  loop_id loop = Some l ->
  get_stmt stmt st = Some s ->
  place_children (me_parent info) st = Some c ->
  exists st' ne' c',
    unroll_expr itspace uf (st, ne, U) (stmt, info)
      = (st', ne', if mem_nat l U then U else U ++ [l]) /\
    stmts st' = stmts st ++ unroll_clones itspace uf (new_sid st) s /\
    place_children (me_parent info) st' =
      Some (c' ++ List.map (fun kv => Stmt (fst kv))
                           (unroll_clones itspace uf (new_sid st) s)) /\
    List.length c' = List.length c /\
    (forall kv, In kv (unroll_clones itspace uf (new_sid st) s) ->
                alist_get Nat.eqb (fst kv) ne' = Some info).
Proof.
  intros Ht Hl Hs Hc. unfold unroll_expr.
  unfold unroll_target in Ht.
  destruct (filter (fun l => String.eqb (loop_dim l) itspace) (perfect_loops info st))
    as [|loop' rest]; [discriminate|].
  simpl in Ht. inversion Ht; subst loop'.
  destruct (unroll_clones_fold itspace stmt info s (Z.to_nat (uf - 1)) 0 st ne Hs)
    as [st1 [ne1 [E [S1 [P1 [_ [_ [K1 _]]]]]]]].
  rewrite E, Hl. fold (mem_nat l U).
  assert (Hsids : List.map (fun kv => Stmt (fst kv))
                    (unroll_clones itspace uf (new_sid st) s) =
                  List.map Stmt (List.map (fun j => new_sid st + j)
                                          (seq 0 (Z.to_nat (uf - 1))))).
  { unfold unroll_clones. rewrite !map_map. reflexivity. }
  assert (Hkeys : forall kv, In kv (unroll_clones itspace uf (new_sid st) s) ->
                             alist_get Nat.eqb (fst kv) ne1 = Some info).
  { intros kv Hin. unfold unroll_clones in Hin. apply in_map_iff in Hin.
    destruct Hin as [j [Hj Hjin]]. subst kv. cbn [fst].
    apply K1. apply in_seq in Hjin. lia. }
  rewrite Hc in P1. cbn [option_map] in P1.
  replace (List.map (fun j => Stmt (new_sid st + j)) (seq 0 (Z.to_nat (uf - 1))))
    with (List.map Stmt (List.map (fun j => new_sid st + j)
                                  (seq 0 (Z.to_nat (uf - 1))))) in P1
    by (rewrite map_map; reflexivity).
  destruct (mem_nat l U).
  - exists st1, ne1, c. rewrite Hsids. repeat split; auto.
  - destruct (place_children_bump l (uf - 1) _ _ _ _ P1) as [c' [P2 L2]].
    exists (bump_incr l (uf - 1) st1), ne1, c'. rewrite Hsids.
    repeat split; auto.
Qed.


(* ------------------------------------------------------------------ *)
(** ** A second [rewrite(1)] *)

(** [_extract_exprs] reads [self.symbols] at the symbols of the expression
    only. *)
Lemma extract_exprs_ext (s1 s2 : expr -> dep) dims nr oo e : forall p acc,
  (forall x, In x (symbols_of e) -> s1 x = s2 x) ->
  _extract_exprs s1 dims nr oo e p acc = _extract_exprs s2 dims nr oo e p acc.
Proof.
  induction e as [s r o|c IH|l r IHl IHr|l r IHl IHr|l r IHl IHr|l r IHl IHr
                 |c IH|f args IHargs] using expr_rect'; intros p acc H.
  - simpl. rewrite (H _ (or_introl eq_refl)). reflexivity.
  - simpl. apply IH. exact H.
  - simpl in *. rewrite (IHl _ _ (fun x Hx => H x (in_or_app _ _ _ (or_introl Hx)))).
    destruct (_extract_exprs s2 dims nr oo l (p ++ [0]) acc) as [[dil acc1]|]; [|reflexivity].
    simpl. rewrite (IHr _ _ (fun x Hx => H x (in_or_app _ _ _ (or_intror Hx)))).
    reflexivity.
  - simpl in *. rewrite (IHl _ _ (fun x Hx => H x (in_or_app _ _ _ (or_introl Hx)))).
    destruct (_extract_exprs s2 dims nr oo l (p ++ [0]) acc) as [[dil acc1]|]; [|reflexivity].
    simpl. rewrite (IHr _ _ (fun x Hx => H x (in_or_app _ _ _ (or_intror Hx)))).
    reflexivity.
  - simpl in *. rewrite (IHl _ _ (fun x Hx => H x (in_or_app _ _ _ (or_introl Hx)))).
    destruct (_extract_exprs s2 dims nr oo l (p ++ [0]) acc) as [[dil acc1]|]; [|reflexivity].
    simpl. rewrite (IHr _ _ (fun x Hx => H x (in_or_app _ _ _ (or_intror Hx)))).
    reflexivity.
  - simpl in *. rewrite (IHl _ _ (fun x Hx => H x (in_or_app _ _ _ (or_introl Hx)))).
    destruct (_extract_exprs s2 dims nr oo l (p ++ [0]) acc) as [[dil acc1]|]; [|reflexivity].
    simpl. rewrite (IHr _ _ (fun x Hx => H x (in_or_app _ _ _ (or_intror Hx)))).
    reflexivity.
  - reflexivity.
  - cbn [_extract_exprs].
    assert (G : forall i acc0,
      (fix go (l : list expr) (i : nat) (acc : extraction) {struct l}
         : result (list (dep * info) * extraction) :=
         match l with
         | [] => Ok ([], acc)
         | n :: ns =>
             '(di, acc1) <- _extract_exprs s1 dims nr oo n (p ++ [i]) acc ;;
             '(rest, acc2) <- go ns (S i) acc1 ;;
             Ok (di :: rest, acc2)
         end) args i acc0 =
      (fix go (l : list expr) (i : nat) (acc : extraction) {struct l}
         : result (list (dep * info) * extraction) :=
         match l with
         | [] => Ok ([], acc)
         | n :: ns =>
             '(di, acc1) <- _extract_exprs s2 dims nr oo n (p ++ [i]) acc ;;
             '(rest, acc2) <- go ns (S i) acc1 ;;
             Ok (di :: rest, acc2)
         end) args i acc0).
    { simpl in H. clear acc.
      induction IHargs as [|a args Ha Hargs IH]; intros i acc0; [reflexivity|].
      rewrite (Ha _ _ (fun x Hx => H x (in_or_app _ _ _ (or_introl Hx)))).
      destruct (_extract_exprs s2 dims nr oo a (p ++ [i]) acc0) as [[di acc1]|];
        [|reflexivity].
      cbn [bind]. rewrite IH; [reflexivity|].
      intros x Hx. apply H. apply in_or_app. right. exact Hx. }
    rewrite G. reflexivity.
Qed.

Lemma max_lid_in_For l d s i p body :
  max_lid_in (For l d s i p body) = Nat.max l (max_lid body).
Proof.
  reflexivity.
Qed.

Lemma find_loop_in_le_max l n : forall r,
  find_loop_in l n = Some r -> l <= max_lid_in n.
Proof.
  induction n as [l' d s i pr body IHbody| | | |] using node_rect';
    intros r H; try discriminate.
  rewrite find_loop_in_For in H. rewrite max_lid_in_For.
  destruct (Nat.eqb l l') eqn:E.
  - apply Nat.eqb_eq in E. lia.
  - clear E. induction IHbody as [|y ys Hy Hys IH]; [discriminate|].
    change (max_lid (y :: ys)) with (Nat.max (max_lid_in y) (max_lid ys)).
    cbn [find_loop] in H.
    destruct (find_loop_in l y) as [r'|] eqn:Ey.
    + specialize (Hy _ eq_refl). lia.
    + specialize (IH H). lia.
Qed.

Lemma find_loop_le_max l hdr r : find_loop l hdr = Some r -> l <= max_lid hdr.
Proof.
  induction hdr as [|y ys IH]; [discriminate|].
  change (max_lid (y :: ys)) with (Nat.max (max_lid_in y) (max_lid ys)).
  cbn [find_loop]. destruct (find_loop_in l y) as [r'|] eqn:Ey; intros H.
  - apply find_loop_in_le_max in Ey. lia.
  - specialize (IH H). lia.
Qed.

(** A copy holds new loop objects only. *)
Lemma find_loop_in_dcopy l base n :
  l < base -> find_loop_in l (dcopy_node base n) = None.
Proof.
  intros Hl.
  induction n as [l' d s i pr body IHbody| | | |] using node_rect';
    try reflexivity.
  cbn [dcopy_node]. rewrite find_loop_in_For.
  destruct (Nat.eqb l (l' + base)) eqn:E.
  - apply Nat.eqb_eq in E. lia.
  - clear E. induction IHbody as [|y ys Hy Hys IH]; [reflexivity|].
    simpl. rewrite Hy. exact IH.
Qed.

Lemma find_loop_in_map_body_const l q ws n :
  find_loop l ws = None -> find_loop_in l n = None ->
  find_loop_in l (map_body_in q (fun _ => ws) n) = None.
Proof.
  intros Hws.
  induction n as [l' d s i pr body IHbody| | | |] using node_rect';
    intros H; try reflexivity.
  rewrite find_loop_in_For in H. cbn [map_body_in].
  destruct (Nat.eqb q l'); rewrite find_loop_in_For;
    destruct (Nat.eqb l l'); try discriminate; [exact Hws|].
  induction IHbody as [|y ys Hy Hys IH]; [reflexivity|].
  simpl in H |- *. destruct (find_loop_in l y); [discriminate|].
  rewrite (Hy eq_refl). apply IH. exact H.
Qed.

Lemma is_For_map_body_in p f n : is_For (map_body_in p f n) = is_For n.
Proof. destruct n; try reflexivity. simpl. destruct (Nat.eqb p lid); reflexivity. Qed.

Lemma loop_dim_map_body_in p f n : loop_dim (map_body_in p f n) = loop_dim n.
Proof. destruct n; try reflexivity. simpl. destruct (Nat.eqb p lid); reflexivity. Qed.

(** A loop that is not perfect has a loop in its body. *)
Lemma imperfect_has_loop l d s i p c :
  is_perfect_loop (For l d s i p c) = false ->
  forallb (fun n => negb (is_For n)) c = false.
Proof.
  destruct c as [|x [|y ys]]; intros H.
  - discriminate.
  - destruct x; try discriminate. reflexivity.
  - exact H.
Qed.

Lemma loop_among_many_imperfect l d s i p c :
  2 <= List.length c ->
  forallb (fun n => negb (is_For n)) c = false ->
  is_perfect_loop (For l d s i p c) = false.
Proof.
  destruct c as [|x [|y ys]]; simpl; intros Hlen H; try lia. exact H.
Qed.

Lemma imperfect_map_body_in p f n :
  (forall l d s i pr c, is_perfect_loop (For l d s i pr c) = false ->
                        is_perfect_loop (For l d s i pr (f c)) = false) ->
  is_perfect_loop n = false -> is_perfect_loop (map_body_in p f n) = false.
Proof.
  intros Hf.
  induction n as [l' d s i pr body IHbody| | | |] using node_rect';
    intros H; try reflexivity.
  cbn [map_body_in]. destruct (Nat.eqb p l'); [apply Hf; exact H|].
  destruct body as [|x [|y ys]].
  - discriminate.
  - inversion IHbody as [|? ? Hx _]; subst.
    destruct x as [l2 d2 s2 i2 p2 b2| | | |]; try discriminate.
    specialize (Hx H). cbn [List.map].
    change (is_perfect_loop
              (For l' d s i pr [map_body_in p f (For l2 d2 s2 i2 p2 b2)]) = false).
    remember (map_body_in p f (For l2 d2 s2 i2 p2 b2)) as g eqn:Eg.
    assert (Hg : is_For g = true) by (subst g; apply is_For_map_body_in).
    destruct g; try discriminate. exact Hx.
  - apply loop_among_many_imperfect; [simpl; lia|].
    apply imperfect_has_loop in H.
    clear IHbody. revert H. generalize (x :: y :: ys) as c.
    induction c as [|a c IH]; [discriminate|].
    cbn [List.map forallb]. rewrite is_For_map_body_in.
    destruct (negb (is_For a)); [exact IH | reflexivity].
Qed.

(** What [find_loop] finds after a change of the body of [p] that
    neither adds nor removes the loop [l]. *)
Lemma find_loop_in_map_body_in l p f n :
  (forall c, find_loop l (f c) = find_loop l c) ->
  match find_loop_in l n, find_loop_in l (map_body_in p f n) with
  | Some r, Some r' => r' = r \/ r' = map_body_in p f r
  | None, None => True
  | _, _ => False
  end.
Proof.
  intros Hf.
  induction n as [l' d s i pr body IHbody| | | |] using node_rect';
    try exact I.
  cbn [map_body_in]. destruct (Nat.eqb p l') eqn:Ep.
  - rewrite !find_loop_in_For. destruct (Nat.eqb l l') eqn:El.
    + right. cbn [map_body_in]. rewrite Ep. reflexivity.
    + rewrite Hf. destruct (find_loop l body); [left; reflexivity | exact I].
  - rewrite !find_loop_in_For. destruct (Nat.eqb l l') eqn:El.
    + right. cbn [map_body_in]. rewrite Ep. reflexivity.
    + clear Ep El. induction IHbody as [|y ys Hy Hys IH]; [exact I|].
      simpl. destruct (find_loop_in l y) as [r|];
        destruct (find_loop_in l (map_body_in p f y)) as [r'|];
        try contradiction; [exact Hy | exact IH].
Qed.

Lemma find_loop_map_body l p f hdr :
  (forall c, find_loop l (f c) = find_loop l c) ->
  match find_loop l hdr, find_loop l (map_body p f hdr) with
  | Some r, Some r' => r' = r \/ r' = map_body_in p f r
  | None, None => True
  | _, _ => False
  end.
Proof.
  intros Hf. unfold map_body.
  induction hdr as [|y ys IH]; [exact I|].
  simpl. pose proof (find_loop_in_map_body_in l p f y Hf) as Hy.
  destruct (find_loop_in l y) as [r|];
    destruct (find_loop_in l (map_body_in p f y)) as [r'|];
    try contradiction; [exact Hy | exact IH].
Qed.

(** The insertion of [new] at an offset of a list of children. *)
Lemma find_loop_insert l ofs new c :
  find_loop l new = None ->
  find_loop l (firstn ofs c ++ new ++ skipn ofs c) = find_loop l c.
Proof.
  intros Hnew. rewrite <- (firstn_skipn ofs c) at 3.
  rewrite !find_loop_app, Hnew. reflexivity.
Qed.

Lemma imperfect_insert ofs new l d s i p c :
  new <> [] ->
  is_perfect_loop (For l d s i p c) = false ->
  is_perfect_loop (For l d s i p (firstn ofs c ++ new ++ skipn ofs c)) = false.
Proof.
  intros Hnew H. apply imperfect_has_loop in H.
  assert (Hc : c <> []) by (intros ->; discriminate).
  apply loop_among_many_imperfect.
  - rewrite !length_app, length_firstn, length_skipn.
    destruct new; [contradiction|]. destruct c; [contradiction|].
    cbn [List.length]. lia.
  - rewrite <- (firstn_skipn ofs c) in H. rewrite forallb_app in H.
    rewrite !forallb_app.
    destruct (forallb (fun n => negb (is_For n)) (firstn ofs c)); [|reflexivity].
    simpl in H |- *. rewrite H. apply andb_false_r.
Qed.

Lemma nest_grows_refl hdr : nest_grows hdr hdr.
Proof. intros l n H. exists n. auto. Qed.

Lemma nest_grows_trans h1 h2 h3 :
  nest_grows h1 h2 -> nest_grows h2 h3 -> nest_grows h1 h3.
Proof.
  intros H12 H23 l n H.
  destruct (H12 _ _ H) as (n2 & F2 & D2 & P2).
  destruct (H23 _ _ F2) as (n3 & F3 & D3 & P3).
  exists n3. split; [exact F3|]. split; [congruence|]. auto.
Qed.

Lemma nest_grows_insert_header ofs new hdr :
  (forall l, l <= max_lid hdr -> find_loop l new = None) ->
  nest_grows hdr (firstn ofs hdr ++ new ++ skipn ofs hdr).
Proof.
  intros Hnew l n H. exists n. rewrite find_loop_insert; [auto|].
  apply Hnew. eapply find_loop_le_max. exact H.
Qed.

Lemma nest_grows_insert_body p ofs new hdr :
  new <> [] ->
  (forall l, l <= max_lid hdr -> find_loop l new = None) ->
  nest_grows hdr
    (map_body p (fun c => firstn ofs c ++ new ++ skipn ofs c) hdr).
Proof.
  intros Hne Hnew l n H.
  assert (Hl : find_loop l new = None)
    by (apply Hnew; eapply find_loop_le_max; exact H).
  pose proof (find_loop_map_body l p
                (fun c => firstn ofs c ++ new ++ skipn ofs c) hdr
                (fun c => find_loop_insert l ofs new c Hl)) as Hm.
  rewrite H in Hm.
  destruct (find_loop l (map_body p _ hdr)) as [n'|]; [|contradiction].
  exists n'. split; [reflexivity|].
  destruct Hm as [->| ->]; [auto|].
  split; [apply loop_dim_map_body_in|].
  apply imperfect_map_body_in.
  intros; apply imperfect_insert; assumption.
Qed.

(** *** The rounds leave the nest and the other statements *)

Lemma header_set_rhs sid e st : header (set_rhs sid e st) = header st.
Proof. unfold set_rhs. destruct (get_stmt sid st); reflexivity. Qed.

Lemma exprs_set_rhs sid e st : exprs (set_rhs sid e st) = exprs st.
Proof. unfold set_rhs. destruct (get_stmt sid st); reflexivity. Qed.

Lemma get_stmt_set_rhs_other sid sid' e st :
  sid' <> sid -> get_stmt sid' (set_rhs sid e st) = get_stmt sid' st.
Proof.
  intros Hne. unfold set_rhs. destruct (get_stmt sid st) eqn:E; [|reflexivity].
  unfold get_stmt. cbn [stmts set_stmts].
  apply alist_set_get_other_nat. exact Hne.
Qed.

Lemma no_loops_map2_Write w (xs ys : list expr) :
  forallb (fun n => negb (is_For n)) (map2 (Write w) xs ys) = true.
Proof.
  unfold map2. induction (combine xs ys) as [|a l IH]; [reflexivity | exact IH].
Qed.

Lemma no_loops_get key (inv_dep : inv_dep_t) ds il :
  no_loops inv_dep -> alist_get inv_info_eqb key inv_dep = Some (ds, il) ->
  forallb (fun n => negb (is_For n)) il = true.
Proof.
  induction 1 as [|[k v] tl Hx Hxs IH]; simpl; [discriminate|].
  destruct (inv_info_eqb key k); [|exact IH].
  intros E. inversion E; subst. exact Hx.
Qed.

Lemma no_loops_set key ds il (inv_dep : inv_dep_t) :
  forallb (fun n => negb (is_For n)) il = true ->
  no_loops inv_dep -> no_loops (alist_set inv_info_eqb key (ds, il) inv_dep).
Proof.
  intros Hil. induction 1 as [|[k v] tl Hx Hxs IH]; simpl.
  - constructor; [exact Hil | constructor].
  - destruct (inv_info_eqb key k); constructor; assumption.
Qed.

Lemma process_groups_frame repr groups : forall frozen h st inv_dep h' st' inv_dep',
  process_groups repr groups frozen h st inv_dep = Ok (h', st', inv_dep') ->
  header st' = header st /\ exprs st' = exprs st /\
  hs_stmt h' = hs_stmt h /\ hs_info h' = hs_info h /\
  (forall sid, sid <> hs_stmt h -> get_stmt sid st' = get_stmt sid st) /\
  (no_loops inv_dep -> no_loops inv_dep').
Proof.
  induction groups as [|[d paths] rest IH]; intros frozen h st inv_dep h' st' inv_dep' H.
  - inversion H; subst. repeat split; auto.
  - cbn [process_groups] in H.
    destruct (get_stmt (hs_stmt h) st) as [s|] eqn:Es; [|discriminate].
    destruct (placement (hs_info h) st d) as [[[pl wrap] next]|]; [|discriminate].
    cbn [bind fst snd] in H.
    destruct (mapM (fun l => lookup_loop l st) wrap) as [wrap_nodes|]; [|discriminate].
    cbn [bind] in H.
    destruct (ast_replace repr _ (st_rhs s)) as [rhs' n_replaced].
    apply IH in H. cbn [hs_stmt hs_info] in H.
    destruct H as (Hh & He & Hs & Hi & Hg & Hn).
    split; [rewrite Hh; cbn [header set_expr_graph set_hoisted set_decls];
            apply header_set_rhs|].
    split; [rewrite He; cbn [exprs set_expr_graph set_hoisted set_decls];
            apply exprs_set_rhs|].
    split; [exact Hs|]. split; [exact Hi|]. split.
    + intros sid Hne. rewrite (Hg sid Hne).
      unfold get_stmt at 1. cbn [stmts set_expr_graph set_hoisted set_decls].
      apply (get_stmt_set_rhs_other (hs_stmt h) sid rhs' st Hne).
    + intros Hinv. apply Hn.
      destruct (alist_get inv_info_eqb _ inv_dep) as [[ds il]|] eqn:Eg.
      * apply no_loops_set; [|exact Hinv].
        rewrite forallb_app. rewrite (no_loops_get _ _ _ _ Hinv Eg).
        apply no_loops_map2_Write.
      * apply no_loops_set; [|exact Hinv]. apply no_loops_map2_Write.
Qed.

Lemma me_dims_header info st st' :
  header st' = header st -> me_dims info st' = me_dims info st.
Proof. intros H. unfold me_dims, me_loop_objs. rewrite H. reflexivity. Qed.

Lemma check_loops_header info st st' :
  header st' = header st -> _check_loops info st' = _check_loops info st.
Proof. intros H. unfold _check_loops. rewrite H. reflexivity. Qed.

(** The [while True] loop returns at a round that has extracted nothing. *)
Lemma licm_rounds_fixpoint repr nr oo fuel : forall h st inv_dep h' st' inv_dep',
  licm_rounds repr nr oo fuel h st inv_dep = Some (Ok (h', st', inv_dep')) ->
  header st' = header st /\ exprs st' = exprs st /\
  hs_stmt h' = hs_stmt h /\ hs_info h' = hs_info h /\
  (forall sid, sid <> hs_stmt h -> get_stmt sid st' = get_stmt sid st) /\
  (no_loops inv_dep -> no_loops inv_dep') /\
  exists s r acc,
    get_stmt (hs_stmt h') st' = Some s /\
    _extract_exprs (hs_symbols h') (me_dims (hs_info h') st') nr oo (st_rhs s) []
                   (mkExtraction [] false) = Ok (r, acc) /\
    extracted acc = false.
Proof.
  induction fuel as [|fuel IH]; intros h st inv_dep h' st' inv_dep' H;
    [discriminate|].
  cbn [licm_rounds] in H.
  destruct (get_stmt (hs_stmt h) st) as [s|] eqn:Es; [|discriminate].
  destruct (_extract_exprs (hs_symbols h) (me_dims (hs_info h) st) nr oo
              (st_rhs s) [] (mkExtraction [] false)) as [[r acc]|] eqn:Ex;
    [|discriminate].
  destruct (extracted acc) eqn:Eacc; cbn [negb] in H.
  - destruct (process_groups repr (dep_subexprs acc) [] _ st inv_dep)
      as [[[h2 st2] inv2]|] eqn:Ep; [|discriminate].
    apply process_groups_frame in Ep. cbn [hs_stmt hs_info] in Ep.
    destruct Ep as (Hh & He & Hs & Hi & Hg & Hn).
    apply IH in H. destruct H as (Hh' & He' & Hs' & Hi' & Hg' & Hn' & Hfix).
    split; [congruence|]. split; [congruence|]. split; [congruence|].
    split; [congruence|]. split.
    + intros sid Hne. rewrite Hg'; [apply Hg; exact Hne | congruence].
    + split; [auto | exact Hfix].
  - inversion H; subst. repeat split; auto.
    exists s, r, acc. auto.
Qed.

(** *** The insertion of the hoisted code *)

Lemma find_loop_decls l ds : find_loop l (List.map DeclNode ds) = None.
Proof. induction ds as [|d ds IH]; [reflexivity | exact IH]. Qed.

Lemma insert_hoisted_grows st item st' :
  forallb (fun n => negb (is_For n)) (snd (snd item)) = true ->
  insert_hoisted st item = Ok st' ->
  nest_grows (header st) (header st') /\ stmts st' = stmts st /\
  exprs st' = exprs st.
Proof.
  destruct item as [[[[ld pl] next] wrap] [hd inv_loop]].
  cbn [snd]. intros Hinv H. unfold insert_hoisted in H.
  destruct (mapM (fun l => lookup_loop l st) wrap) as [wrap_nodes|];
    [|discriminate].
  cbn [bind] in H.
  set (inv' := match List.map (dcopy_node (S (max_lid (header st)))) wrap_nodes with
               | [] => (inv_loop, LoopNone)
               | first :: _ =>
                   ([map_body_in (last wrap 0 + S (max_lid (header st)))
                       (fun _ => inv_loop) first],
                    LoopFor (map_body_in (last wrap 0 + S (max_lid (header st)))
                       (fun _ => inv_loop) first))
               end) in H.
  assert (Hnew : forall l, l <= max_lid (header st) -> find_loop l (fst inv') = None).
  { intros l Hl. subst inv'. destruct wrap_nodes as [|w ws]; cbn [List.map fst].
    - apply find_loop_no_For. exact Hinv.
    - cbn [find_loop]. rewrite find_loop_in_map_body_const; [reflexivity| |].
      + apply find_loop_no_For. exact Hinv.
      + apply find_loop_in_dcopy. lia. }
  destruct inv' as [inv_loop' inv_code]. cbn [fst] in Hnew.
  destruct (place_children pl st) as [children|]; [|discriminate].
  destruct (anchor_index next children) as [ofs|]; [|discriminate].
  cbn [bind] in H. inversion H; subst st'; clear H.
  cbn [header stmts exprs set_hoisted].
  rewrite stmts_set_place_children, exprs_set_place_children.
  split; [|split; reflexivity].
  assert (Hall : forall l, l <= max_lid (header st) ->
            find_loop l (List.map DeclNode hd ++ inv_loop' ++ [FlatBlock newline]) = None).
  { intros l Hl. rewrite !find_loop_app, find_loop_decls, (Hnew l Hl). reflexivity. }
  destruct pl as [|p]; cbn [set_place_children header set_header].
  - apply nest_grows_insert_header. exact Hall.
  - apply nest_grows_insert_body; [|exact Hall].
    destruct (List.map DeclNode hd); [|discriminate].
    destruct inv_loop'; discriminate.
Qed.

Lemma no_loops_insert_sorted x l :
  forallb (fun n => negb (is_For n)) (snd (snd x)) = true ->
  no_loops l -> no_loops (insert_sorted x l).
Proof.
  intros Hx. induction 1 as [|y tl Hy Htl IH]; simpl.
  - constructor; [exact Hx | constructor].
  - destruct (tuple_ltb _ _); constructor; try assumption.
    constructor; assumption.
Qed.

Lemma no_loops_sorted_items l : no_loops l -> no_loops (sorted_items l).
Proof.
  induction 1 as [|x tl Hx Htl IH]; simpl; [constructor|].
  apply no_loops_insert_sorted; assumption.
Qed.

Lemma insert_all_grows items : forall st st',
  no_loops items -> insert_all items st = Ok st' ->
  nest_grows (header st) (header st') /\ stmts st' = stmts st /\
  exprs st' = exprs st.
Proof.
  induction items as [|it tl IH]; intros st st' Hn H.
  - inversion H; subst. split; [apply nest_grows_refl | split; reflexivity].
  - inversion Hn as [|? ? Hit Htl]; subst. cbn [insert_all] in H.
    destruct (insert_hoisted st it) as [st1|] eqn:E1; [|discriminate].
    cbn [bind] in H. apply insert_hoisted_grows in E1; [|exact Hit].
    destruct E1 as (G1 & S1 & X1).
    destruct (IH _ _ Htl H) as (G2 & S2 & X2).
    split; [eapply nest_grows_trans; eassumption|].
    split; congruence.
Qed.

(** What one call of [licm] leaves: the nest has grown, the other
    statements are as they were, and the last round has extracted nothing
    from the statement of the hoister. *)
Lemma licm_outcome repr visit fuel h st h' st' :
  licm repr visit false false fuel h st = Some (Ok (h', st')) ->
  hs_stmt h' = hs_stmt h /\ hs_info h' = hs_info h /\
  exprs st' = exprs st /\ nest_grows (header st) (header st') /\
  (forall sid, sid <> hs_stmt h -> get_stmt sid st' = get_stmt sid st) /\
  (_check_loops (hs_info h) st = true ->
   exists s r acc,
     get_stmt (hs_stmt h) st' = Some s /\
     _extract_exprs (hs_symbols h') (me_dims (hs_info h) st) false false
                    (st_rhs s) [] (mkExtraction [] false) = Ok (r, acc) /\
     extracted acc = false).
Proof.
  unfold licm. destruct (_check_loops (hs_info h) st) eqn:Ec; cbn [negb].
  - destruct (licm_rounds repr false false fuel _ st [])
      as [[[[h1 st1] inv1]|]|] eqn:Er; try discriminate.
    destruct (insert_all (sorted_items inv1) st1) as [st2|] eqn:Ei;
      [|discriminate].
    intros H. inversion H; subst h' st'; clear H.
    apply licm_rounds_fixpoint in Er. cbn [hs_stmt hs_info] in Er.
    destruct Er as (Hh & He & Hs & Hi & Hg & Hn & s & r & acc & G & X & A).
    apply insert_all_grows in Ei;
      [|apply no_loops_sorted_items, Hn; constructor].
    destruct Ei as (G2 & S2 & X2).
    split; [exact Hs|]. split; [exact Hi|]. split; [congruence|].
    split; [rewrite <- Hh; exact G2|]. split.
    + intros sid Hne. rewrite <- (Hg sid Hne). unfold get_stmt. rewrite S2.
      reflexivity.
    + intros _. exists s, r, acc. split; [|split; [|exact A]].
      * unfold get_stmt. rewrite S2. rewrite <- Hs. exact G.
      * rewrite <- X. rewrite Hi. f_equal. symmetry.
        apply me_dims_header. exact Hh.
  - intros H. inversion H; subst h' st'; clear H.
    split; [reflexivity|]. split; [reflexivity|]. split; [reflexivity|].
    split; [apply nest_grows_refl|]. split; [reflexivity|]. discriminate.
Qed.

(** *** What a grown nest keeps for an expression *)

Lemma loops_found_grows info hdr hdr' :
  nest_grows hdr hdr' -> loops_found info hdr = true ->
  loops_found info hdr' = true.
Proof.
  intros G. unfold loops_found.
  induction (me_loops info) as [|l ls IH]; [reflexivity|].
  cbn [forallb]. destruct (find_loop l hdr) as [n|] eqn:E; [|discriminate].
  destruct (G _ _ E) as (n' & F & _). rewrite F. exact IH.
Qed.

Lemma me_dims_grows info st st' :
  nest_grows (header st) (header st') ->
  loops_found info (header st) = true ->
  me_dims info st' = me_dims info st.
Proof.
  intros G. unfold loops_found, me_dims, me_loop_objs.
  induction (me_loops info) as [|l ls IH]; [reflexivity|].
  cbn [forallb flat_map]. rewrite !map_app.
  destruct (find_loop l (header st)) as [n|] eqn:E; [|discriminate].
  destruct (G _ _ E) as (n' & F & D & _). rewrite F.
  intros H. rewrite (IH H). cbn [List.map]. rewrite D. reflexivity.
Qed.

Lemma check_loops_grows info st st' :
  nest_grows (header st) (header st') ->
  loops_found info (header st) = true ->
  _check_loops info st' = true -> _check_loops info st = true.
Proof.
  intros G. unfold loops_found, _check_loops.
  assert (K : forall ls,
    forallb (fun l => match find_loop l (header st) with
                      | Some _ => true | None => false end) ls = true ->
    forallb (fun l => match find_loop l (header st') with
                      | Some n => is_perfect_loop n | None => false end) ls = true ->
    forallb (fun l => match find_loop l (header st) with
                      | Some n => is_perfect_loop n | None => false end) ls = true).
  { induction ls as [|l ls IH]; [reflexivity|].
    cbn [forallb]. destruct (find_loop l (header st)) as [n|] eqn:E; [|discriminate].
    destruct (G _ _ E) as (n' & F & _ & P). rewrite F.
    intros Hf Hc. apply andb_true_iff in Hc. destruct Hc as [Hn' Hc].
    rewrite (IH Hf Hc). destruct (is_perfect_loop n); [reflexivity|].
    rewrite (P eq_refl) in Hn'. discriminate. }
  destruct (me_loops info) as [|l0 ls]; [reflexivity|].
  cbn [forallb tl]. destruct (find_loop l0 (header st)); [|discriminate].
  apply K.
Qed.

(** *** One statement of [rewrite(1)] *)

Lemma Rewriter_init_frame stmt info st ew st0 :
  Rewriter_init stmt info st = (ew, st0) ->
  same_ast st0 st /\ hs_stmt (expr_hoister ew) = stmt /\
  hs_info (expr_hoister ew) = info /\ hs_counter (expr_hoister ew) = 0.
Proof.
  unfold Rewriter_init, Hoister_init, Expander_init.
  destruct (register stmt (hoister_handled st)) as [hh hid].
  cbn [expander_handled set_hoister_handled].
  destruct (register stmt (expander_handled st)) as [xh xid].
  intros H. inversion H; subst. unfold same_ast. repeat split.
Qed.

Lemma rewrite_stmt_level1 repr visit fusion fuel stmt info st :
  rewrite_stmt repr visit fusion fuel 1 stmt info st =
  match licm repr visit false false fuel
             (expr_hoister (fst (Rewriter_init stmt info st)))
             (snd (Rewriter_init stmt info st)) with
  | Some (Ok hs) => Some (Ok (snd hs))
  | Some (Raise e) => Some (Raise e)
  | None => None
  end.
Proof.
  unfold rewrite_stmt. destruct (Rewriter_init stmt info st) as [ew st0].
  cbn [fst snd Z.ltb Z.compare Pos.compare Pos.compare_cont andb].
  unfold Rewriter_licm, obind.
  destruct (licm repr visit false false fuel (expr_hoister ew) st0)
    as [[[h s]|]|]; reflexivity.
Qed.

Lemma mem_nat_cons_false k k' ks :
  mem_nat k (k' :: ks) = false -> k <> k' /\ mem_nat k ks = false.
Proof.
  unfold mem_nat. cbn [existsb]. intros H. apply orb_false_iff in H.
  destruct H as [H1 H2]. apply Nat.eqb_neq in H1. auto.
Qed.

(** The first call: when it returns, every tracked statement is
    settled under the visitor, provided the visitor agrees with what the
    hoisters held. *)
Lemma first_pass_settles repr visit fusion fuel items : forall st stF,
  rewrite_all repr visit fusion fuel 1 items st = Some (Ok stF) ->
  distinct_keys (List.map fst items) = true ->
  (forall it, In it items -> loops_found (snd it) (header st) = true) ->
  forallb (visitor_agrees visit stF) (licm_trace repr visit fuel items st) = true ->
  nest_grows (header st) (header stF) /\
  (forall sid, mem_nat sid (List.map fst items) = false ->
               get_stmt sid stF = get_stmt sid st) /\
  exprs stF = exprs st /\
  (forall it, In it items -> settled visit stF it).
Proof.
  induction items as [|[stmt info] tl IH]; intros st stF H Hd Hf Ha.
  - inversion H; subst. split; [apply nest_grows_refl|].
    split; [reflexivity|]. split; [reflexivity|]. intros it [].
  - cbn [rewrite_all] in H. rewrite rewrite_stmt_level1 in H.
    cbn [licm_trace] in Ha.
    destruct (Rewriter_init stmt info st) as [ew st0] eqn:Einit.
    cbn [fst snd] in H.
    destruct (Rewriter_init_frame _ _ _ _ _ Einit)
      as ((Hh0 & Hs0 & _ & _ & _ & He0) & Hst & Hin & _).
    destruct (licm repr visit false false fuel (expr_hoister ew) st0)
      as [[[h1 st1]|]|] eqn:El; try discriminate.
    cbn [obind snd] in H. cbn [forallb] in Ha.
    apply andb_true_iff in Ha. destruct Ha as [Hah Hat].
    cbn [List.map distinct_keys fst] in Hd.
    apply andb_true_iff in Hd. destruct Hd as [Hdh Hdt].
    apply negb_true_iff in Hdh.
    destruct (licm_outcome _ _ _ _ _ _ _ El) as (Hs1 & Hi1 & He1 & G1 & Hg1 & Hfix1).
    rewrite Hst in Hs1, Hg1, Hfix1. rewrite Hin in Hi1, Hfix1.
    assert (Hf0 : loops_found info (header st0) = true).
    { rewrite Hh0. apply (Hf (stmt, info)). left. reflexivity. }
    assert (Hft : forall it, In it tl -> loops_found (snd it) (header st1) = true).
    { intros it Hit. apply (loops_found_grows _ _ _ G1). rewrite Hh0.
      apply Hf. right. exact Hit. }
    destruct (IH _ _ H Hdt Hft Hat) as (G2 & Hg2 & He2 & Hset2).
    assert (G : nest_grows (header st0) (header stF))
      by (eapply nest_grows_trans; eassumption).
    split; [rewrite <- Hh0; exact G|]. split.
    + intros sid Hm. cbn [List.map fst] in Hm.
      apply mem_nat_cons_false in Hm. destruct Hm as [Hne Hm].
      rewrite (Hg2 sid Hm), (Hg1 sid Hne). unfold get_stmt. rewrite Hs0.
      reflexivity.
    + split; [congruence|].
      intros it [<-|Hit]; [|apply Hset2; exact Hit].
      intros Hc. cbn [fst snd] in Hc |- *.
      assert (Hc0 : _check_loops info st0 = true)
        by (apply (check_loops_grows _ _ _ G Hf0 Hc)).
      destruct (Hfix1 Hc0) as (s & r & acc & Gs & X & A).
      assert (GF : get_stmt stmt stF = Some s) by (rewrite (Hg2 stmt Hdh); exact Gs).
      exists s, r, acc. split; [exact GF|]. split; [|exact A].
      rewrite <- X. rewrite (me_dims_grows _ _ _ G Hf0).
      apply extract_exprs_ext.
      unfold visitor_agrees in Hah. cbn [fst snd] in Hah.
      rewrite Hi1, Hc0, Hs1, GF in Hah. cbn [negb orb] in Hah.
      intros x Hx. rewrite forallb_forall in Hah.
      apply dep_eqb_eq. apply Hah. exact Hx.
Qed.

(** *** The second call *)

Lemma same_ast_trans a b c : same_ast a b -> same_ast b c -> same_ast a c.
Proof.
  unfold same_ast. intros (A1 & A2 & A3 & A4 & A5 & A6) (B1 & B2 & B3 & B4 & B5 & B6).
  repeat split; congruence.
Qed.

Lemma settled_same visit a b it :
  same_ast a b -> settled visit b it -> settled visit a it.
Proof.
  intros (Hh & Hs & _) H Hc. unfold settled in H.
  rewrite (check_loops_header _ _ _ Hh) in Hc.
  destruct (H Hc) as (s & r & acc & G & X & A).
  exists s, r, acc. unfold get_stmt. rewrite Hh, Hs, (me_dims_header _ _ _ Hh).
  auto.
Qed.

(** On a settled statement [licm] extracts nothing: the counter of
    rounds stays where it was and the AST is not touched. *)
Lemma licm_settled repr visit fuel h st :
  settled visit st (hs_stmt h, hs_info h) ->
  exists h' st',
    licm repr visit false false (S fuel) h st = Some (Ok (h', st')) /\
    same_ast st' st /\ hs_counter h' = hs_counter h.
Proof.
  intros H. unfold licm. unfold settled in H. cbn [fst snd] in H.
  destruct (_check_loops (hs_info h) st); cbn [negb].
  - destruct (H eq_refl) as (s & r & acc & G & X & A).
    cbn [licm_rounds hs_stmt hs_info hs_symbols]. rewrite G, X, A.
    cbn [negb insert_all sorted_items fold_right].
    eexists _, _. split; [reflexivity|]. unfold same_ast.
    repeat split.
  - eexists _, _. split; [reflexivity|]. unfold same_ast. repeat split.
Qed.

Lemma second_pass_extracts_nothing repr visit fusion fuel st1 items : forall t,
  same_ast t st1 ->
  (forall it, In it items -> settled visit st1 it) ->
  exists t2,
    rewrite_all repr visit fusion (S fuel) 1 items t = Some (Ok t2) /\
    same_ast t2 st1 /\
    List.map (fun sh => hs_counter (snd sh))
             (licm_trace repr visit (S fuel) items t) =
    List.map (fun _ => 0) items.
Proof.
  induction items as [|[stmt info] tl IH]; intros t Ht Hs.
  - exists t. split; [reflexivity|]. split; [exact Ht | reflexivity].
  - cbn [rewrite_all licm_trace]. rewrite rewrite_stmt_level1.
    destruct (Rewriter_init stmt info t) as [ew t0] eqn:Einit.
    cbn [fst snd].
    destruct (Rewriter_init_frame _ _ _ _ _ Einit) as (H0 & Hst & Hin & Hc0).
    assert (Hset : settled visit t0 (hs_stmt (expr_hoister ew),
                                     hs_info (expr_hoister ew))).
    { rewrite Hst, Hin. apply (settled_same visit t0 st1).
      - eapply same_ast_trans; eassumption.
      - apply Hs. left. reflexivity. }
    destruct (licm_settled repr visit fuel _ _ Hset) as (h' & t1 & El & H1 & Hc1).
    rewrite El. cbn [obind snd].
    destruct (IH t1) as (t2 & E2 & H2 & Hcs).
    + eapply same_ast_trans; [exact H1|]. eapply same_ast_trans; eassumption.
    + intros it Hit. apply Hs. right. exact Hit.
    + exists t2. split; [exact E2|]. split; [exact H2|].
      cbn [List.map snd]. rewrite Hcs, Hc1, Hc0. reflexivity.
Qed.

(** What a second [rewrite(1)] needs of the visitor. The hoister keeps
    the dependency of a new temporary in [self.symbols] of the running
    call only ([self.symbols[s] = dep]); the next call asks the visitor
    again. Let a first [rewrite(1)] return on a state whose
    tracked statements are distinct objects and whose tracked loops are
    loops of the AST, and let the visitor, run on the rewritten AST,
    report for every symbol of each statement whose nest was not skipped
    the dependency that the hoister of the statement held when it
    returned. Then a second [rewrite(1)] returns, with however little
    fuel, every hoister of the second call ends with its counter of
    extraction rounds at 0, and the header, the statements, the
    declarations, the hoist tracker, the expression graph and the tracked
    expressions are those the first call left. Whether the visitor of
    utils.py reports these dependencies is not decided by the sources
    at hand. *)
Theorem second_rewrite_extracts_nothing :
  forall repr visit fusion fuel fuel' st st1,
    distinct_keys (List.map fst (exprs st)) = true ->
    loops_tracked st = true ->
    rewrite repr visit fusion fuel 1 st = Some (Ok st1) ->
    forallb (visitor_agrees visit st1)
            (licm_trace repr visit fuel (exprs st) (reset st)) = true ->
    exists st2,
      rewrite repr visit fusion (S fuel') 1 st1 = Some (Ok st2) /\
      same_ast st2 st1 /\
      List.map (fun sh => hs_counter (snd sh))
               (licm_trace repr visit (S fuel') (exprs st1) (reset st1)) =
      List.map (fun _ => 0) (exprs st1).
Proof.
  intros repr visit fusion fuel fuel' st st1 Hd Hl H1 Ha.
  unfold rewrite in *.
  change (exprs (reset st)) with (exprs st) in *.
  assert (Hf : forall it, In it (exprs st) ->
                          loops_found (snd it) (header (reset st)) = true).
  { intros it Hit. unfold loops_tracked in Hl. rewrite forallb_forall in Hl.
    apply Hl. exact Hit. }
  destruct (first_pass_settles repr visit fusion fuel (exprs st) (reset st) st1
              H1 Hd Hf Ha) as (_ & _ & He & Hset).
  change (exprs (reset st)) with (exprs st) in He.
  change (exprs (reset st1)) with (exprs st1). rewrite He.
  apply second_pass_extracts_nothing; [|exact Hset].
  unfold same_ast. repeat split.
Qed.

Lemma second_rewrite_extracts_nothing_witness :
  rewrite gencode rank_symbols_dep no_fusion 5 1 (state_ij rhs_scalars)
    = Some (Ok state_ij_hoisted) /\
  option_map st_rhs (get_stmt 0 state_ij_hoisted) =
    Some (Prod (Par (Sum (sym_ "I_0_1_0" ["i"]) (sym_ "I_0_1_1" ["i"])))
               (sym_ "D" ["i"])) /\
  exists st2,
    rewrite gencode rank_symbols_dep no_fusion 1 1 state_ij_hoisted
      = Some (Ok st2) /\
    same_ast st2 state_ij_hoisted /\
    List.map (fun sh => hs_counter (snd sh))
             (licm_trace gencode rank_symbols_dep 1
                         (exprs state_ij_hoisted) (reset state_ij_hoisted)) =
    List.map (fun _ => 0) (exprs state_ij_hoisted).
Proof.
  split; [vm_compute; reflexivity|]. split; [vm_compute; reflexivity|].
  apply (second_rewrite_extracts_nothing gencode rank_symbols_dep no_fusion 5 0
           (state_ij rhs_scalars) state_ij_hoisted);
    vm_compute; reflexivity.
Defined.

(* ------------------------------------------------------------------ *)
(** * Further properties of the hoister *)

(** ** What [_extract_exprs] raises and what it records *)

Lemma extract_exprs_neg symbols dims nr oo e : forall p acc,
  (has_neg e = true ->
   _extract_exprs symbols dims nr oo e p acc = Raise ValueError) /\
  (has_neg e = false ->
   exists r acc', _extract_exprs symbols dims nr oo e p acc = Ok (r, acc')).
Proof.
  induction e as [s r o|c IH|l r IHl IHr|l r IHl IHr|l r IHl IHr|l r IHl IHr
                 |c IH|f args IHargs] using expr_rect'; intros p acc.
  - split; [discriminate|]. intros _. eexists _, _. reflexivity.
  - cbn [has_neg _extract_exprs]. apply IH.
  - cbn [has_neg _extract_exprs]. split; intros H.
    + destruct (has_neg l) eqn:El.
      * rewrite (proj1 (IHl _ _) eq_refl). reflexivity.
      * destruct (proj2 (IHl (p ++ [0]) acc) eq_refl) as (dl & a1 & E1).
        rewrite E1. cbn [bind]. rewrite (proj1 (IHr _ _) H). reflexivity.
    + apply orb_false_iff in H. destruct H as [Hl Hr].
      destruct (proj2 (IHl (p ++ [0]) acc) Hl) as (dl & a1 & E1).
      destruct (proj2 (IHr (p ++ [1]) a1) Hr) as (dr & a2 & E2).
      rewrite E1. cbn [bind]. rewrite E2. cbn [bind].
      destruct (combine_children _ _ _ _ _ _ _ _ _ _ _ _) as [x y].
      eexists _, _. reflexivity.
  - cbn [has_neg _extract_exprs]. split; intros H.
    + destruct (has_neg l) eqn:El.
      * rewrite (proj1 (IHl _ _) eq_refl). reflexivity.
      * destruct (proj2 (IHl (p ++ [0]) acc) eq_refl) as (dl & a1 & E1).
        rewrite E1. cbn [bind]. rewrite (proj1 (IHr _ _) H). reflexivity.
    + apply orb_false_iff in H. destruct H as [Hl Hr].
      destruct (proj2 (IHl (p ++ [0]) acc) Hl) as (dl & a1 & E1).
      destruct (proj2 (IHr (p ++ [1]) a1) Hr) as (dr & a2 & E2).
      rewrite E1. cbn [bind]. rewrite E2. cbn [bind].
      destruct (combine_children _ _ _ _ _ _ _ _ _ _ _ _) as [x y].
      eexists _, _. reflexivity.
  - cbn [has_neg _extract_exprs]. split; intros H.
    + destruct (has_neg l) eqn:El.
      * rewrite (proj1 (IHl _ _) eq_refl). reflexivity.
      * destruct (proj2 (IHl (p ++ [0]) acc) eq_refl) as (dl & a1 & E1).
        rewrite E1. cbn [bind]. rewrite (proj1 (IHr _ _) H). reflexivity.
    + apply orb_false_iff in H. destruct H as [Hl Hr].
      destruct (proj2 (IHl (p ++ [0]) acc) Hl) as (dl & a1 & E1).
      destruct (proj2 (IHr (p ++ [1]) a1) Hr) as (dr & a2 & E2).
      rewrite E1. cbn [bind]. rewrite E2. cbn [bind].
      destruct (combine_children _ _ _ _ _ _ _ _ _ _ _ _) as [x y].
      eexists _, _. reflexivity.
  - cbn [has_neg _extract_exprs]. split; intros H.
    + destruct (has_neg l) eqn:El.
      * rewrite (proj1 (IHl _ _) eq_refl). reflexivity.
      * destruct (proj2 (IHl (p ++ [0]) acc) eq_refl) as (dl & a1 & E1).
        rewrite E1. cbn [bind]. rewrite (proj1 (IHr _ _) H). reflexivity.
    + apply orb_false_iff in H. destruct H as [Hl Hr].
      destruct (proj2 (IHl (p ++ [0]) acc) Hl) as (dl & a1 & E1).
      destruct (proj2 (IHr (p ++ [1]) a1) Hr) as (dr & a2 & E2).
      rewrite E1. cbn [bind]. rewrite E2. cbn [bind].
      destruct (combine_children _ _ _ _ _ _ _ _ _ _ _ _) as [x y].
      eexists _, _. reflexivity.
  - split; [reflexivity | discriminate].
  - cbn [has_neg _extract_exprs].
    assert (G : forall i acc0,
      ((fix go (l : list expr) : bool :=
          match l with [] => false | x :: xs => has_neg x || go xs end) args = true ->
       (fix go (l : list expr) (i : nat) (acc : extraction) {struct l}
          : result (list (dep * info) * extraction) :=
          match l with
          | [] => Ok ([], acc)
          | n :: ns =>
              '(di, acc1) <- _extract_exprs symbols dims nr oo n (p ++ [i]) acc ;;
              '(rest, acc2) <- go ns (S i) acc1 ;;
              Ok (di :: rest, acc2)
          end) args i acc0 = Raise ValueError) /\
      ((fix go (l : list expr) : bool :=
          match l with [] => false | x :: xs => has_neg x || go xs end) args = false ->
       exists r acc',
       (fix go (l : list expr) (i : nat) (acc : extraction) {struct l}
          : result (list (dep * info) * extraction) :=
          match l with
          | [] => Ok ([], acc)
          | n :: ns =>
              '(di, acc1) <- _extract_exprs symbols dims nr oo n (p ++ [i]) acc ;;
              '(rest, acc2) <- go ns (S i) acc1 ;;
              Ok (di :: rest, acc2)
          end) args i acc0 = Ok (r, acc'))).
    { induction IHargs as [|a args Ha Hargs IH]; intros i acc0.
      - split; [discriminate|]. intros _. eexists _, _. reflexivity.
      - split; intros H.
        + destruct (has_neg a) eqn:Ea.
          * rewrite (proj1 (Ha _ _) eq_refl). reflexivity.
          * destruct (proj2 (Ha (p ++ [i]) acc0) eq_refl) as (da & a1 & E1).
            rewrite E1. cbn [bind]. rewrite (proj1 (IH _ _) H). reflexivity.
        + apply orb_false_iff in H. destruct H as [Hl Hr].
          destruct (proj2 (Ha (p ++ [i]) acc0) Hl) as (da & a1 & E1).
          destruct (proj2 (IH (S i) a1) Hr) as (dr & a2 & E2).
          rewrite E1. cbn [bind]. rewrite E2. cbn [bind].
          eexists _, _. reflexivity. }
    split; intros H.
    + rewrite (proj1 (G 0 acc) H). reflexivity.
    + destruct (proj2 (G 0 acc) H) as (r & acc' & E). rewrite E. cbn [bind].
      eexists _, _. reflexivity.
Qed.

Lemma subtree_at_app e p q :
  subtree_at e (p ++ q) =
  match subtree_at e p with
  | Some c => subtree_at c q
  | None => None
  end.
Proof.
  revert e. induction p as [|i p IH]; intros e; [reflexivity|].
  cbn [app subtree_at]. destruct (nth_error (expr_children e) i); [apply IH | reflexivity].
Qed.

Lemma alist_set_In_dep {V} d (v : V) l d' v' :
  In (d', v') (alist_set dep_eqb d v l) ->
  In (d', v') l \/ (d' = d /\ v' = v).
Proof.
  induction l as [|[k v0] tl IH]; cbn [alist_set].
  - intros [H|[]]. inversion H. right. auto.
  - destruct (dep_eqb d k) eqn:E.
    + intros [H|H].
      * inversion H; subst. apply dep_eqb_eq in E. right. auto.
      * left. right. exact H.
    + intros [H|H]; [left; left; exact H|].
      destruct (IH H) as [H'|H']; [left; right; exact H' | right; exact H'].
Qed.

Lemma alist_get_In_dep {V} d (l : list (dep * V)) v :
  alist_get dep_eqb d l = Some v -> In (d, v) l.
Proof.
  induction l as [|[k v0] tl IH]; cbn [alist_get]; [discriminate|].
  destruct (dep_eqb d k) eqn:E.
  - intros H. inversion H; subst. apply dep_eqb_eq in E. subst. left. reflexivity.
  - intros H. right. apply IH. exact H.
Qed.

Lemma alist_set_not_nil {K V} (eqb : K -> K -> bool) k (v : V) l :
  alist_set eqb k v l <> [].
Proof. destruct l as [|[k' v'] tl]; simpl; [|destruct (eqb k k')]; discriminate. Qed.

Lemma mem_str_In x l : mem_str x l = true -> In x l.
Proof.
  unfold mem_str. intros H. apply existsb_exists in H.
  destruct H as (y & Hy & E). apply String.eqb_eq in E. subst. exact Hy.
Qed.

Lemma filter_dims_In dims dl x :
  In x (filter (fun d => mem_str d dims) dl) -> In x dims.
Proof. intros H. apply filter_In in H. apply mem_str_In. apply H. Qed.

Lemma hoist_records e0 dims oo node p d acc :
  subtree_at e0 p = Some node -> p <> [] ->
  (forall x, In x d -> In x dims) ->
  records_ok e0 dims acc ->
  records_ok e0 dims (hoist dims oo node p d acc).
Proof.
  intros Hsub Hp Hd [Hg Hf]. unfold hoist.
  set (b := if is_Symbol node then false
            else if oo && negb (is_nil d)
                 then if negb (is_nil dims) && negb (dep_eqb d (firstn 1 dims))
                      then false else true
                 else true).
  assert (Hb : b = true -> is_Symbol node = false).
  { subst b. destruct (is_Symbol node); [discriminate | reflexivity]. }
  destruct b; cbn [dep_subexprs extracted].
  - split.
    + intros d' ps' Hin.
      assert (Hnew : forall prev, (forall q, In q prev -> proper_target e0 q) ->
                forall q, In q (prev ++ [p]) -> proper_target e0 q).
      { intros prev Hprev q Hq. apply in_app_or in Hq. destruct Hq as [Hq|[<-|[]]].
        - apply Hprev. exact Hq.
        - split; [exact Hp|]. exists node. auto. }
      destruct (alist_get dep_eqb d (dep_subexprs acc)) as [ps|] eqn:Eg.
      * apply alist_set_In_dep in Hin. destruct Hin as [Hin|[-> ->]].
        -- apply Hg. exact Hin.
        -- apply alist_get_In_dep in Eg. destruct (Hg _ _ Eg) as (_ & _ & Hq).
           split; [destruct ps; discriminate|]. split; [exact Hd|].
           apply Hnew. exact Hq.
      * apply alist_set_In_dep in Hin. destruct Hin as [Hin|[-> ->]].
        -- apply Hg. exact Hin.
        -- split; [discriminate|]. split; [exact Hd|].
           apply (Hnew []). intros q [].
    + rewrite orb_true_r. split; [intros _ | reflexivity].
      destruct (alist_get dep_eqb d (dep_subexprs acc)); apply alist_set_not_nil.
  - rewrite orb_false_r. split; assumption.
Qed.

Lemma combine_children_records e0 dims oo node left right p dl il dr ir acc :
  subtree_at e0 (p ++ [0]) = Some left ->
  subtree_at e0 (p ++ [1]) = Some right ->
  records_ok e0 dims acc ->
  records_ok e0 dims
    (snd (combine_children dims false oo node left right p dl il dr ir acc)).
Proof.
  intros Hl Hr Hacc.
  assert (N0 : p ++ [0] <> []) by (destruct p; discriminate).
  assert (N1 : p ++ [1] <> []) by (destruct p; discriminate).
  pose proof (filter_dims_In dims dl) as Fl.
  pose proof (filter_dims_In dims dr) as Fr.
  unfold combine_children.
  destruct il, ir;
    repeat match goal with
           | |- context [if ?b then _ else _] => destruct b
           end;
    cbn [snd]; auto using hoist_records.
Qed.

(** The positions that [_extract_exprs] records. *)
Lemma extract_exprs_records symbols dims oo e0 e : forall p acc r acc',
  subtree_at e0 p = Some e ->
  records_ok e0 dims acc ->
  _extract_exprs symbols dims false oo e p acc = Ok (r, acc') ->
  records_ok e0 dims acc'.
Proof.
  induction e as [s rk o|c IH|l r0 IHl IHr|l r0 IHl IHr|l r0 IHl IHr|l r0 IHl IHr
                 |c IH|f args IHargs] using expr_rect';
    intros p acc r acc' Hsub Hacc H.
  - inversion H; subst. exact Hacc.
  - cbn [_extract_exprs] in H. eapply IH; [|exact Hacc|exact H].
    rewrite subtree_at_app, Hsub. reflexivity.
  - cbn [_extract_exprs] in H.
    assert (S0 : subtree_at e0 (p ++ [0]) = Some l)
      by (rewrite subtree_at_app, Hsub; reflexivity).
    assert (S1 : subtree_at e0 (p ++ [1]) = Some r0)
      by (rewrite subtree_at_app, Hsub; reflexivity).
    destruct (_extract_exprs symbols dims false oo l (p ++ [0]) acc)
      as [[dil a1]|] eqn:E1; [|discriminate].
    cbn [bind] in H.
    destruct (_extract_exprs symbols dims false oo r0 (p ++ [1]) a1)
      as [[dir a2]|] eqn:E2; [|discriminate].
    cbn [bind] in H. inversion H as [H']. 
    pose proof (combine_children_records e0 dims oo (Sum l r0) l r0 p
                  (fst dil) (snd dil) (fst dir) (snd dir) a2 S0 S1
                  (IHr _ _ _ _ S1 (IHl _ _ _ _ S0 Hacc E1) E2)) as K.
    rewrite H' in K. exact K.
  - cbn [_extract_exprs] in H.
    assert (S0 : subtree_at e0 (p ++ [0]) = Some l)
      by (rewrite subtree_at_app, Hsub; reflexivity).
    assert (S1 : subtree_at e0 (p ++ [1]) = Some r0)
      by (rewrite subtree_at_app, Hsub; reflexivity).
    destruct (_extract_exprs symbols dims false oo l (p ++ [0]) acc)
      as [[dil a1]|] eqn:E1; [|discriminate].
    cbn [bind] in H.
    destruct (_extract_exprs symbols dims false oo r0 (p ++ [1]) a1)
      as [[dir a2]|] eqn:E2; [|discriminate].
    cbn [bind] in H. inversion H as [H'].
    pose proof (combine_children_records e0 dims oo (Sub l r0) l r0 p
                  (fst dil) (snd dil) (fst dir) (snd dir) a2 S0 S1
                  (IHr _ _ _ _ S1 (IHl _ _ _ _ S0 Hacc E1) E2)) as K.
    rewrite H' in K. exact K.
  - cbn [_extract_exprs] in H.
    assert (S0 : subtree_at e0 (p ++ [0]) = Some l)
      by (rewrite subtree_at_app, Hsub; reflexivity).
    assert (S1 : subtree_at e0 (p ++ [1]) = Some r0)
      by (rewrite subtree_at_app, Hsub; reflexivity).
    destruct (_extract_exprs symbols dims false oo l (p ++ [0]) acc)
      as [[dil a1]|] eqn:E1; [|discriminate].
    cbn [bind] in H.
    destruct (_extract_exprs symbols dims false oo r0 (p ++ [1]) a1)
      as [[dir a2]|] eqn:E2; [|discriminate].
    cbn [bind] in H. inversion H as [H'].
    pose proof (combine_children_records e0 dims oo (Prod l r0) l r0 p
                  (fst dil) (snd dil) (fst dir) (snd dir) a2 S0 S1
                  (IHr _ _ _ _ S1 (IHl _ _ _ _ S0 Hacc E1) E2)) as K.
    rewrite H' in K. exact K.
  - cbn [_extract_exprs] in H.
    assert (S0 : subtree_at e0 (p ++ [0]) = Some l)
      by (rewrite subtree_at_app, Hsub; reflexivity).
    assert (S1 : subtree_at e0 (p ++ [1]) = Some r0)
      by (rewrite subtree_at_app, Hsub; reflexivity).
    destruct (_extract_exprs symbols dims false oo l (p ++ [0]) acc)
      as [[dil a1]|] eqn:E1; [|discriminate].
    cbn [bind] in H.
    destruct (_extract_exprs symbols dims false oo r0 (p ++ [1]) a1)
      as [[dir a2]|] eqn:E2; [|discriminate].
    cbn [bind] in H. inversion H as [H'].
    pose proof (combine_children_records e0 dims oo (Div l r0) l r0 p
                  (fst dil) (snd dil) (fst dir) (snd dir) a2 S0 S1
                  (IHr _ _ _ _ S1 (IHl _ _ _ _ S0 Hacc E1) E2)) as K.
    rewrite H' in K. exact K.
  - discriminate.
  - cbn [_extract_exprs] in H.
    assert (G : forall l i acc0 r0 acc1,
      Forall (fun e => forall p acc r acc',
                subtree_at e0 p = Some e -> records_ok e0 dims acc ->
                _extract_exprs symbols dims false oo e p acc = Ok (r, acc') ->
                records_ok e0 dims acc') l ->
      (forall k x, nth_error l k = Some x ->
                   subtree_at e0 (p ++ [i + k]) = Some x) ->
      records_ok e0 dims acc0 ->
      (fix go (l : list expr) (i : nat) (acc : extraction) {struct l}
         : result (list (dep * info) * extraction) :=
         match l with
         | [] => Ok ([], acc)
         | n :: ns =>
             '(di, acc1) <- _extract_exprs symbols dims false oo n (p ++ [i]) acc ;;
             '(rest, acc2) <- go ns (S i) acc1 ;;
             Ok (di :: rest, acc2)
         end) l i acc0 = Ok (r0, acc1) ->
      records_ok e0 dims acc1).
    { clear. induction l as [|a l IH]; intros i acc0 r0 acc1 HF Hn Hacc H.
      - inversion H; subst. exact Hacc.
      - inversion HF as [|? ? Ha Hl]; subst.
        destruct (_extract_exprs symbols dims false oo a (p ++ [i]) acc0)
          as [[da a1]|] eqn:E1; [|discriminate].
        cbn [bind] in H.
        match type of H with
        | context [bind ?g _] => destruct g as [[rest a2]|] eqn:E2; [|discriminate]
        end.
        cbn [bind] in H. inversion H; subst.
        eapply IH; [exact Hl| |eapply Ha; [|exact Hacc|exact E1]|exact E2].
        + intros k x Hk. replace (S i + k) with (i + S k) by lia.
          apply Hn. exact Hk.
        + replace i with (i + 0) by lia. apply Hn. reflexivity. }
    match type of H with
    | context [bind ?g _] => destruct g as [[ad a1]|] eqn:E; [|discriminate]
    end.
    cbn [bind] in H. inversion H; subst.
    eapply G; [exact IHargs| |exact Hacc|exact E].
    intros k x Hk. rewrite subtree_at_app, Hsub. cbn [subtree_at expr_children plus].
    rewrite Hk. reflexivity.
Qed.

(** ** The rounds of [licm] end *)

(** Induction on the children of a node. *)
Lemma expr_children_ind (P : expr -> Prop) :
  (forall n, Forall P (expr_children n) -> P n) -> forall n, P n.
Proof.
  intros H.
  induction n as [s r o|c IH|l r IHl IHr|l r IHl IHr|l r IHl IHr|l r IHl IHr
                 |c IH|f args IHargs] using expr_rect';
    apply H; cbn [expr_children]; repeat constructor; assumption.
Qed.

Lemma inner_count_children n :
  inner_count n =
  if is_Symbol n then 0
  else S (list_sum (List.map inner_count (expr_children n))).
Proof.
  destruct n as [s r o|c|l r|l r|l r|l r|c|f args];
    cbn [inner_count is_Symbol expr_children List.map list_sum fold_right];
    try (f_equal; lia).
  f_equal. induction args as [|a args IH]; [reflexivity|].
  cbn [List.map list_sum fold_right]. rewrite IH. reflexivity.
Qed.

Lemma inner_count_with_children n cs :
  List.length cs = List.length (expr_children n) ->
  inner_count (with_children n cs) =
  if is_Symbol n then 0 else S (list_sum (List.map inner_count cs)).
Proof.
  destruct n as [s r o|c|l r|l r|l r|l r|c|f args];
    cbn [expr_children List.length]; intros Hlen.
  - reflexivity.
  - destruct cs as [|x [|y cs]]; try discriminate. cbn. f_equal. lia.
  - destruct cs as [|x [|y [|z cs]]]; try discriminate. cbn. f_equal. lia.
  - destruct cs as [|x [|y [|z cs]]]; try discriminate. cbn. f_equal. lia.
  - destruct cs as [|x [|y [|z cs]]]; try discriminate. cbn. f_equal. lia.
  - destruct cs as [|x [|y [|z cs]]]; try discriminate. cbn. f_equal. lia.
  - destruct cs as [|x [|y cs]]; try discriminate. cbn. f_equal. lia.
  - cbn [with_children inner_count is_Symbol]. f_equal. clear Hlen.
    induction cs as [|a cs IH]; [reflexivity|].
    cbn [List.map list_sum fold_right]. rewrite IH. reflexivity.
Qed.

Lemma is_Symbol_with_children n cs :
  is_Symbol (with_children n cs) = is_Symbol n.
Proof.
  destruct n as [s r o|c|l r|l r|l r|l r|c|f args]; cbn [with_children];
    try reflexivity;
    try (destruct cs as [|x [|y [|z cs]]]; reflexivity).
Qed.

(** [ast_replace] by the children of the node. *)
Lemma ast_replace_children repr tr n :
  fst (ast_replace repr tr n) =
  with_children n (List.map (replace_child repr tr) (expr_children n)).
Proof.
  unfold replace_child.
  destruct n as [s r o|c|l r|l r|l r|l r|c|f args];
    cbn [ast_replace expr_children List.map with_children]; try reflexivity.
  - destruct (alist_get String.eqb (repr c) tr); [reflexivity|].
    destruct (ast_replace repr tr c); reflexivity.
  - destruct (alist_get String.eqb (repr l) tr);
      destruct (alist_get String.eqb (repr r) tr);
      try destruct (ast_replace repr tr l); try destruct (ast_replace repr tr r);
      reflexivity.
  - destruct (alist_get String.eqb (repr l) tr);
      destruct (alist_get String.eqb (repr r) tr);
      try destruct (ast_replace repr tr l); try destruct (ast_replace repr tr r);
      reflexivity.
  - destruct (alist_get String.eqb (repr l) tr);
      destruct (alist_get String.eqb (repr r) tr);
      try destruct (ast_replace repr tr l); try destruct (ast_replace repr tr r);
      reflexivity.
  - destruct (alist_get String.eqb (repr l) tr);
      destruct (alist_get String.eqb (repr r) tr);
      try destruct (ast_replace repr tr l); try destruct (ast_replace repr tr r);
      reflexivity.
  - destruct (alist_get String.eqb (repr c) tr); [reflexivity|].
    destruct (ast_replace repr tr c); reflexivity.
  - cbn [fst]. f_equal.
    induction args as [|a args IH]; [reflexivity|].
    cbn [List.map]. rewrite <- IH.
    destruct (alist_get String.eqb (repr a) tr);
      try destruct (ast_replace repr tr a);
      match goal with
      | |- context [let (_, _) := ?g in _] => destruct g
      end; reflexivity.
Qed.

Lemma alist_get_In_snd {V} k (l : list (string * V)) v :
  alist_get String.eqb k l = Some v -> In v (List.map snd l).
Proof.
  induction l as [|[k' v'] tl IH]; cbn [alist_get]; [discriminate|].
  destruct (String.eqb k k'); intros H.
  - inversion H; subst. left. reflexivity.
  - right. apply IH. exact H.
Qed.

Lemma list_sum_le (f g : expr -> nat) cs :
  Forall (fun c => f c <= g c) cs ->
  list_sum (List.map f cs) <= list_sum (List.map g cs).
Proof.
  induction 1 as [|c cs Hc Hcs IH]; [reflexivity|].
  cbn [List.map list_sum fold_right]. unfold list_sum in IH. lia.
Qed.

Lemma list_sum_lt (f g : expr -> nat) cs i c :
  Forall (fun c => f c <= g c) cs ->
  nth_error cs i = Some c -> f c < g c ->
  list_sum (List.map f cs) < list_sum (List.map g cs).
Proof.
  intros HF. revert i. induction HF as [|x cs Hx Hcs IH]; intros i Hi Hlt.
  - destruct i; discriminate.
  - cbn [List.map list_sum fold_right].
    pose proof (list_sum_le f g cs Hcs) as Hle. unfold list_sum in *.
    destruct i as [|i]; cbn [nth_error] in Hi.
    + inversion Hi; subst. lia.
    + specialize (IH _ Hi Hlt). lia.
Qed.

Section ReplaceBySymbols.
Variable repr : expr -> string.
Variable tr : list (string * expr).
Hypothesis tr_symbols : Forall (fun v => is_Symbol v = true) (List.map snd tr).

Lemma replace_child_le c :
  inner_count (fst (ast_replace repr tr c)) <= inner_count c ->
  inner_count (replace_child repr tr c) <= inner_count c.
Proof.
  unfold replace_child. intros H.
  destruct (alist_get String.eqb (repr c) tr) as [r|] eqn:E; [|exact H].
  apply alist_get_In_snd in E. rewrite Forall_forall in tr_symbols.
  specialize (tr_symbols _ E). destruct r; try discriminate. cbn. lia.
Qed.

(** Replacing by symbols never adds a node that is no symbol. *)
Lemma ast_replace_inner_le n :
  inner_count (fst (ast_replace repr tr n)) <= inner_count n.
Proof.
  induction n as [n IH] using expr_children_ind.
  rewrite ast_replace_children, inner_count_with_children
    by (rewrite length_map; reflexivity).
  rewrite (inner_count_children n). destruct (is_Symbol n); [reflexivity|].
  apply le_n_S. rewrite map_map.
  apply list_sum_le. rewrite Forall_forall in IH |- *.
  intros c Hc. apply replace_child_le. apply IH. exact Hc.
Qed.

Lemma ast_replace_is_Symbol n :
  is_Symbol (fst (ast_replace repr tr n)) = is_Symbol n.
Proof. rewrite ast_replace_children. apply is_Symbol_with_children. Qed.

Lemma subtree_not_Symbol n p t :
  subtree_at n p = Some t -> is_Symbol t = false -> is_Symbol n = false.
Proof.
  destruct p as [|i p]; cbn [subtree_at].
  - intros H. inversion H; subst. auto.
  - destruct n; try reflexivity. cbn [expr_children]. destruct i; discriminate.
Qed.

(** A hit on the way to a node that is no symbol takes such a node out
    of the tree. *)
Lemma ast_replace_inner_lt p : forall n t,
  subtree_at n p = Some t -> is_Symbol t = false ->
  hit_on_path repr tr n p = true ->
  inner_count (fst (ast_replace repr tr n)) < inner_count n.
Proof.
  induction p as [|i p IH]; intros n t Hsub Ht Hhit; [discriminate|].
  cbn [subtree_at hit_on_path] in Hsub, Hhit.
  destruct (nth_error (expr_children n) i) as [c|] eqn:Ec; [|discriminate].
  rewrite ast_replace_children, inner_count_with_children
    by (rewrite length_map; reflexivity).
  rewrite (inner_count_children n).
  assert (Hn : is_Symbol n = false).
  { destruct n; try reflexivity. destruct i; discriminate. }
  rewrite Hn. apply -> Nat.succ_lt_mono. rewrite map_map.
  apply (list_sum_lt _ _ _ i c).
  - rewrite Forall_forall. intros x _. apply replace_child_le.
    apply ast_replace_inner_le.
  - exact Ec.
  - pose proof (subtree_not_Symbol _ _ _ Hsub Ht) as Hc.
    unfold replace_child. unfold alist_mem in Hhit.
    destruct (alist_get String.eqb (repr c) tr) as [r|] eqn:E.
    + apply alist_get_In_snd in E. rewrite Forall_forall in tr_symbols.
      specialize (tr_symbols _ E). destruct r; try discriminate.
      rewrite (inner_count_children c), Hc. cbn. lia.
    + eapply IH; eassumption.
Qed.

Lemma hit_on_path_target p : forall n t,
  p <> [] -> subtree_at n p = Some t ->
  alist_mem String.eqb (repr t) tr = true ->
  hit_on_path repr tr n p = true.
Proof.
  induction p as [|i p IH]; intros n t Hp Hsub Hmem; [contradiction|].
  cbn [subtree_at hit_on_path] in Hsub |- *.
  destruct (nth_error (expr_children n) i) as [c|]; [|discriminate].
  destruct (alist_mem String.eqb (repr c) tr) eqn:E; [reflexivity|].
  destruct p as [|j p].
  - inversion Hsub; subst. congruence.
  - eapply IH; [discriminate | exact Hsub | exact Hmem].
Qed.
End ReplaceBySymbols.

Lemma get_stmt_set_rhs_same sid e st s :
  get_stmt sid st = Some s ->
  get_stmt sid (set_rhs sid e st) = Some (mkStmt (st_kind s) (st_lhs s) e).
Proof.
  intros H. unfold set_rhs. rewrite H. unfold get_stmt. cbn [stmts set_stmts].
  apply alist_set_get_same_nat.
Qed.

Lemma alist_mem_set_mono {V} k k' (v : V) l :
  alist_mem String.eqb k l = true ->
  alist_mem String.eqb k (alist_set String.eqb k' v l) = true.
Proof.
  unfold alist_mem. destruct (String.eqb k k') eqn:E.
  - apply String.eqb_eq in E. subst. rewrite alist_set_get_same. reflexivity.
  - rewrite (alist_set_get_other _ _ _ _ E). auto.
Qed.

Lemma alist_update_mem_mono {V} k (pairs : list (string * V)) : forall l,
  alist_mem String.eqb k l = true ->
  alist_mem String.eqb k (alist_update String.eqb l pairs) = true.
Proof.
  unfold alist_update.
  induction pairs as [|[k' v'] tl IH]; intros l H; [exact H|].
  cbn [fold_left fst snd]. apply IH. apply alist_mem_set_mono. exact H.
Qed.

Lemma alist_update_mem {V} k (v : V) pairs : forall l,
  In (k, v) pairs ->
  alist_mem String.eqb k (alist_update String.eqb l pairs) = true.
Proof.
  unfold alist_update.
  induction pairs as [|[k' v'] tl IH]; intros l H; [destruct H|].
  destruct H as [H|H].
  - inversion H; subst. cbn [fold_left fst snd].
    apply (alist_update_mem_mono k tl). unfold alist_mem.
    rewrite alist_set_get_same. reflexivity.
  - cbn [fold_left]. apply IH. exact H.
Qed.

Lemma alist_set_keyed (repr : expr -> string) e l :
  Forall (fun kv => fst kv = repr (snd kv)) l ->
  Forall (fun kv => fst kv = repr (snd kv)) (alist_set String.eqb (repr e) e l).
Proof.
  induction 1 as [|[k v] tl Hx Hxs IH]; cbn [alist_set].
  - constructor; [reflexivity | constructor].
  - destruct (String.eqb (repr e) k) eqn:E.
    + apply String.eqb_eq in E. constructor; [cbn; congruence | exact Hxs].
    + constructor; assumption.
Qed.

Lemma alist_update_keyed (repr : expr -> string) (es : list expr) : forall l,
  Forall (fun kv => fst kv = repr (snd kv)) l ->
  Forall (fun kv => fst kv = repr (snd kv))
         (alist_update String.eqb l (List.map (fun e => (repr e, e)) es)).
Proof.
  unfold alist_update.
  induction es as [|e es IH]; intros l H; [exact H|].
  cbn [List.map fold_left fst snd]. apply IH. apply alist_set_keyed. exact H.
Qed.

Lemma alist_mem_combine {V} k (l : list (string * expr)) : forall (vs : list V),
  List.length vs = List.length l ->
  alist_mem String.eqb k (combine (List.map fst l) vs) =
  alist_mem String.eqb k l.
Proof.
  unfold alist_mem.
  induction l as [|[k' e] tl IH]; intros vs Hlen; [reflexivity|].
  destruct vs as [|v vs]; [discriminate|].
  cbn [List.map combine alist_get fst].
  destruct (String.eqb k k'); [reflexivity|].
  apply IH. cbn in Hlen. lia.
Qed.

Lemma combine_snd_Forall {A B} (P : B -> Prop) (ks : list A) (vs : list B) :
  Forall P vs -> Forall P (List.map snd (combine ks vs)).
Proof.
  intros H. revert ks. induction H as [|v vs Hv Hvs IH]; intros [|k ks];
    cbn [combine List.map]; constructor; auto.
Qed.

(** One round: the right-hand side loses a node that is no symbol when
    the first recorded position is a proper target. *)
Lemma process_groups_measure repr groups :
  forall frozen h st inv_dep h' st' inv_dep' s,
  process_groups repr groups frozen h st inv_dep = Ok (h', st', inv_dep') ->
  get_stmt (hs_stmt h) st = Some s ->
  exists s',
    get_stmt (hs_stmt h) st' = Some s' /\
    inner_count (st_rhs s') <= inner_count (st_rhs s) /\
    is_Symbol (st_rhs s') = is_Symbol (st_rhs s) /\
    (forall d p ps rest,
        groups = (d, p :: ps) :: rest -> frozen = [] ->
        proper_target (st_rhs s) p ->
        inner_count (st_rhs s') < inner_count (st_rhs s)).
Proof.
  induction groups as [|[d paths] rest IH];
    intros frozen h st inv_dep h' st' inv_dep' s H Hs.
  - inversion H; subst. exists s. repeat split; auto. intros; discriminate.
  - cbn [process_groups] in H. rewrite Hs in H.
    destruct (placement (hs_info h) st d) as [[[pl wrap] next]|]; [|discriminate].
    cbn [bind fst snd] in H.
    destruct (mapM (fun l => lookup_loop l st) wrap) as [wrap_nodes|]; [|discriminate].
    cbn [bind] in H.
    set (al := alist_update String.eqb []
                 (List.map (fun p => (repr (obj_value (st_rhs s) frozen p),
                                      obj_value (st_rhs s) frozen p)) paths)) in *.
    set (syms := List.map
                   (fun nm => Symbol (Str nm)
                                (List.map Str (List.map loop_dim wrap_nodes)) [])
                   (List.map (fun i => _hoisted_sym d (hs_expr_id h) (hs_counter h) i)
                             (seq 0 (List.length (List.map snd al))))) in *.
    set (tr := combine (List.map repr (List.map snd al)) syms) in *.
    assert (Htr : Forall (fun v => is_Symbol v = true) (List.map snd tr)).
    { subst tr. apply combine_snd_Forall. subst syms.
      rewrite Forall_forall. intros v Hv. apply in_map_iff in Hv.
      destruct Hv as (nm & <- & _). reflexivity. }
    destruct (ast_replace repr tr (st_rhs s)) as [rhs' n_replaced] eqn:Er.
    pose proof (ast_replace_inner_le repr tr Htr (st_rhs s)) as Hle.
    pose proof (ast_replace_is_Symbol repr tr (st_rhs s)) as Hsy.
    rewrite Er in Hle, Hsy. cbn [fst] in Hle, Hsy.
    apply IH with (s := mkStmt (st_kind s) (st_lhs s) rhs') in H.
    2:{ cbn [hs_stmt]. unfold get_stmt.
        cbn [stmts set_expr_graph set_hoisted set_decls].
        apply (get_stmt_set_rhs_same (hs_stmt h) rhs' st s Hs). }
    cbn [hs_stmt st_rhs] in H.
    destruct H as (s' & Gs' & Hle' & Hsy' & _).
    exists s'. split; [exact Gs'|]. split; [lia|]. split; [congruence|].
    intros d0 p ps rest0 Eg Ef [Hp (t & Ht & Hns)].
    inversion Eg; subst d0 paths rest0. subst frozen.
    apply Nat.le_lt_trans with (m := inner_count rhs'); [exact Hle'|].
    pose proof (ast_replace_inner_lt repr tr Htr p (st_rhs s) t Ht Hns) as Hlt.
    rewrite Er in Hlt. apply Hlt.
    apply (hit_on_path_target repr tr p (st_rhs s) t Hp Ht).
    assert (Hkeyed : Forall (fun kv => fst kv = repr (snd kv)) al).
    { subst al.
      rewrite <- (map_map (obj_value (st_rhs s) [])
                          (fun e => (repr e, e)) (p :: ps)).
      apply alist_update_keyed. constructor. }
    assert (Hfst : List.map repr (List.map snd al) = List.map fst al).
    { clear - Hkeyed. induction Hkeyed as [|[k v] tl Hx Hxs IHk]; [reflexivity|].
      cbn [List.map fst snd] in *. rewrite IHk. congruence. }
    subst tr. rewrite Hfst. rewrite alist_mem_combine.
    2:{ subst syms. rewrite !length_map, length_seq. reflexivity. }
    subst al. apply (alist_update_mem _ t). left.
    unfold obj_value. cbn [alist_get]. rewrite Ht. reflexivity.
Qed.

Lemma inner_count_pos e : is_Symbol e = false -> 1 <= inner_count e.
Proof. rewrite (inner_count_children e). intros ->. lia. Qed.

Lemma inner_le_node_count e : inner_count e <= node_count e.
Proof.
  induction e as [s r o|c IH|l r IHl IHr|l r IHl IHr|l r IHl IHr|l r IHl IHr
                 |c IH|f args IHargs] using expr_rect';
    cbn [inner_count node_count]; try lia.
  apply le_n_S. induction IHargs as [|a args Ha Hargs IH]; [reflexivity|]. lia.
Qed.

Lemma node_count_pos e : 1 <= node_count e.
Proof. destruct e; cbn [node_count]; lia. Qed.

Lemma records_ok_empty e0 dims : records_ok e0 dims (mkExtraction [] false).
Proof.
  split; cbn [dep_subexprs extracted].
  - intros d ps [].
  - split; [discriminate | intros H; contradiction H; reflexivity].
Qed.

(** With [nrank_tmps] unset the [while True] loop needs no more rounds
    than the right-hand side has nodes that are no symbols, and one round
    at least. *)
Lemma licm_rounds_end repr oo fuel : forall h st inv_dep s,
  get_stmt (hs_stmt h) st = Some s ->
  1 <= fuel -> inner_count (st_rhs s) <= fuel ->
  licm_rounds repr false oo fuel h st inv_dep <> None.
Proof.
  induction fuel as [|fuel IH]; intros h st inv_dep s Hs H1 Hm; [lia|].
  cbn [licm_rounds]. rewrite Hs.
  destruct (_extract_exprs (hs_symbols h) (me_dims (hs_info h) st) false oo
              (st_rhs s) [] (mkExtraction [] false)) as [[r acc]|] eqn:Ex;
    [|discriminate].
  pose proof (extract_exprs_records (hs_symbols h) (me_dims (hs_info h) st) oo
                (st_rhs s) (st_rhs s) [] _ _ _ eq_refl
                (records_ok_empty _ _) Ex) as [Hg Hf].
  destruct (extracted acc) eqn:Ea; cbn [negb]; [|discriminate].
  destruct (process_groups repr (dep_subexprs acc) [] _ st inv_dep)
    as [[[h2 st2] inv2]|] eqn:Ep; [|discriminate].
  destruct (dep_subexprs acc) as [|[d ps] rest] eqn:Ed;
    [exfalso; apply (proj1 Hf); reflexivity|].
  destruct (Hg d ps (or_introl eq_refl)) as (Hne & _ & Hq).
  destruct ps as [|p ps]; [contradiction|].
  pose proof (Hq p (or_introl eq_refl)) as Hp.
  pose proof (process_groups_frame _ _ _ _ _ _ _ _ _ Ep) as (_ & _ & Hst2 & _).
  destruct (process_groups_measure _ _ _ _ _ _ _ _ _ s Ep Hs)
    as (s' & Gs' & _ & Hsy & Hlt).
  specialize (Hlt d p ps rest eq_refl eq_refl Hp).
  cbn [hs_stmt] in Gs', Hst2.
  destruct Hp as (Hpne & t & Ht & Hns).
  pose proof (subtree_not_Symbol _ _ _ Ht Hns) as Hroot.
  assert (Hroot' : is_Symbol (st_rhs s) = false).
  { destruct p; [contradiction|]. cbn [subtree_at] in Ht.
    destruct (st_rhs s); try reflexivity. destruct n; discriminate. }
  pose proof (inner_count_pos (st_rhs s')) as Hpos.
  rewrite Hsy, Hroot' in Hpos. specialize (Hpos eq_refl).
  apply (IH h2 st2 inv2 s'); [rewrite Hst2; exact Gs' | lia | lia].
Qed.

(** X1. With [nrank_tmps] unset, [licm] returns (a result or an
    exception) as soon as it may run as many rounds as the right-hand
    side of its statement has nodes: every extracting round takes a node
    that is no symbol out of the right-hand side, and the root stays. *)
Theorem licm_returns_within_node_count :
  forall repr visit oo fuel h st s,
    get_stmt (hs_stmt h) st = Some s ->
    node_count (st_rhs s) <= fuel ->
    exists r, licm repr visit false oo fuel h st = Some r.
Proof.
  intros repr visit oo fuel h st s Hs Hn. unfold licm.
  destruct (_check_loops (hs_info h) st); cbn [negb]; [|eexists; reflexivity].
  pose proof (licm_rounds_end repr oo fuel
                (mkHoister (hs_stmt h) (hs_info h) (hs_expr_id h) (hs_counter h)
                           (visit (header st) (stmts st)))
                st [] s Hs) as Hend.
  pose proof (node_count_pos (st_rhs s)) as Hpos.
  pose proof (inner_le_node_count (st_rhs s)) as Hle.
  specialize (Hend ltac:(lia) ltac:(lia)).
  destruct (licm_rounds repr false oo fuel _ st []) as [[[[h1 st1] inv1]|e]|];
    [|eexists; reflexivity|contradiction].
  destruct (insert_all (sorted_items inv1) st1); eexists; reflexivity.
Qed.

Lemma licm_returns_within_node_count_witness :
  get_stmt (hs_stmt (fst (hoister_ij rhs_two_sums))) (snd (hoister_ij rhs_two_sums))
    = Some (mkStmt Incr (sym_ "X" ["i"; "j"]) rhs_two_sums) /\
  node_count rhs_two_sums <= 9 /\
  exists r,
    licm gencode rank_symbols_dep false false 9
         (fst (hoister_ij rhs_two_sums)) (snd (hoister_ij rhs_two_sums)) = Some r.
Proof.
  split; [reflexivity|]. split; [vm_compute; lia|].
  apply (licm_returns_within_node_count gencode rank_symbols_dep false 9
           (fst (hoister_ij rhs_two_sums)) (snd (hoister_ij rhs_two_sums))
           (mkStmt Incr (sym_ "X" ["i"; "j"]) rhs_two_sums)).
  - reflexivity.
  - vm_compute. lia.
Defined.

(** X2. With [nrank_tmps] unset, what [_extract_exprs] leaves in
    [dep_subexprs] for a right-hand side [e]: every group holds at least
    one node, its dependency consists of dimensions of the expression,
    every node recorded is a sub-expression of [e] below the root that is
    no [Symbol]; and [self.extracted] is set exactly when a group
    exists. *)
Theorem extract_exprs_records_proper_subtrees :
  forall symbols dims oo e r acc,
    _extract_exprs symbols dims false oo e [] (mkExtraction [] false)
      = Ok (r, acc) ->
    (forall d ps, In (d, ps) (dep_subexprs acc) ->
       ps <> [] /\ (forall x, In x d -> In x dims) /\
       (forall q, In q ps ->
          q <> [] /\ exists n, subtree_at e q = Some n /\ is_Symbol n = false)) /\
    (extracted acc = true <-> dep_subexprs acc <> []).
Proof.
  intros symbols dims oo e r acc H.
  exact (extract_exprs_records symbols dims oo e e [] _ _ _ eq_refl
           (records_ok_empty _ _) H).
Qed.

Lemma extract_exprs_records_proper_subtrees_witness :
  exists r acc,
    _extract_exprs (rank_symbols_dep [] []) ["i"; "j"] false false rhs_two_sums []
                   (mkExtraction [] false) = Ok (r, acc) /\
    dep_subexprs acc = [(["i"], [[0]]); (["j"], [[1]])] /\
    (forall d ps, In (d, ps) (dep_subexprs acc) ->
       ps <> [] /\ (forall x, In x d -> In x ["i"; "j"]) /\
       (forall q, In q ps ->
          q <> [] /\ exists n, subtree_at rhs_two_sums q = Some n /\
                               is_Symbol n = false)) /\
    (extracted acc = true <-> dep_subexprs acc <> []).
Proof.
  eexists. eexists. split; [vm_compute; reflexivity|]. split; [reflexivity|].
  eapply (extract_exprs_records_proper_subtrees (rank_symbols_dep [] [])
            ["i"; "j"] false rhs_two_sums).
  vm_compute. reflexivity.
Defined.

(** X3. [_extract_exprs] takes two children from every node that is
    neither a symbol, a call nor a parenthesis: on an expression without
    [Neg] it returns, and [licm] on a suitable nest raises [ValueError]
    when the right-hand side of its statement holds a [Neg]. *)
Theorem licm_raises_on_negation :
  (forall symbols dims nr oo e p acc,
      has_neg e = false ->
      exists r acc', _extract_exprs symbols dims nr oo e p acc = Ok (r, acc')) /\
  (forall repr visit nr oo fuel h st s,
      _check_loops (hs_info h) st = true ->
      get_stmt (hs_stmt h) st = Some s ->
      has_neg (st_rhs s) = true ->
      licm repr visit nr oo (S fuel) h st = Some (Raise ValueError)).
Proof.
  split.
  - intros symbols dims nr oo e p acc H.
    apply (proj2 (extract_exprs_neg symbols dims nr oo e p acc) H).
  - intros repr visit nr oo fuel h st s Hc Hs Hn. unfold licm. rewrite Hc.
    cbn [negb licm_rounds hs_stmt hs_info hs_symbols]. rewrite Hs.
    rewrite (proj1 (extract_exprs_neg _ _ nr oo (st_rhs s) [] _) Hn).
    reflexivity.
Qed.

Lemma licm_raises_on_negation_witness :
  (exists r acc',
      _extract_exprs (rank_symbols_dep [] []) ["i"; "j"] false false rhs_two_sums
                     [] (mkExtraction [] false) = Ok (r, acc')) /\
  licm gencode rank_symbols_dep false false 1
       (fst (hoister_ij rhs_negated)) (snd (hoister_ij rhs_negated))
    = Some (Raise ValueError).
Proof.
  destruct licm_raises_on_negation as [H1 H2]. split.
  - apply H1. reflexivity.
  - apply (H2 gencode rank_symbols_dep false false 0
              (fst (hoister_ij rhs_negated)) (snd (hoister_ij rhs_negated))
              (mkStmt Incr (sym_ "X" ["i"; "j"]) rhs_negated)); reflexivity.
Defined.

(** X4. A call of [licm] that returns keeps every loop of the AST, over
    the same dimension, and a loop that was not perfect is not perfect
    afterwards; it leaves every tracked statement but its own, and the
    tracked expressions. *)
Theorem licm_keeps_loops_and_other_statements :
  forall repr visit fuel h st h' st',
    licm repr visit false false fuel h st = Some (Ok (h', st')) ->
    (forall l n, find_loop l (header st) = Some n ->
       exists n', find_loop l (header st') = Some n' /\
                  loop_dim n' = loop_dim n /\
                  (is_perfect_loop n = false -> is_perfect_loop n' = false)) /\
    (forall sid, sid <> hs_stmt h -> get_stmt sid st' = get_stmt sid st) /\
    exprs st' = exprs st /\ hs_stmt h' = hs_stmt h /\ hs_info h' = hs_info h.
Proof.
  intros repr visit fuel h st h' st' H.
  destruct (licm_outcome _ _ _ _ _ _ _ H) as (Hs & Hi & He & G & Hg & _).
  split; [exact G|]. auto.
Qed.

Lemma licm_keeps_loops_and_other_statements_witness :
  exists h' st',
    licm gencode rank_symbols_dep false false 5
         (fst (hoister_ij rhs_two_sums)) (snd (hoister_ij rhs_two_sums))
      = Some (Ok (h', st')) /\
    List.length (header st') = 7 /\
    (forall l n, find_loop l (header (snd (hoister_ij rhs_two_sums))) = Some n ->
       exists n', find_loop l (header st') = Some n' /\
                  loop_dim n' = loop_dim n /\
                  (is_perfect_loop n = false -> is_perfect_loop n' = false)) /\
    (forall sid, sid <> 0 ->
       get_stmt sid st' = get_stmt sid (snd (hoister_ij rhs_two_sums))) /\
    exprs st' = exprs (snd (hoister_ij rhs_two_sums)) /\
    hs_stmt h' = 0 /\ hs_info h' = info_ij.
Proof.
  eexists. eexists. split; [vm_compute; reflexivity|].
  split; [reflexivity|].
  apply (licm_keeps_loops_and_other_statements gencode rank_symbols_dep 5
           (fst (hoister_ij rhs_two_sums)) (snd (hoister_ij rhs_two_sums))).
  vm_compute. reflexivity.
Defined.

(* ------------------------------------------------------------------ *)
(** * Identifiers and names *)

Lemma index_of_nth x l : forall i, index_of x l = Some i -> nth_error l i = Some x.
Proof.
  induction l as [|y tl IH]; intros i; cbn [index_of]; [discriminate|].
  destruct (Nat.eqb x y) eqn:E.
  - intros H. inversion H; subst. apply Nat.eqb_eq in E. subst. reflexivity.
  - destruct (index_of x tl) as [j|]; [|discriminate].
    intros H. inversion H; subst. cbn [nth_error]. apply IH. reflexivity.
Qed.

Lemma index_of_app_some x l ext : forall i,
  index_of x l = Some i -> index_of x (l ++ ext) = Some i.
Proof.
  induction l as [|y tl IH]; intros i; cbn [index_of app]; [discriminate|].
  destruct (Nat.eqb x y); [auto|].
  destruct (index_of x tl) as [j|]; [|discriminate].
  intros H. rewrite (IH j eq_refl). exact H.
Qed.

Lemma index_of_app_none x l :
  index_of x l = None -> index_of x (l ++ [x]) = Some (List.length l).
Proof.
  induction l as [|y tl IH]; cbn [index_of app List.length].
  - intros _. rewrite Nat.eqb_refl. reflexivity.
  - destruct (Nat.eqb x y); [discriminate|].
    destruct (index_of x tl) as [j|]; [discriminate|].
    intros _. rewrite (IH eq_refl). reflexivity.
Qed.

(** The identifier is the position of the first occurrence in the
    registry that [register] returns. *)
Lemma register_index stmt handled :
  index_of stmt (fst (register stmt handled)) = Some (snd (register stmt handled)).
Proof.
  unfold register. destruct (index_of stmt handled) as [i|] eqn:E; cbn [fst snd].
  - exact E.
  - apply index_of_app_none. exact E.
Qed.

Lemma register_known stmt handled i :
  index_of stmt handled = Some i -> register stmt handled = (handled, i).
Proof. intros H. unfold register. rewrite H. reflexivity. Qed.

(** X5. The identifier that a hoister reads off the registry is the
    position of its statement there; a hoister made later for the same
    statement, whatever was registered in between, gets the same
    identifier and adds nothing to the registry, and a hoister for another
    statement gets a different one. *)
Theorem hoister_expr_id_stable :
  forall stmt info st ext,
    nth_error (hoister_handled (snd (Hoister_init stmt info st)))
              (hs_expr_id (fst (Hoister_init stmt info st))) = Some stmt /\
    (forall info' st2,
        hoister_handled st2
          = hoister_handled (snd (Hoister_init stmt info st)) ++ ext ->
        hs_expr_id (fst (Hoister_init stmt info' st2))
          = hs_expr_id (fst (Hoister_init stmt info st)) /\
        hoister_handled (snd (Hoister_init stmt info' st2)) = hoister_handled st2) /\
    (forall other info' st2,
        other <> stmt ->
        hoister_handled st2
          = hoister_handled (snd (Hoister_init stmt info st)) ++ ext ->
        hs_expr_id (fst (Hoister_init other info' st2))
          <> hs_expr_id (fst (Hoister_init stmt info st))).
Proof.
  intros stmt info st ext.
  pose proof (register_index stmt (hoister_handled st)) as Hidx.
  unfold Hoister_init.
  destruct (register stmt (hoister_handled st)) as [reg1 id] eqn:Er.
  cbn [fst snd hs_expr_id hoister_handled set_hoister_handled] in *.
  split; [apply index_of_nth; exact Hidx|]. split.
  - intros info' st2 H2.
    rewrite (register_known stmt (hoister_handled st2) id)
      by (rewrite H2; apply index_of_app_some; exact Hidx).
    cbn [fst snd hs_expr_id hoister_handled set_hoister_handled]. auto.
  - intros other info' st2 Hne H2.
    pose proof (register_index other (hoister_handled st2)) as Hidx2.
    destruct (register other (hoister_handled st2)) as [reg2 id2] eqn:Er2.
    cbn [fst snd hs_expr_id] in *.
    intros ->.
    apply index_of_nth in Hidx2.
    assert (Hreg2 : exists ext2, reg2 = reg1 ++ ext2).
    { unfold register in Er2.
      destruct (index_of other (hoister_handled st2)); inversion Er2; subst.
      - exists ext. exact H2.
      - exists (ext ++ [other]). rewrite H2, app_assoc. reflexivity. }
    destruct Hreg2 as (ext2 & ->).
    apply index_of_nth in Hidx.
    pose proof (nth_error_Some reg1 id) as Hlt.
    rewrite Hidx in Hlt.
    rewrite nth_error_app1 in Hidx2 by (apply Hlt; discriminate).
    congruence.
Qed.

Lemma hoister_expr_id_stable_witness :
  hs_expr_id (fst (Hoister_init 7 info_ij (state_ij rhs_two_sums))) = 0 /\
  hs_expr_id (fst (Hoister_init 7 info_ijk
                     (set_hoister_handled [7; 3; 9] (state_ij rhs_two_sums)))) = 0 /\
  hs_expr_id (fst (Hoister_init 9 info_ij
                     (set_hoister_handled [7; 3; 9] (state_ij rhs_two_sums)))) <> 0.
Proof.
  destruct (hoister_expr_id_stable 7 info_ij (state_ij rhs_two_sums) [3; 9])
    as (H1 & H2 & H3).
  split; [reflexivity|]. split.
  - apply (H2 info_ijk (set_hoister_handled [7; 3; 9] (state_ij rhs_two_sums))).
    reflexivity.
  - apply (H3 9 info_ij (set_hoister_handled [7; 3; 9] (state_ij rhs_two_sums))).
    + discriminate.
    + reflexivity.
Defined.

Lemma string_of_uint_no_underscore d :
  no_underscore (NilEmpty.string_of_uint d) = true.
Proof. induction d; cbn; auto. Qed.

Lemma fmt_d_no_underscore n : no_underscore (fmt_d n) = true.
Proof. apply string_of_uint_no_underscore. Qed.

Lemma fmt_d_inj n m : fmt_d n = fmt_d m -> n = m.
Proof.
  unfold fmt_d. intros H.
  apply (f_equal NilEmpty.uint_of_string) in H.
  rewrite !NilEmpty.usu in H. inversion H as [H'].
  apply DecimalNat.Unsigned.to_uint_inj. exact H'.
Qed.

Lemma append_cancel_prefix (s a b : string) :
  (s ++ a)%string = (s ++ b)%string -> a = b.
Proof.
  induction s as [|c s IH]; cbn [String.append]; [auto|].
  intros H. inversion H. auto.
Qed.

Lemma split_at_underscore (a : string) : forall a' b b',
  no_underscore a = true -> no_underscore a' = true ->
  (a ++ String "_" b)%string = (a' ++ String "_" b')%string ->
  a = a' /\ b = b'.
Proof.
  induction a as [|c a IH]; intros [|c' a'] b b' Ha Ha' H;
    cbn [String.append no_underscore] in *.
  - inversion H. auto.
  - inversion H; subst. rewrite Ascii.eqb_refl in Ha'. discriminate.
  - inversion H; subst. rewrite Ascii.eqb_refl in Ha. discriminate.
  - inversion H; subst.
    apply andb_true_iff in Ha, Ha'.
    destruct (IH a' b b' (proj2 Ha) (proj2 Ha') H2) as [-> ->]. auto.
Qed.

(** X6. For one dependency, the names that the template
    [_hoisted_sym] gives to different triples of expression identifier,
    round and index are different. *)
Theorem hoisted_sym_injective :
  forall d id r i id' r' i',
    (id, r, i) <> (id', r', i') ->
    _hoisted_sym d id r i <> _hoisted_sym d id' r' i'.
Proof.
  intros d id r i id' r' i' Hne H. apply Hne. clear Hne.
  unfold _hoisted_sym in H.
  apply append_cancel_prefix in H.
  change ("_" ++ ?x)%string with (String "_" x) in H.
  inversion H as [H1]. clear H.
  change (fmt_d id ++ String "_" (fmt_d r ++ String "_" (fmt_d i)) =
          fmt_d id' ++ String "_" (fmt_d r' ++ String "_" (fmt_d i')))%string in H1.
  apply split_at_underscore in H1; try apply fmt_d_no_underscore.
  destruct H1 as [Hid H2].
  apply split_at_underscore in H2; try apply fmt_d_no_underscore.
  destruct H2 as [Hr Hi].
  apply fmt_d_inj in Hid, Hr, Hi. congruence.
Qed.

Lemma hoisted_sym_injective_witness :
  _hoisted_sym ["i"] 0 1 0 = "I_0_1_0" /\
  _hoisted_sym ["i"] 0 1 0 <> _hoisted_sym ["i"] 0 11 0 /\
  _hoisted_sym ["i"] 1 1 0 <> _hoisted_sym ["i"] 11 0 0.
Proof.
  split; [reflexivity|]. split.
  - apply (hoisted_sym_injective ["i"] 0 1 0 0 11 0). discriminate.
  - apply (hoisted_sym_injective ["i"] 1 1 0 11 0 0). discriminate.
Defined.

(* ------------------------------------------------------------------ *)
(** * Unrolling and transposition *)

Lemma update_offsets_compose var (a b : Z) rank : forall offset,
  List.map (fun ro : atom * (Z * Z) =>
              if atom_eqb (fst ro) (Str var)
              then (fst (snd ro), (snd (snd ro) + a)%Z) else snd ro)
           (combine rank
              (List.map (fun ro : atom * (Z * Z) =>
                           if atom_eqb (fst ro) (Str var)
                           then (fst (snd ro), (snd (snd ro) + b)%Z) else snd ro)
                        (combine rank offset))) =
  List.map (fun ro : atom * (Z * Z) =>
              if atom_eqb (fst ro) (Str var)
              then (fst (snd ro), (snd (snd ro) + (b + a))%Z) else snd ro)
           (combine rank offset).
Proof.
  induction rank as [|r rank IH]; intros [|o offset]; try reflexivity.
  cbn [combine List.map fst snd]. rewrite IH. f_equal.
  destruct (atom_eqb r (Str var)); [|reflexivity].
  cbn [fst snd]. f_equal. apply eq_sym, Z.add_assoc.
Qed.

(** X7. Two offsets added along the same iteration variable add up:
    the clone number [k + 1] of a statement is the clone number [k] moved
    by one more. *)
Theorem update_expr_compose :
  forall var a b e,
    update_expr var a (update_expr var b e) = update_expr var (b + a)%Z e.
Proof.
  intros var a b.
  induction e as [s r o|c IH|l r IHl IHr|l r IHl IHr|l r IHl IHr|l r IHl IHr
                 |c IH|f args IHargs] using expr_rect';
    cbn [update_expr]; try congruence.
  - f_equal.
    destruct r as [|r0 r].
    + destruct o; reflexivity.
    + set (o0 := if is_nil o then List.map (fun _ => (1%Z, 0%Z)) (r0 :: r) else o).
      assert (Ho0 : exists x xs, o0 = x :: xs).
      { subst o0. destruct o as [|x xs]; cbn; eauto. }
      destruct Ho0 as (x & xs & Ho0). rewrite Ho0.
      cbn [combine List.map is_nil fst snd].
      rewrite update_offsets_compose. f_equal.
      destruct (atom_eqb r0 (Str var)); [|reflexivity].
      cbn [fst snd]. f_equal. apply eq_sym, Z.add_assoc.
  - f_equal. induction IHargs as [|x xs Hx Hxs IH]; [reflexivity|].
    cbn [List.map]. rewrite Hx, IH. reflexivity.
Qed.

Lemma transpose_expr_outcome tt e :
  (existsb (short_rank tt) (symbols_of e) = true ->
   transpose_expr tt e = Raise IndexError) /\
  (existsb (short_rank tt) (symbols_of e) = false ->
   exists e', transpose_expr tt e = Ok e').
Proof.
  induction e as [s r o|c IH|l r IHl IHr|l r IHl IHr|l r IHl IHr|l r IHl IHr
                 |c IH|f args IHargs] using expr_rect'.
  - cbn [symbols_of existsb transpose_expr]. unfold short_rank.
    cbn [sym_name sym_rank]. rewrite orb_false_r.
    destruct (existsb (atom_eqb s) tt); cbn [andb].
    + destruct r as [|r0 [|r1 r]]; cbn; split; intros H;
        try discriminate; try reflexivity; eexists; reflexivity.
    + split; [discriminate|]. intros _. eexists. reflexivity.
  - cbn [symbols_of transpose_expr]. destruct IH as [IH1 IH2]. split; intros H.
    + rewrite (IH1 H). reflexivity.
    + destruct (IH2 H) as (c' & ->). eexists. reflexivity.
  - cbn [symbols_of transpose_expr]. rewrite existsb_app.
    destruct IHl as [L1 L2], IHr as [R1 R2]. split; intros H.
    + destruct (existsb (short_rank tt) (symbols_of l)) eqn:El.
      * rewrite (L1 eq_refl). reflexivity.
      * destruct (L2 eq_refl) as (l' & ->). cbn [bind]. rewrite (R1 H). reflexivity.
    + apply orb_false_iff in H. destruct H as [Hl Hr].
      destruct (L2 Hl) as (l' & ->). destruct (R2 Hr) as (r' & ->).
      eexists. reflexivity.
  - cbn [symbols_of transpose_expr]. rewrite existsb_app.
    destruct IHl as [L1 L2], IHr as [R1 R2]. split; intros H.
    + destruct (existsb (short_rank tt) (symbols_of l)) eqn:El.
      * rewrite (L1 eq_refl). reflexivity.
      * destruct (L2 eq_refl) as (l' & ->). cbn [bind]. rewrite (R1 H). reflexivity.
    + apply orb_false_iff in H. destruct H as [Hl Hr].
      destruct (L2 Hl) as (l' & ->). destruct (R2 Hr) as (r' & ->).
      eexists. reflexivity.
  - cbn [symbols_of transpose_expr]. rewrite existsb_app.
    destruct IHl as [L1 L2], IHr as [R1 R2]. split; intros H.
    + destruct (existsb (short_rank tt) (symbols_of l)) eqn:El.
      * rewrite (L1 eq_refl). reflexivity.
      * destruct (L2 eq_refl) as (l' & ->). cbn [bind]. rewrite (R1 H). reflexivity.
    + apply orb_false_iff in H. destruct H as [Hl Hr].
      destruct (L2 Hl) as (l' & ->). destruct (R2 Hr) as (r' & ->).
      eexists. reflexivity.
  - cbn [symbols_of transpose_expr]. rewrite existsb_app.
    destruct IHl as [L1 L2], IHr as [R1 R2]. split; intros H.
    + destruct (existsb (short_rank tt) (symbols_of l)) eqn:El.
      * rewrite (L1 eq_refl). reflexivity.
      * destruct (L2 eq_refl) as (l' & ->). cbn [bind]. rewrite (R1 H). reflexivity.
    + apply orb_false_iff in H. destruct H as [Hl Hr].
      destruct (L2 Hl) as (l' & ->). destruct (R2 Hr) as (r' & ->).
      eexists. reflexivity.
  - cbn [symbols_of transpose_expr]. destruct IH as [IH1 IH2]. split; intros H.
    + rewrite (IH1 H). reflexivity.
    + destruct (IH2 H) as (c' & ->). eexists. reflexivity.
  - cbn [symbols_of transpose_expr].
    assert (G :
      (existsb (short_rank tt)
         ((fix go (l : list expr) : list expr :=
             match l with [] => [] | x :: xs => symbols_of x ++ go xs end) args)
         = true ->
       (fix go (l : list expr) : result (list expr) :=
          match l with
          | [] => Ok []
          | x :: xs =>
              x' <- transpose_expr tt x ;; xs' <- go xs ;; Ok (x' :: xs')
          end) args = Raise IndexError) /\
      (existsb (short_rank tt)
         ((fix go (l : list expr) : list expr :=
             match l with [] => [] | x :: xs => symbols_of x ++ go xs end) args)
         = false ->
       exists args',
       (fix go (l : list expr) : result (list expr) :=
          match l with
          | [] => Ok []
          | x :: xs =>
              x' <- transpose_expr tt x ;; xs' <- go xs ;; Ok (x' :: xs')
          end) args = Ok args')).
    { induction IHargs as [|a args [A1 A2] Hargs [G1 G2]].
      - split; [discriminate|]. intros _. eexists. reflexivity.
      - rewrite existsb_app. split; intros H.
        + destruct (existsb (short_rank tt) (symbols_of a)) eqn:Ea.
          * rewrite (A1 eq_refl). reflexivity.
          * destruct (A2 eq_refl) as (a' & ->). cbn [bind].
            rewrite (G1 H). reflexivity.
        + apply orb_false_iff in H. destruct H as [Ha Hr].
          destruct (A2 Ha) as (a' & ->). destruct (G2 Hr) as (args' & ->).
          eexists. reflexivity. }
    destruct G as [G1 G2]. split; intros H.
    + rewrite (G1 H). reflexivity.
    + destruct (G2 H) as (args' & ->). eexists. reflexivity.
Qed.

Lemma transpose_expr_ok_or_index tt e :
  (exists e', transpose_expr tt e = Ok e') \/
  transpose_expr tt e = Raise IndexError.
Proof.
  destruct (existsb (short_rank tt) (symbols_of e)) eqn:E.
  - right. apply (proj1 (transpose_expr_outcome tt e) E).
  - left. apply (proj2 (transpose_expr_outcome tt e) E).
Qed.

Lemma mapM_ok_or_index {A B} (f : A -> result B) l :
  (forall x, (exists y, f x = Ok y) \/ f x = Raise IndexError) ->
  (exists ys, mapM f l = Ok ys) \/ mapM f l = Raise IndexError.
Proof.
  intros Hf. induction l as [|x xs IH]; cbn [mapM].
  - left. eexists. reflexivity.
  - destruct (Hf x) as [(y & ->)| ->]; [|right; reflexivity]. cbn [bind].
    destruct IH as [(ys & ->)| ->]; [left; eexists|right]; reflexivity.
Qed.

Lemma mapM_raises_index {A B} (f : A -> result B) l x :
  (forall x, (exists y, f x = Ok y) \/ f x = Raise IndexError) ->
  In x l -> f x = Raise IndexError -> mapM f l = Raise IndexError.
Proof.
  intros Hf. induction l as [|a l IH]; intros Hin Hx; [destruct Hin|].
  cbn [mapM]. destruct Hin as [->|Hin].
  - rewrite Hx. reflexivity.
  - destruct (Hf a) as [(y & ->)| ->]; [|reflexivity]. cbn [bind].
    rewrite (IH Hin Hx). reflexivity.
Qed.

Lemma transpose_node_ok_or_index tt n :
  (exists n', transpose_node tt n = Ok n') \/
  transpose_node tt n = Raise IndexError.
Proof.
  induction n as [l d s i p body IHbody|d|sid|w lhs rhs|text] using node_rect'.
  - cbn [transpose_node].
    assert (G :
      (exists body',
        (fix go (ns : list node) : result (list node) :=
           match ns with
           | [] => Ok []
           | x :: xs =>
               x' <- transpose_node tt x ;; xs' <- go xs ;; Ok (x' :: xs')
           end) body = Ok body') \/
      (fix go (ns : list node) : result (list node) :=
         match ns with
         | [] => Ok []
         | x :: xs =>
             x' <- transpose_node tt x ;; xs' <- go xs ;; Ok (x' :: xs')
         end) body = Raise IndexError).
    { induction IHbody as [|x xs Hx Hxs IH].
      - left. eexists. reflexivity.
      - destruct Hx as [(x' & ->)| ->]; [|right; reflexivity]. cbn [bind].
        destruct IH as [(xs' & ->)| ->]; [left; eexists|right]; reflexivity. }
    destruct G as [(body' & ->)| ->]; [left; eexists|right]; reflexivity.
  - cbn [transpose_node].
    destruct (transpose_expr_ok_or_index tt (sym d)) as [(s' & ->)| ->];
      [left; eexists|right]; reflexivity.
  - left. eexists. reflexivity.
  - cbn [transpose_node].
    destruct (transpose_expr_ok_or_index tt lhs) as [(l' & ->)| ->];
      [|right; reflexivity].
    cbn [bind].
    destruct (transpose_expr_ok_or_index tt rhs) as [(r' & ->)| ->];
      [left; eexists|right]; reflexivity.
  - left. eexists. reflexivity.
Qed.

(** X8. The transposition of the layout raises [IndexError] exactly
    when it meets a symbol that is named among the symbols to transpose
    and has fewer than two indices; so does the transposition of the
    header when a tracked statement holds such a symbol. The names are
    those of all the symbols of the innermost loop, its vectors and
    scalars included. *)
Theorem transpose_needs_two_indices :
  (forall to_transpose e,
      (existsb (short_rank to_transpose) (symbols_of e) = true ->
       transpose_expr to_transpose e = Raise IndexError) /\
      (existsb (short_rank to_transpose) (symbols_of e) = false ->
       exists e', transpose_expr to_transpose e = Ok e')) /\
  (forall to_transpose st sid s,
      to_transpose <> [] ->
      In (sid, s) (stmts st) ->
      existsb (short_rank to_transpose)
              (symbols_of (st_lhs s) ++ symbols_of (st_rhs s)) = true ->
      transpose_header to_transpose st = Raise IndexError).
Proof.
  split; [exact transpose_expr_outcome|].
  intros tt st sid s Hne Hin Hshort. unfold transpose_header.
  destruct tt as [|t0 tt0]; [contradiction|]. cbn [is_nil].
  destruct (mapM_ok_or_index (transpose_node (t0 :: tt0)) (header st)
              (transpose_node_ok_or_index (t0 :: tt0))) as [(hdr & ->)| ->];
    [|reflexivity].
  cbn [bind].
  rewrite (mapM_raises_index _ (stmts st) (sid, s)); [reflexivity| |exact Hin|].
  - intros [k v]. cbn [fst snd].
    destruct (transpose_expr_ok_or_index (t0 :: tt0) (st_lhs v)) as [(l' & ->)| ->];
      [|right; reflexivity].
    cbn [bind].
    destruct (transpose_expr_ok_or_index (t0 :: tt0) (st_rhs v)) as [(r' & ->)| ->];
      [left; eexists|right]; reflexivity.
  - cbn [fst snd]. rewrite existsb_app in Hshort.
    destruct (existsb (short_rank (t0 :: tt0)) (symbols_of (st_lhs s))) eqn:El.
    + rewrite (proj1 (transpose_expr_outcome _ _) El). reflexivity.
    + destruct (proj2 (transpose_expr_outcome _ _) El) as (l' & ->). cbn [bind].
      rewrite (proj1 (transpose_expr_outcome _ _) Hshort). reflexivity.
Qed.

Lemma transpose_needs_two_indices_witness :
  transpose_expr (List.map sym_name (symbols_of rhs_matrix_vector))
                 rhs_matrix_vector = Raise IndexError /\
  (exists e', transpose_expr [Str "A"] rhs_matrix_vector = Ok e') /\
  transpose_header [Str "X"; Str "A"; Str "B"] (state_ij rhs_matrix_vector)
    = Raise IndexError.
Proof.
  destruct transpose_needs_two_indices as [H1 H2]. split; [|split].
  - apply (proj1 (H1 (List.map sym_name (symbols_of rhs_matrix_vector))
                     rhs_matrix_vector)).
    reflexivity.
  - apply (proj2 (H1 [Str "A"] rhs_matrix_vector)). reflexivity.
  - apply (H2 [Str "X"; Str "A"; Str "B"] (state_ij rhs_matrix_vector) 0
              (mkStmt Incr (sym_ "X" ["i"; "j"]) rhs_matrix_vector)).
    + discriminate.
    + left. reflexivity.
    + reflexivity.
Defined.

(** X9. On an expression whose symbols to transpose all have exactly
    two indices the transposition succeeds, and transposing the result
    gives the expression back. *)
Theorem transpose_twice :
  forall to_transpose e,
    forallb (two_indices to_transpose) (symbols_of e) = true ->
    exists e', transpose_expr to_transpose e = Ok e' /\
               transpose_expr to_transpose e' = Ok e.
Proof.
  intros tt.
  induction e as [s r o|c IH|l r IHl IHr|l r IHl IHr|l r IHl IHr|l r IHl IHr
                 |c IH|f args IHargs] using expr_rect'.
  - cbn [symbols_of forallb transpose_expr]. unfold two_indices.
    cbn [sym_name sym_rank]. rewrite andb_true_r.
    destruct (existsb (atom_eqb s) tt) eqn:E; cbn [negb orb].
    + destruct r as [|r0 [|r1 [|r2 r]]]; try discriminate. intros _.
      eexists. split; [reflexivity|]. cbn [transpose_expr]. rewrite E. reflexivity.
    + intros _. eexists. split; [reflexivity|]. cbn [transpose_expr].
      rewrite E. reflexivity.
  - cbn [symbols_of transpose_expr]. intros H.
    destruct (IH H) as (c' & -> & E). eexists. split; [reflexivity|].
    cbn [bind transpose_expr]. rewrite E. reflexivity.
  - cbn [symbols_of transpose_expr]. rewrite forallb_app. intros H.
    apply andb_true_iff in H. destruct H as [Hl Hr].
    destruct (IHl Hl) as (l' & -> & El). destruct (IHr Hr) as (r' & -> & Er).
    eexists. split; [reflexivity|]. cbn [bind transpose_expr].
    rewrite El, Er. reflexivity.
  - cbn [symbols_of transpose_expr]. rewrite forallb_app. intros H.
    apply andb_true_iff in H. destruct H as [Hl Hr].
    destruct (IHl Hl) as (l' & -> & El). destruct (IHr Hr) as (r' & -> & Er).
    eexists. split; [reflexivity|]. cbn [bind transpose_expr].
    rewrite El, Er. reflexivity.
  - cbn [symbols_of transpose_expr]. rewrite forallb_app. intros H.
    apply andb_true_iff in H. destruct H as [Hl Hr].
    destruct (IHl Hl) as (l' & -> & El). destruct (IHr Hr) as (r' & -> & Er).
    eexists. split; [reflexivity|]. cbn [bind transpose_expr].
    rewrite El, Er. reflexivity.
  - cbn [symbols_of transpose_expr]. rewrite forallb_app. intros H.
    apply andb_true_iff in H. destruct H as [Hl Hr].
    destruct (IHl Hl) as (l' & -> & El). destruct (IHr Hr) as (r' & -> & Er).
    eexists. split; [reflexivity|]. cbn [bind transpose_expr].
    rewrite El, Er. reflexivity.
  - cbn [symbols_of transpose_expr]. intros H.
    destruct (IH H) as (c' & -> & E). eexists. split; [reflexivity|].
    cbn [bind transpose_expr]. rewrite E. reflexivity.
  - cbn [symbols_of transpose_expr]. intros H.
    assert (G : exists args',
      (fix go (l : list expr) : result (list expr) :=
         match l with
         | [] => Ok []
         | x :: xs =>
             x' <- transpose_expr tt x ;; xs' <- go xs ;; Ok (x' :: xs')
         end) args = Ok args' /\
      (fix go (l : list expr) : result (list expr) :=
         match l with
         | [] => Ok []
         | x :: xs =>
             x' <- transpose_expr tt x ;; xs' <- go xs ;; Ok (x' :: xs')
         end) args' = Ok args).
    { revert H. induction IHargs as [|a args Ha Hargs IH]; intros H.
      - exists []. split; reflexivity.
      - rewrite forallb_app in H. apply andb_true_iff in H. destruct H as [H1 H2].
        destruct (Ha H1) as (a' & -> & Ea).
        destruct (IH H2) as (args' & -> & Eargs).
        exists (a' :: args'). split; [reflexivity|].
        rewrite Ea. cbn [bind]. rewrite Eargs. reflexivity. }
    destruct G as (args' & -> & E). eexists. split; [reflexivity|].
    cbn [bind transpose_expr]. rewrite E. reflexivity.
Qed.

Lemma transpose_twice_witness :
  transpose_expr [Str "A"] rhs_matrix_vector
    = Ok (Prod (sym_ "A" ["j"; "i"]) (sym_ "B" ["j"])) /\
  exists e', transpose_expr [Str "A"] rhs_matrix_vector = Ok e' /\
             transpose_expr [Str "A"] e' = Ok rhs_matrix_vector.
Proof.
  split; [reflexivity|].
  apply (transpose_twice [Str "A"] rhs_matrix_vector). reflexivity.
Defined.

(* ------------------------------------------------------------------ *)
(** * When the expander and the factorizer leave the statement *)

Lemma alist_set_same_nat {V} k (v : V) l :
  alist_get Nat.eqb k l = Some v -> alist_set Nat.eqb k v l = l.
Proof.
  induction l as [|[k' v'] tl IH]; cbn [alist_get alist_set]; [discriminate|].
  destruct (Nat.eqb k k'); intros H.
  - inversion H; subst. reflexivity.
  - rewrite (IH H). reflexivity.
Qed.

(** Writing back the right-hand side that is there changes nothing. *)
Lemma set_rhs_same sid st s :
  get_stmt sid st = Some s -> set_rhs sid (st_rhs s) st = st.
Proof.
  intros H. unfold set_rhs. rewrite H. destruct s as [k l r]. cbn [st_kind st_lhs st_rhs].
  unfold get_stmt in H. rewrite (alist_set_same_nat _ _ _ H).
  destruct st; reflexivity.
Qed.

Lemma expand_nothing should_expand e :
  has_neg e = false ->
  (forall y, In y (symbols_of e) -> should_expand y = false) ->
  exists items, _expand should_expand e = Ok (mkExpanded e items GRP []).
Proof.
  induction e as [s r o|c IH|l r IHl IHr|l r IHl IHr|l r IHl IHr|l r IHl IHr
                 |c IH|f args IHargs] using expr_rect';
    cbn [has_neg symbols_of _expand]; intros Hn Hs.
  - rewrite (Hs _ (or_introl eq_refl)). eexists. reflexivity.
  - destruct (IH Hn Hs) as (items & ->). eexists. reflexivity.
  - apply orb_false_iff in Hn. destruct Hn as [Hl Hr].
    destruct (IHl Hl (fun y Hy => Hs y (in_or_app _ _ _ (or_introl Hy))))
      as (il & ->).
    destruct (IHr Hr (fun y Hy => Hs y (in_or_app _ _ _ (or_intror Hy))))
      as (ir & ->).
    eexists. reflexivity.
  - apply orb_false_iff in Hn. destruct Hn as [Hl Hr].
    destruct (IHl Hl (fun y Hy => Hs y (in_or_app _ _ _ (or_introl Hy))))
      as (il & ->).
    destruct (IHr Hr (fun y Hy => Hs y (in_or_app _ _ _ (or_intror Hy))))
      as (ir & ->).
    eexists. reflexivity.
  - apply orb_false_iff in Hn. destruct Hn as [Hl Hr].
    destruct (IHl Hl (fun y Hy => Hs y (in_or_app _ _ _ (or_introl Hy))))
      as (il & ->).
    destruct (IHr Hr (fun y Hy => Hs y (in_or_app _ _ _ (or_intror Hy))))
      as (ir & ->).
    eexists. reflexivity.
  - eexists. reflexivity.
  - discriminate.
  - eexists. reflexivity.
Qed.

(** X10. When no symbol of the right-hand side is a candidate for
    expansion, [ExpressionExpander.expand] returns with the expander and
    the state as they were: nothing is expanded and [_hoist] is not
    called. *)
Theorem expand_without_candidates :
  forall fusion should_expand x st s,
    get_stmt (ex_stmt x) st = Some s ->
    has_neg (st_rhs s) = false ->
    (forall y, In y (symbols_of (st_rhs s)) -> should_expand y = false) ->
    Expander_expand fusion should_expand x st = Ok (x, st).
Proof.
  intros fusion se x st s Hs Hn Hc. unfold Expander_expand. rewrite Hs.
  destruct (expand_nothing se (st_rhs s) Hn Hc) as (items & ->).
  cbn [bind x_node x_expansions]. rewrite (set_rhs_same _ _ _ Hs). reflexivity.
Qed.

Lemma expand_without_candidates_witness :
  Expander_expand no_fusion (static_const_in []) (fst (expander_ij rhs_two_sums))
                  (snd (expander_ij rhs_two_sums))
    = Ok (fst (expander_ij rhs_two_sums), snd (expander_ij rhs_two_sums)).
Proof.
  apply (expand_without_candidates no_fusion (static_const_in [])
           (fst (expander_ij rhs_two_sums)) (snd (expander_ij rhs_two_sums))
           (mkStmt Incr (sym_ "X" ["i"; "j"]) rhs_two_sums)).
  - reflexivity.
  - reflexivity.
  - intros y _. reflexivity.
Defined.




(* ------------------------------------------------------------------ *)
(** * The levels of [rewrite] and the 'standard' dimension *)

Lemma rewrite_stmt_no_dimension repr visit fusion fuel level stmt info st :
  (1 <= level)%Z -> me_dimension info = false ->
  rewrite_stmt repr visit fusion fuel level stmt info st =
  rewrite_stmt repr visit fusion fuel 1 stmt info st.
Proof.
  intros Hl Hd. unfold rewrite_stmt.
  destruct (Rewriter_init stmt info st) as [ew st0]. rewrite Hd, !andb_false_r.
  replace (0 <? level)%Z with true by (symmetry; apply Z.ltb_lt; lia).
  reflexivity.
Qed.

Lemma rewrite_all_no_dimension repr visit fusion fuel level items : forall st,
  (1 <= level)%Z ->
  forallb (fun it => negb (me_dimension (snd it))) items = true ->
  rewrite_all repr visit fusion fuel level items st =
  rewrite_all repr visit fusion fuel 1 items st.
Proof.
  induction items as [|[stmt info] tl IH]; intros st Hl Hd; [reflexivity|].
  cbn [forallb snd] in Hd. apply andb_true_iff in Hd. destruct Hd as [Hd Htl].
  apply negb_true_iff in Hd.
  cbn [rewrite_all]. rewrite (rewrite_stmt_no_dimension _ _ _ _ _ _ _ _ Hl Hd).
  unfold obind.
  destruct (rewrite_stmt repr visit fusion fuel 1 stmt info st) as [[st'|]|];
    try reflexivity.
  apply IH; assumption.
Qed.

(** X12. The expansion, the factorization and the second code motion
    of [rewrite] are for the expressions with a domain: when no tracked
    expression has one, [rewrite(level)] does for every level from 1 on
    what [rewrite(1)] does. *)
Theorem rewrite_without_domain_is_level1 :
  forall repr visit fusion fuel level st,
    (1 <= level)%Z ->
    forallb (fun it => negb (me_dimension (snd it))) (exprs st) = true ->
    rewrite repr visit fusion fuel level st = rewrite repr visit fusion fuel 1 st.
Proof.
  intros repr visit fusion fuel level st Hl Hd. unfold rewrite.
  apply rewrite_all_no_dimension; assumption.
Qed.

Lemma rewrite_without_domain_is_level1_witness :
  rewrite gencode rank_symbols_dep no_fusion 5 2 state_scalar
    = rewrite gencode rank_symbols_dep no_fusion 5 1 state_scalar /\
  exists st', rewrite gencode rank_symbols_dep no_fusion 5 2 state_scalar
                = Some (Ok st') /\
              rhs_of 0 st' = Some (Prod (sym_ "I_0_1_0" ["i"]) (sym_ "C" ["j"])).
Proof.
  split.
  - apply (rewrite_without_domain_is_level1 gencode rank_symbols_dep no_fusion
             5 2 state_scalar); [lia | reflexivity].
  - eexists. split; [vm_compute; reflexivity | reflexivity].
Defined.

Lemma most_common_fold (occ : list (list atom)) : forall l b,
  In b occ -> incl l occ ->
  In (fold_left (fun b r => if Nat.ltb (count_rank b occ) (count_rank r occ)
                            then r else b) l b) occ /\
  count_rank b occ <=
    count_rank (fold_left (fun b r => if Nat.ltb (count_rank b occ)
                                                 (count_rank r occ)
                                      then r else b) l b) occ /\
  (forall r, In r l ->
     count_rank r occ <=
     count_rank (fold_left (fun b r => if Nat.ltb (count_rank b occ)
                                                  (count_rank r occ)
                                       then r else b) l b) occ).
Proof.
  induction l as [|x l IH]; intros b Hb Hl; cbn [fold_left].
  - split; [exact Hb|]. split; [lia|]. intros r [].
  - assert (Hx : In x occ) by (apply Hl; left; reflexivity).
    assert (Hl' : incl l occ) by (intros y Hy; apply Hl; right; exact Hy).
    destruct (Nat.ltb (count_rank b occ) (count_rank x occ)) eqn:E.
    + apply Nat.ltb_lt in E.
      destruct (IH x Hx Hl') as (I1 & I2 & I3).
      split; [exact I1|]. split; [lia|].
      intros r [<-|Hr]; [exact I2 | apply I3; exact Hr].
    + apply Nat.ltb_ge in E.
      destruct (IH b Hb Hl') as (I1 & I2 & I3).
      split; [exact I1|]. split; [exact I2|].
      intros r [<-|Hr]; [lia | apply I3; exact Hr].
Qed.

(** X13. The dimension that the 'standard' strategy selects is one of
    the occurrences, the rank of a ranked symbol of the right-hand side
    cut down to the domain, and no occurrence is more frequent. *)
Theorem standard_dimension_most_common :
  forall rhs domain d,
    standard_dimension rhs domain = Ok d ->
    In d (occurrences rhs domain) /\
    forall r, In r (occurrences rhs domain) ->
      count_rank r (occurrences rhs domain)
        <= count_rank d (occurrences rhs domain).
Proof.
  intros rhs domain d. unfold standard_dimension.
  fold (occurrences rhs domain). unfold most_common_1.
  destruct (occurrences rhs domain) as [|r0 occ] eqn:Eo; [discriminate|].
  intros H. inversion H; subst d; clear H.
  destruct (most_common_fold (r0 :: occ) (r0 :: occ) r0 (or_introl eq_refl)
              (incl_refl _)) as (I1 & I2 & I3).
  split; [exact I1 | exact I3].
Qed.

Lemma standard_dimension_most_common_witness :
  standard_dimension
    (Sum (Prod (sym_ "A" ["i"]) (sym_ "B" ["j"]))
         (Prod (sym_ "A" ["i"]) (sym_ "C" ["k"]))) ["i"; "j"] = Ok [Str "i"] /\
  In [Str "i"]
     (occurrences (Sum (Prod (sym_ "A" ["i"]) (sym_ "B" ["j"]))
                       (Prod (sym_ "A" ["i"]) (sym_ "C" ["k"]))) ["i"; "j"]).
Proof.
  split; [reflexivity|].
  apply (standard_dimension_most_common
           (Sum (Prod (sym_ "A" ["i"]) (sym_ "B" ["j"]))
                (Prod (sym_ "A" ["i"]) (sym_ "C" ["k"]))) ["i"; "j"] [Str "i"]).
  reflexivity.
Defined.

(* ------------------------------------------------------------------ *)
(** * Unrolling by one *)

Lemma map_loop_in_fixed l f n :
  (forall x, f x = x) -> map_loop_in l f n = n.
Proof.
  intros Hf.
  induction n as [l' d s i pr body IHbody| | | |] using node_rect';
    try reflexivity.
  cbn [map_loop_in]. destruct (Nat.eqb l l'); [apply Hf|].
  f_equal. induction IHbody as [|x xs Hx Hxs IH]; [reflexivity|].
  cbn [List.map]. rewrite Hx, IH. reflexivity.
Qed.

Lemma bump_incr_zero l st : bump_incr l 0 st = st.
Proof.
  unfold bump_incr.
  assert (H : List.map (map_loop_in l (bump_loop 0)) (header st) = header st).
  { induction (header st) as [|x xs IH]; [reflexivity|].
    cbn [List.map]. rewrite IH. f_equal. apply map_loop_in_fixed.
    intros [l' d s i pr body| | | |]; try reflexivity.
    cbn [bump_loop]. rewrite Z.add_0_r. reflexivity. }
  rewrite H. destruct st; reflexivity.
Qed.

Lemma unroll_exprs_by_one itspace items : forall st new_exprs unrolled,
  exists unrolled',
    fold_left (unroll_expr itspace 1) items (st, new_exprs, unrolled)
    = (st, new_exprs, unrolled').
Proof.
  induction items as [|[stmt info] tl IH]; intros st ne U; cbn [fold_left].
  - exists U. reflexivity.
  - assert (H : exists U', unroll_expr itspace 1 (st, ne, U) (stmt, info)
                           = (st, ne, U')).
    { unfold unroll_expr.
      destruct (filter (fun l => String.eqb (loop_dim l) itspace)
                       (perfect_loops info st)) as [|loop rest];
        [exists U; reflexivity|].
      cbn [Z.sub Z.to_nat seq fold_left Z.add Z.opp Z.pos_sub].
      destruct (loop_id loop) as [l|]; [|exists U; reflexivity].
      destruct (existsb (Nat.eqb l) U); [exists U; reflexivity|].
      exists (U ++ [l]). rewrite bump_incr_zero. reflexivity. }
    destruct H as (U' & ->). apply IH.
Qed.

Lemma unroll_dim_by_one itspace st unrolled :
  exists unrolled', unroll_dim (st, unrolled) (itspace, 1%Z) = (st, unrolled').
Proof.
  unfold unroll_dim. cbn [fst snd].
  destruct (unroll_exprs_by_one itspace (exprs st) st [] unrolled) as (U' & ->).
  exists U'. unfold alist_update. cbn [fold_left]. destruct st; reflexivity.
Qed.

(** X14. An unroll factor of 1 asks for nothing: [unroll] with
    factors that are all 1 adds no statement, leaves every increment and
    returns the state as it was. *)
Theorem unroll_by_one_is_identity :
  forall loop_uf st,
    forallb (fun kv => Z.eqb (snd kv) 1) loop_uf = true ->
    unroll loop_uf st = st.
Proof.
  intros loop_uf st H. unfold unroll.
  assert (G : forall U, exists U',
             fold_left unroll_dim loop_uf (st, U) = (st, U')).
  { induction loop_uf as [|[d uf] tl IH]; intros U; cbn [fold_left].
    - exists U. reflexivity.
    - cbn [forallb snd] in H. apply andb_true_iff in H. destruct H as [H1 H2].
      apply Z.eqb_eq in H1. subst uf.
      destruct (unroll_dim_by_one d st U) as (U1 & ->). apply (IH H2). }
  destruct (G []) as (U' & ->). reflexivity.
Qed.

Lemma unroll_by_one_is_identity_witness :
  unroll [("i", 1%Z); ("j", 1%Z)] (state_ij rhs_two_sums) = state_ij rhs_two_sums.
Proof.
  apply (unroll_by_one_is_identity [("i", 1%Z); ("j", 1%Z)] (state_ij rhs_two_sums)).
  reflexivity.
Defined.

(* ------------------------------------------------------------------ *)
(** * Reassociation *)

Lemma insert_by_rank_perm x l : Permutation (insert_by_rank x l) (x :: l).
Proof.
  induction l as [|y l IH]; cbn [insert_by_rank]; [reflexivity|].
  destruct (rank_key_ltb y x); [|reflexivity].
  rewrite IH. apply perm_swap.
Qed.

Lemma sort_by_rank_perm l : Permutation (sort_by_rank l) l.
Proof.
  unfold sort_by_rank. induction l as [|x l IH]; cbn [fold_right]; [reflexivity|].
  rewrite insert_by_rank_perm. constructor. exact IH.
Qed.

Lemma symbols_of_FunCall f args :
  symbols_of (FunCall f args) = flat_map symbols_of args.
Proof.
  cbn [symbols_of]. induction args as [|a args IH]; [reflexivity|].
  cbn [flat_map]. rewrite IH. reflexivity.
Qed.

(** [ast_make_expr(Prod, children)] on at least one child. *)
Lemma make_product l :
  l <> [] ->
  exists e, ast_make_expr (Some OpProd) l = Ok (Some e) /\
            symbols_of e = flat_map symbols_of l.
Proof.
  induction l as [|n l IH]; intros Hne; [contradiction|].
  destruct l as [|m l].
  - exists n. split; [reflexivity|].
    cbn [flat_map]. rewrite app_nil_r. reflexivity.
  - destruct IH as (e & E & S); [discriminate|].
    exists (Prod n e). split.
    + change (ast_make_expr (Some OpProd) (n :: m :: l))
        with (r <- ast_make_expr (Some OpProd) (m :: l) ;;
              match r with
              | Some e => Ok (Some (mk_binop OpProd n e))
              | None => Ok (Some n)
              end).
      rewrite E. reflexivity.
    + cbn [symbols_of]. rewrite S. reflexivity.
Qed.

Lemma reassociate_operands_not_nil rec e :
  fst (fst (reassociate_operands rec e)) ++ snd (fst (reassociate_operands rec e))
    <> [].
Proof.
  induction e as [s r o|c IH|l r IHl IHr|l r IHl IHr|l r IHl IHr|l r IHl IHr
                 |c IH|f args IHargs] using expr_rect';
    cbn [reassociate_operands]; try discriminate;
    try (match goal with
         | |- context [rec ?x] => destruct (rec x)
         end; discriminate).
  destruct (reassociate_operands rec l) as [[ol sl] wl].
  destruct (reassociate_operands rec r) as [[or sr] wr].
  cbn [fst snd] in *. destruct ol; [|discriminate]. destruct or; [|discriminate].
  destruct sl; [contradiction IHl; reflexivity | discriminate].
Qed.

(** The symbols of a reassociated expression, and of the operands that
    [explore_operator] hands over, are those of the expression. *)
Lemma reassociate_symbols e :
  Permutation (symbols_of (fst (_reassociate e))) (symbols_of e) /\
  Permutation
    (flat_map symbols_of
       (fst (fst (reassociate_operands _reassociate e)) ++
        snd (fst (reassociate_operands _reassociate e))))
    (symbols_of e).
Proof.
  assert (single : forall x y : expr,
    Permutation (symbols_of x) (symbols_of y) ->
    Permutation (flat_map symbols_of ([x] ++ [])) (symbols_of y)).
  { intros x y P. cbn [app flat_map]. rewrite app_nil_r. exact P. }
  induction e as [s r o|c IH|l r IHl IHr|l r IHl IHr|l r IHl IHr|l r IHl IHr
                 |c IH|f args IHargs] using expr_rect'.
  - split; [reflexivity|]. apply single. reflexivity.
  - assert (F : Permutation (symbols_of (fst (_reassociate (Par c))))
                            (symbols_of (Par c))).
    { cbn [_reassociate]. destruct IH as [P _].
      destruct (_reassociate c) as [c' w]. exact P. }
    split; [exact F|]. cbn [reassociate_operands].
    destruct (_reassociate (Par c)) as [e' w]. apply single. exact F.
  - assert (F : Permutation (symbols_of (fst (_reassociate (Sum l r))))
                            (symbols_of (Sum l r))).
    { cbn [_reassociate]. destruct IHl as [Pl _], IHr as [Pr _].
      destruct (_reassociate l) as [l' wl]. destruct (_reassociate r) as [r' wr].
      cbn [fst symbols_of] in *. apply Permutation_app; assumption. }
    split; [exact F|]. cbn [reassociate_operands].
    destruct (_reassociate (Sum l r)) as [e' w]. apply single. exact F.
  - assert (F : Permutation (symbols_of (fst (_reassociate (Sub l r))))
                            (symbols_of (Sub l r))).
    { cbn [_reassociate]. destruct IHl as [Pl _], IHr as [Pr _].
      destruct (_reassociate l) as [l' wl]. destruct (_reassociate r) as [r' wr].
      cbn [fst symbols_of] in *. apply Permutation_app; assumption. }
    split; [exact F|]. cbn [reassociate_operands].
    destruct (_reassociate (Sub l r)) as [e' w]. apply single. exact F.
  - destruct IHl as [_ Pl], IHr as [_ Pr].
    cbn [_reassociate reassociate_operands].
    pose proof (reassociate_operands_not_nil _reassociate l) as Nl.
    destruct (reassociate_operands _reassociate l) as [[ol sl] wl].
    destruct (reassociate_operands _reassociate r) as [[or sr] wr].
    cbn [fst snd] in *.
    assert (Hne : (ol ++ or) ++ sort_by_rank (sl ++ sr) <> []).
    { destruct ol; [|discriminate]. destruct or; [|discriminate].
      destruct sl as [|x sl]; [contradiction Nl; reflexivity|].
      intros H. apply (f_equal (@List.length expr)) in H.
      rewrite !length_app in H.
      pose proof (Permutation_length (sort_by_rank_perm ((x :: sl) ++ sr))) as Hp.
      cbn [List.length app] in H, Hp. lia. }
    destruct (make_product _ Hne) as (e & -> & S).
    cbn [symbols_of]. split.
    + rewrite S. rewrite !flat_map_app.
      rewrite (Permutation_flat_map symbols_of (sort_by_rank_perm (sl ++ sr))).
      rewrite flat_map_app. rewrite <- Pl, <- Pr. rewrite !flat_map_app.
      rewrite <- !app_assoc. apply Permutation_app_head.
      rewrite !app_assoc. apply Permutation_app_tail. apply Permutation_app_comm.
    + rewrite !flat_map_app. rewrite <- Pl, <- Pr. rewrite !flat_map_app.
      rewrite <- !app_assoc. apply Permutation_app_head.
      rewrite !app_assoc. apply Permutation_app_tail. apply Permutation_app_comm.
  - split; [reflexivity|]. apply single. reflexivity.
  - split; [reflexivity|]. apply single. reflexivity.
  - assert (F : Permutation (symbols_of (fst (_reassociate (FunCall f args))))
                            (symbols_of (FunCall f args))).
    { cbn [_reassociate fst]. rewrite !symbols_of_FunCall.
      induction IHargs as [|a args [Pa _] Hargs G].
      - constructor.
      - destruct (_reassociate a) as [a' w].
        match goal with
        | |- context [let (_, _) := ?g in _] => destruct g as [xs' ws]
        end.
        cbn [fst flat_map] in *. apply Permutation_app; assumption. }
    split; [exact F|]. cbn [reassociate_operands].
    destruct (_reassociate (FunCall f args)) as [e' w]. apply single. exact F.
Qed.

Lemma stmts_warnings ws : forall st,
  stmts (fold_left (fun acc w => warning w acc) ws st) = stmts st /\
  header (fold_left (fun acc w => warning w acc) ws st) = header st.
Proof.
  induction ws as [|w ws IH]; intros st; cbn [fold_left]; [auto|].
  destruct (IH (warning w st)) as [-> ->]. auto.
Qed.

(** X15. [reassociate] returns on every tracked statement and only
    reorders: the symbols of the new right-hand side are those of the
    old one in another order, none lost, added or repeated, and the
    header and the other statements are not touched. *)
Theorem reassociate_permutes_symbols :
  forall ew st s,
    get_stmt (ew_stmt ew) st = Some s ->
    exists st' rhs',
      Rewriter_reassociate ew st = Ok st' /\
      rhs_of (ew_stmt ew) st' = Some rhs' /\
      Permutation (symbols_of rhs') (symbols_of (st_rhs s)) /\
      header st' = header st /\
      (forall sid, sid <> ew_stmt ew -> get_stmt sid st' = get_stmt sid st).
Proof.
  intros ew st s Hs. unfold Rewriter_reassociate. rewrite Hs.
  destruct (reassociate_symbols (st_rhs s)) as [P _].
  destruct (_reassociate (st_rhs s)) as [rhs' ws]. cbn [fst] in P.
  eexists. exists rhs'. split; [reflexivity|].
  destruct (stmts_warnings ws (set_rhs (ew_stmt ew) rhs' st)) as [Hst Hh].
  unfold rhs_of, get_stmt. rewrite Hst, Hh.
  split.
  - pose proof (get_stmt_set_rhs_same (ew_stmt ew) rhs' st s Hs) as G.
    unfold get_stmt in G. rewrite G. reflexivity.
  - split; [exact P|]. split; [apply header_set_rhs|].
    intros sid Hne. apply (get_stmt_set_rhs_other (ew_stmt ew) sid rhs' st Hne).
Qed.

Lemma reassociate_permutes_symbols_witness :
  Rewriter_reassociate (rewriter_of (state_ij rhs_docstring) info_ij)
                       (state_ij rhs_docstring)
    = Ok (state_ij (Prod (sym_ "a" [])
                      (Prod (sym_ "d" [])
                         (Prod (sym_ "b" ["i"]) (sym_ "c" ["i"; "j"]))))) /\
  exists st' rhs',
    Rewriter_reassociate (rewriter_of (state_ij rhs_docstring) info_ij)
                         (state_ij rhs_docstring) = Ok st' /\
    rhs_of 0 st' = Some rhs' /\
    Permutation (symbols_of rhs') (symbols_of rhs_docstring) /\
    header st' = header (state_ij rhs_docstring) /\
    (forall sid, sid <> 0 ->
                 get_stmt sid st' = get_stmt sid (state_ij rhs_docstring)).
Proof.
  split; [reflexivity|].
  apply (reassociate_permutes_symbols
           (rewriter_of (state_ij rhs_docstring) info_ij)
           (state_ij rhs_docstring)
           (mkStmt Incr (sym_ "X" ["i"; "j"]) rhs_docstring)).
  reflexivity.
Defined.

(** ** Reassociating twice *)

Lemma string_ltb_asym s t : String.ltb s t = true -> String.ltb t s = false.
Proof.
  unfold String.ltb. rewrite (String.compare_antisym t s).
  destruct (String.compare s t); cbn; congruence.
Qed.

Lemma atom_ltb_asym a b : atom_ltb a b = true -> atom_ltb b a = false.
Proof.
  destruct a, b; cbn [atom_ltb]; try congruence.
  - apply string_ltb_asym.
  - intros H. apply Z.ltb_lt in H. apply Z.ltb_ge. lia.
Qed.

Lemma atom_ltb_irrefl a : atom_ltb a a = false.
Proof.
  destruct (atom_ltb a a) eqn:E; [|reflexivity].
  rewrite (atom_ltb_asym _ _ E) in E. discriminate.
Qed.

Lemma rank_ltb_asym a : forall b, rank_ltb a b = true -> rank_ltb b a = false.
Proof.
  induction a as [|x xs IH]; intros [|y ys]; cbn [rank_ltb]; try congruence.
  destruct (atom_ltb x y) eqn:Exy.
  - intros _. rewrite (atom_ltb_asym _ _ Exy).
    destruct (atom_eqb y x) eqn:E; [|reflexivity].
    apply atom_eqb_eq in E. subst. rewrite atom_ltb_irrefl in Exy. discriminate.
  - destruct (atom_eqb x y) eqn:E; [|discriminate].
    apply atom_eqb_eq in E. subst. rewrite Exy.
    intros H. rewrite (IH _ H). destruct (atom_eqb y y); reflexivity.
Qed.

Lemma rank_key_ltb_asym x y :
  rank_key_ltb x y = true -> rank_key_ltb y x = false.
Proof.
  unfold rank_key_ltb. intros H.
  destruct (Nat.ltb (List.length (sym_rank x)) (List.length (sym_rank y))) eqn:E1.
  - apply Nat.ltb_lt in E1.
    replace (Nat.ltb _ _) with false by (symmetry; apply Nat.ltb_ge; lia).
    replace (Nat.eqb _ _) with false by (symmetry; apply Nat.eqb_neq; lia).
    reflexivity.
  - cbn [orb] in H. apply andb_true_iff in H. destruct H as [E2 E3].
    apply Nat.eqb_eq in E2. rewrite <- E2, Nat.ltb_irrefl, Nat.eqb_refl.
    cbn [orb andb]. apply rank_ltb_asym. exact E3.
Qed.

Lemma insert_by_rank_sorted x l :
  rank_sorted l = true -> rank_sorted (insert_by_rank x l) = true.
Proof.
  induction l as [|y tl IH]; [reflexivity|].
  intros Hs. cbn [insert_by_rank]. destruct (rank_key_ltb y x) eqn:E.
  - assert (Htl : rank_sorted tl = true).
    { cbn [rank_sorted] in Hs. destruct tl; [reflexivity|].
      apply andb_true_iff in Hs. apply Hs. }
    specialize (IH Htl).
    destruct tl as [|z tl']; cbn [insert_by_rank] in *.
    + cbn [rank_sorted]. rewrite (rank_key_ltb_asym _ _ E). reflexivity.
    + cbn [rank_sorted] in Hs. apply andb_true_iff in Hs. destruct Hs as [Hzy _].
      destruct (rank_key_ltb z x).
      * change (negb (rank_key_ltb z y) && rank_sorted (z :: insert_by_rank x tl') = true).
        rewrite Hzy. exact IH.
      * change (negb (rank_key_ltb x y) && rank_sorted (x :: z :: tl') = true).
        rewrite (rank_key_ltb_asym _ _ E). exact IH.
  - change (negb (rank_key_ltb y x) && rank_sorted (y :: tl) = true).
    rewrite E. exact Hs.
Qed.

Lemma sort_by_rank_sorted l : rank_sorted (sort_by_rank l) = true.
Proof.
  unfold sort_by_rank. induction l as [|x l IH]; [reflexivity|].
  cbn [fold_right]. apply insert_by_rank_sorted. exact IH.
Qed.

Lemma sort_by_rank_fixed l : rank_sorted l = true -> sort_by_rank l = l.
Proof.
  unfold sort_by_rank. induction l as [|x l IH]; [reflexivity|].
  intros Hs. cbn [fold_right].
  destruct l as [|y tl]; [reflexivity|].
  cbn [rank_sorted] in Hs. apply andb_true_iff in Hs. destruct Hs as [Hyx Htl].
  rewrite (IH Htl). cbn [insert_by_rank].
  destruct (rank_key_ltb y x); [discriminate | reflexivity].
Qed.

Lemma make_product_cons x y l :
  exists e', ast_make_expr (Some OpProd) (y :: l) = Ok (Some e') /\
             ast_make_expr (Some OpProd) (x :: y :: l) = Ok (Some (Prod x e')).
Proof.
  destruct (make_product (y :: l)) as (e' & E & _);
    [discriminate|].
  exists e'. split; [exact E|].
  change (ast_make_expr (Some OpProd) (x :: y :: l))
    with (r <- ast_make_expr (Some OpProd) (y :: l) ;;
          match r with
          | Some e => Ok (Some (mk_binop OpProd x e))
          | None => Ok (Some x)
          end).
  rewrite E. reflexivity.
Qed.

(** The operands of a product built by [ast_make_expr] from operands
    and symbols. *)
Lemma operands_of_product rec l : forall e,
  Forall (fun x => is_Symbol x = true \/ is_operand x = true) l ->
  ast_make_expr (Some OpProd) l = Ok (Some e) ->
  fst (fst (reassociate_operands rec e))
    = List.map (fun x => fst (rec x)) (filter is_operand l) /\
  snd (fst (reassociate_operands rec e)) = filter is_Symbol l.
Proof.
  induction l as [|x l IH]; intros e HF E; [discriminate|].
  inversion HF as [|? ? Hx Hl]; subst.
  assert (Hone : fst (fst (reassociate_operands rec x))
                   = List.map (fun x => fst (rec x)) (filter is_operand [x]) /\
                 snd (fst (reassociate_operands rec x)) = filter is_Symbol [x]).
  { destruct Hx as [Hx|Hx]; destruct x; try discriminate;
      cbn [reassociate_operands filter is_operand is_Symbol List.map];
      try (match goal with
           | |- context [rec ?y] => destruct (rec y)
           end); split; reflexivity. }
  destruct l as [|y l].
  - inversion E; subst. exact Hone.
  - destruct (make_product_cons x y l) as (e' & E1 & E2).
    rewrite E2 in E. inversion E; subst e.
    destruct (IH e' Hl E1) as [I1 I2]. destruct Hone as [H1 H2].
    cbn [reassociate_operands].
    destruct (reassociate_operands rec x) as [[ox sx] wx].
    destruct (reassociate_operands rec e') as [[oe se] we].
    cbn [fst snd] in *. subst.
    change (x :: y :: l) with ([x] ++ y :: l).
    rewrite !filter_app, map_app. split; reflexivity.
Qed.

Lemma filter_operands_symbols os ss :
  Forall (fun x => is_operand x = true) os ->
  Forall (fun x => is_Symbol x = true) ss ->
  filter is_operand (os ++ ss) = os /\ filter is_Symbol (os ++ ss) = ss.
Proof.
  intros Ho Hs. rewrite !filter_app. split.
  - replace (filter is_operand ss) with (@nil expr).
    + rewrite app_nil_r. induction Ho as [|x os Hx Hos IH]; [reflexivity|].
      cbn [filter]. rewrite Hx, IH. reflexivity.
    + induction Hs as [|x ss Hx Hss IH]; [reflexivity|].
      cbn [filter]. destruct x; try discriminate. exact IH.
  - replace (filter is_Symbol os) with (@nil expr).
    + induction Hs as [|x ss Hx Hss IH]; [reflexivity|].
      cbn [filter app] in *. rewrite Hx. f_equal. exact IH.
    + induction Ho as [|x os Hx Hos IH]; [reflexivity|].
      cbn [filter]. destruct x; try discriminate; exact IH.
Qed.

Lemma insert_by_rank_symbols x l :
  is_Symbol x = true -> Forall (fun y => is_Symbol y = true) l ->
  Forall (fun y => is_Symbol y = true) (insert_by_rank x l).
Proof.
  intros Hx. induction 1 as [|y l Hy Hl IH]; cbn [insert_by_rank].
  - constructor; [exact Hx | constructor].
  - destruct (rank_key_ltb y x); constructor; auto.
Qed.

Lemma sort_by_rank_symbols l :
  Forall (fun y => is_Symbol y = true) l ->
  Forall (fun y => is_Symbol y = true) (sort_by_rank l).
Proof.
  unfold sort_by_rank. induction 1 as [|x l Hx Hl IH]; cbn [fold_right].
  - constructor.
  - apply insert_by_rank_symbols; assumption.
Qed.

Lemma reassociate_is_operand e :
  is_operand e = true -> is_operand (fst (_reassociate e)) = true.
Proof.
  destruct e; try discriminate; intros _; cbn [_reassociate];
    try reflexivity;
    repeat match goal with
           | |- context [_reassociate ?y] => destruct (_reassociate y)
           end; reflexivity.
Qed.

Lemma reassociate_twice_mutual e :
  fst (_reassociate (fst (_reassociate e))) = fst (_reassociate e) /\
  Forall (fun o => is_operand o = true /\ fst (_reassociate o) = o)
         (fst (fst (reassociate_operands _reassociate e))) /\
  Forall (fun s => is_Symbol s = true)
         (snd (fst (reassociate_operands _reassociate e))).
Proof.
  assert (single : forall x : expr,
    is_operand x = true ->
    fst (_reassociate (fst (_reassociate x))) = fst (_reassociate x) ->
    Forall (fun o => is_operand o = true /\ fst (_reassociate o) = o)
           (fst (fst (let (e', w) := _reassociate x in ([e'], @nil expr, w)))) /\
    Forall (fun s => is_Symbol s = true)
           (snd (fst (let (e', w) := _reassociate x in ([e'], @nil expr, w))))).
  { intros x Hx Hfix. pose proof (reassociate_is_operand x Hx) as Ho.
    destruct (_reassociate x) as [e' w]. cbn [fst snd] in *.
    split; repeat constructor; assumption. }
  induction e as [s r o|c IH|l r IHl IHr|l r IHl IHr|l r IHl IHr|l r IHl IHr
                 |c IH|f args IHargs] using expr_rect'.
  - split; [reflexivity|]. cbn [reassociate_operands fst snd].
    split; repeat constructor.
  - assert (F : fst (_reassociate (fst (_reassociate (Par c))))
                = fst (_reassociate (Par c))).
    { destruct IH as [E _]. cbn [_reassociate].
      destruct (_reassociate c) as [c' w]. cbn [fst _reassociate] in *.
      destruct (_reassociate c') as [c'' w']. cbn [fst] in *. congruence. }
    split; [exact F|]. apply (single (Par c) eq_refl F).
  - assert (F : fst (_reassociate (fst (_reassociate (Sum l r))))
                = fst (_reassociate (Sum l r))).
    { destruct IHl as [El _], IHr as [Er _]. cbn [_reassociate].
      destruct (_reassociate l) as [l' wl]. destruct (_reassociate r) as [r' wr].
      cbn [fst _reassociate] in *.
      destruct (_reassociate l') as [l'' wl']. destruct (_reassociate r') as [r'' wr'].
      cbn [fst] in *. congruence. }
    split; [exact F|]. apply (single (Sum l r) eq_refl F).
  - assert (F : fst (_reassociate (fst (_reassociate (Sub l r))))
                = fst (_reassociate (Sub l r))).
    { destruct IHl as [El _], IHr as [Er _]. cbn [_reassociate].
      destruct (_reassociate l) as [l' wl]. destruct (_reassociate r) as [r' wr].
      cbn [fst _reassociate] in *.
      destruct (_reassociate l') as [l'' wl']. destruct (_reassociate r') as [r'' wr'].
      cbn [fst] in *. congruence. }
    split; [exact F|]. apply (single (Sub l r) eq_refl F).
  - destruct IHl as (_ & Ol & Sl), IHr as (_ & Or & Sr).
    pose proof (reassociate_operands_not_nil _reassociate l) as Nl.
    pose proof (reassociate_operands_not_nil _reassociate r) as Nr.
    cbn [_reassociate reassociate_operands].
    destruct (reassociate_operands _reassociate l) as [[ol sl] wl].
    destruct (reassociate_operands _reassociate r) as [[or sr] wr].
    cbn [fst snd] in *.
    assert (Ho : Forall (fun o => is_operand o = true /\ fst (_reassociate o) = o)
                        (ol ++ or)) by (apply Forall_app; auto).
    assert (Hs : Forall (fun s => is_Symbol s = true) (sl ++ sr))
      by (apply Forall_app; auto).
    split; [|split; assumption].
    set (ss := sort_by_rank (sl ++ sr)).
    assert (Hss : Forall (fun s => is_Symbol s = true) ss)
      by (apply sort_by_rank_symbols; exact Hs).
    assert (Hlen : 2 <= List.length ((ol ++ or) ++ ss)).
    { subst ss. rewrite !length_app.
      rewrite (Permutation_length (sort_by_rank_perm (sl ++ sr))), length_app.
      assert (1 <= List.length ol + List.length sl)
        by (destruct ol; destruct sl; cbn; try lia; contradiction Nl; reflexivity).
      assert (1 <= List.length or + List.length sr)
        by (destruct or; destruct sr; cbn; try lia; contradiction Nr; reflexivity).
      lia. }
    destruct ((ol ++ or) ++ ss) as [|x [|y rest]] eqn:El; cbn in Hlen; try lia.
    destruct (make_product_cons x y rest) as (e' & E1 & E2).
    rewrite E2. cbn [fst].
    assert (Hall : Forall (fun x => is_Symbol x = true \/ is_operand x = true)
                          (x :: y :: rest)).
    { rewrite <- El. apply Forall_app. split.
      - eapply Forall_impl; [|exact Ho]. cbn. intros a [Ha _]. right. exact Ha.
      - eapply Forall_impl; [|exact Hss]. cbn. intros a Ha. left. exact Ha. }
    destruct (operands_of_product _reassociate (x :: y :: rest) (Prod x e') Hall E2)
      as [P1 P2].
    rewrite <- El in P1, P2.
    destruct (filter_operands_symbols (ol ++ or) ss) as [F1 F2];
      [eapply Forall_impl; [|exact Ho]; cbn; intros a [Ha _]; exact Ha
      |exact Hss|].
    rewrite F1 in P1. rewrite F2 in P2.
    assert (Hmap : List.map (fun x => fst (_reassociate x)) (ol ++ or) = ol ++ or).
    { clear - Ho. induction Ho as [|a l [_ Ha] Hl IH]; [reflexivity|].
      cbn [List.map]. rewrite Ha, IH. reflexivity. }
    rewrite Hmap in P1.
    cbn [_reassociate].
    change (reassociate_operands _reassociate (Prod x e'))
      with (let '(oa, sa, wa) := reassociate_operands _reassociate x in
            let '(ob, sb, wb) := reassociate_operands _reassociate e' in
            (oa ++ ob, sa ++ sb, wa ++ wb)) in P1, P2.
    destruct (reassociate_operands _reassociate x) as [[ox sx] wx].
    destruct (reassociate_operands _reassociate e') as [[oe se] we].
    cbn [fst snd] in P1, P2. rewrite P1, P2.
    subst ss. rewrite (sort_by_rank_fixed _ (sort_by_rank_sorted _)).
    rewrite El, E2. reflexivity.
  - split; [reflexivity|]. apply (single (Div l r) eq_refl eq_refl).
  - split; [reflexivity|]. apply (single (Neg c) eq_refl eq_refl).
  - assert (F : fst (_reassociate (fst (_reassociate (FunCall f args))))
                = fst (_reassociate (FunCall f args))).
    { cbn [_reassociate fst]. f_equal.
      induction IHargs as [|a args [Ha _] Hargs IH]; [reflexivity|].
      destruct (_reassociate a) as [a' w] eqn:Ea.
      match goal with
      | |- context [let (_, _) := ?g in _] => destruct g as [xs' ws] eqn:Eg
      end.
      cbn [fst] in *.
      destruct (_reassociate a') as [a'' w'].
      match goal with
      | |- context [let (_, _) := ?g in _] => destruct g as [xs'' ws']
      end.
      cbn [fst] in *. congruence. }
    split; [exact F|]. apply (single (FunCall f args) eq_refl F).
Qed.

(** X16. Reassociating a reassociated expression changes nothing:
    the products of the result have their operands in the order of the
    convention. *)
Theorem reassociate_twice :
  forall e, fst (_reassociate (fst (_reassociate e))) = fst (_reassociate e).
Proof. intros e. apply (proj1 (reassociate_twice_mutual e)). Qed.

(* ------------------------------------------------------------------ *)
(** * Expansion of a sum of candidates *)

Lemma expand_candidate_sum se e :
  candidate_sum se e = true ->
  _expand se e = Ok (mkExpanded e (leaf_items e) EXP []).
Proof.
  induction e as [s r o|c IH|l r IHl IHr|l r IHl IHr|l r IHl IHr|l r IHl IHr
                 |c IH|f args IHargs] using expr_rect';
    cbn [candidate_sum]; intros H; try discriminate.
  - cbn [_expand leaf_items]. rewrite H. reflexivity.
  - cbn [_expand leaf_items]. rewrite (IH H). reflexivity.
  - apply andb_true_iff in H. destruct H as [Hl Hr].
    cbn [_expand leaf_items]. rewrite (IHl Hl), (IHr Hr). reflexivity.
Qed.

Lemma expand_group se g :
  is_group se g = true ->
  _expand se g = Ok (mkExpanded g [(Some [], g)] GRP []).
Proof.
  destruct g; cbn [is_group]; intros H; try discriminate; cbn [_expand];
    try reflexivity.
  apply negb_true_iff in H. rewrite H. reflexivity.
Qed.

Lemma list_prod_single {A B} (l : list A) (y : B) :
  list_prod l [y] = List.map (fun x => (x, y)) l.
Proof.
  induction l as [|x l IH]; [reflexivity|].
  cbn [list_prod List.map app]. rewrite IH. reflexivity.
Qed.

Lemma alist_set_fresh {V} k (v : V) l :
  Forall (fun kv => fst kv < k) l ->
  alist_get Nat.eqb k l = None /\ alist_set Nat.eqb k v l = l ++ [(k, v)].
Proof.
  induction 1 as [|[k' v'] tl Hx Hxs [IH1 IH2]];
    cbn [alist_get alist_set app]; [auto|].
  cbn [fst] in Hx.
  replace (Nat.eqb k k') with false by (symmetry; apply Nat.eqb_neq; lia).
  rewrite IH2. auto.
Qed.

Lemma product_step_no_break g (gp : option path) k (it : item) i p tr ex :
  fst it = Some (i :: p) ->
  Forall (fun kv => fst kv < k) tr ->
  product_step (mkProductLoop tr ex None) ((k, it), (gp, g))
  = mkProductLoop (tr ++ [(k, [Prod (snd it) g])]) (ex ++ [Prod (snd it) g]) None.
Proof.
  intros Hp Htr. unfold product_step.
  cbn [pl_break pl_to_replace pl_expansions fst snd]. rewrite Hp.
  destruct (alist_set_fresh k ([] ++ [Prod (snd it) g]) tr Htr) as [G S].
  rewrite G, S. reflexivity.
Qed.

(** The loop over [itertools.product(expandable, groupable)] when no
    expandable node is the expanding child itself and there is one
    groupable node. *)
Lemma product_loop_no_break g (gp : option path) its : forall k0 tr ex,
  Forall (fun it => exists i p, fst it = Some (i :: p)) its ->
  Forall (fun kv => fst kv < k0) tr ->
  fold_left product_step
    (List.map (fun x => (x, (gp, g))) (combine (seq k0 (List.length its)) its))
    (mkProductLoop tr ex None)
  = mkProductLoop
      (tr ++ List.map (fun ki => (fst ki, [Prod (snd (snd ki)) g]))
                      (combine (seq k0 (List.length its)) its))
      (ex ++ List.map (fun it => Prod (snd it) g) its)
      None.
Proof.
  induction its as [|it its IH]; intros k0 tr ex Hits Htr.
  - cbn. rewrite !app_nil_r. reflexivity.
  - inversion Hits as [|? ? (i & p & Hp) Hits']; subst.
    cbn [List.length seq combine List.map fold_left].
    pose proof (product_step_no_break g gp k0 it i p tr ex Hp Htr) as Hstep.
    unfold item, path in *. rewrite Hstep.
    rewrite IH.
    + cbn [fst snd]. rewrite <- !app_assoc. reflexivity.
    + exact Hits'.
    + apply Forall_app. split.
      * eapply Forall_impl; [|exact Htr]. cbn. intros a Ha. lia.
      * constructor; [cbn; lia | constructor].
Qed.

Lemma leaf_items_deep e :
  is_Symbol e = false -> candidate_sum (fun _ => true) e = true ->
  Forall (fun it => exists i p, fst it = Some (i :: p)) (leaf_items e).
Proof.
  assert (K : forall i l,
    Forall (fun it : item => exists p, fst it = Some p) l ->
    Forall (fun it : item => exists j p, fst it = Some (j :: p))
           (List.map (shift i) l)).
  { intros i l H. induction H as [|it l (p & Hp) Hl IH]; cbn [List.map].
    - constructor.
    - constructor; [|exact IH]. exists i, p. unfold shift. rewrite Hp. reflexivity. }
  assert (A : forall e, candidate_sum (fun _ => true) e = true ->
              Forall (fun it : item => exists p, fst it = Some p) (leaf_items e)).
  { clear e. induction e as [s r o|c IH|l r IHl IHr|l r IHl IHr|l r IHl IHr|l r IHl IHr
                 |c IH|f args IHargs] using expr_rect';
      cbn [candidate_sum leaf_items]; intros H; try discriminate.
    - constructor; [eexists; reflexivity | constructor].
    - eapply Forall_impl; [|apply (K 0 _ (IH H))].
      cbn. intros a (j & p & Hp). eauto.
    - apply andb_true_iff in H. destruct H as [Hl Hr]. apply Forall_app. split.
      + eapply Forall_impl; [|apply (K 0 _ (IHl Hl))].
        cbn. intros a (j & p & Hp). eauto.
      + eapply Forall_impl; [|apply (K 1 _ (IHr Hr))].
        cbn. intros a (j & p & Hp). eauto. }
  destruct e; cbn [is_Symbol candidate_sum leaf_items]; intros Hs H;
    try discriminate.
  - apply K. apply A. exact H.
  - apply andb_true_iff in H. destruct H as [Hl Hr].
    apply Forall_app. split; apply K; apply A; assumption.
Qed.

Lemma candidate_sum_weaken se e :
  candidate_sum se e = true -> candidate_sum (fun _ => true) e = true.
Proof.
  induction e as [s r o|c IH|l r IHl IHr|l r IHl IHr|l r IHl IHr|l r IHl IHr
                 |c IH|f args IHargs] using expr_rect';
    cbn [candidate_sum]; intros H; try discriminate; auto.
  apply andb_true_iff in H. destruct H as [Hl Hr]. rewrite IHl, IHr; auto.
Qed.

(** The replacements of [ast_replace(node, {k: ast_make_expr(Sum, v)})]
    when every expandable node got one expansion. *)
Lemma replace_expansions g (expandable : list item) : forall its k0 child,
  (forall j it, nth_error its j = Some it ->
                nth_error expandable (k0 + j) = Some it) ->
  fold_left
    (fun acc (kv : nat * list expr) =>
       child <- acc ;;
       sum <- ast_make_expr (Some OpSum) (snd kv) ;;
       match nth_error expandable (fst kv), sum with
       | Some (Some p, _), Some s => Ok (replace_at p s child)
       | _, _ => Ok child
       end)
    (List.map (fun ki : nat * item => (fst ki, [Prod (snd (snd ki)) g]))
              (combine (seq k0 (List.length its)) its))
    (Ok child)
  = Ok (put_expansions g its child).
Proof.
  induction its as [|it its IH]; intros k0 child Hn; [reflexivity|].
  cbn [List.length seq combine List.map fold_left fst snd bind ast_make_expr].
  pose proof (Hn 0 it eq_refl) as H0. rewrite Nat.add_0_r in H0. rewrite H0.
  unfold put_expansions. cbn [fold_left].
  destruct it as [[p|] x]; cbn [fst snd].
  - apply IH. intros j it' Hj. replace (S k0 + j) with (k0 + S j) by lia.
    apply Hn. exact Hj.
  - apply IH. intros j it' Hj. replace (S k0 + j) with (k0 + S j) by lia.
    apply Hn. exact Hj.
Qed.

Lemma put_expansions_app g l1 l2 e :
  put_expansions g (l1 ++ l2) e = put_expansions g l2 (put_expansions g l1 e).
Proof. unfold put_expansions. apply fold_left_app. Qed.

Lemma put_expansions_Par g its : forall c,
  put_expansions g (List.map (shift 0) its) (Par c) = Par (put_expansions g its c).
Proof.
  unfold put_expansions.
  induction its as [|[[p|] x] its IH]; intros c; cbn [List.map fold_left];
    [reflexivity | |]; cbn [shift fst snd option_map]; apply IH.
Qed.

Lemma put_expansions_Sum_l g its : forall l r,
  put_expansions g (List.map (shift 0) its) (Sum l r)
  = Sum (put_expansions g its l) r.
Proof.
  unfold put_expansions.
  induction its as [|[[p|] x] its IH]; intros l r; cbn [List.map fold_left];
    [reflexivity | |]; cbn [shift fst snd option_map]; apply IH.
Qed.

Lemma put_expansions_Sum_r g its : forall l r,
  put_expansions g (List.map (shift 1) its) (Sum l r)
  = Sum l (put_expansions g its r).
Proof.
  unfold put_expansions.
  induction its as [|[[p|] x] its IH]; intros l r; cbn [List.map fold_left];
    [reflexivity | |]; cbn [shift fst snd option_map]; apply IH.
Qed.

Lemma put_expansions_distribute g e :
  candidate_sum (fun _ => true) e = true ->
  put_expansions g (leaf_items e) e = distribute g e.
Proof.
  induction e as [s r o|c IH|l r IHl IHr|l r IHl IHr|l r IHl IHr|l r IHl IHr
                 |c IH|f args IHargs] using expr_rect';
    cbn [candidate_sum leaf_items distribute]; intros H; try discriminate.
  - reflexivity.
  - rewrite put_expansions_Par, (IH H). reflexivity.
  - apply andb_true_iff in H. destruct H as [Hl Hr].
    rewrite put_expansions_app, put_expansions_Sum_l, put_expansions_Sum_r.
    rewrite (IHl Hl), (IHr Hr). reflexivity.
Qed.

Lemma expand_product_distributes g (gp : option path) e :
  candidate_sum (fun _ => true) e = true ->
  exists items exps,
    expand_product e (leaf_items e) [(gp, g)] = Ok (distribute g e, items, exps).
Proof.
  intros H. destruct (is_Symbol e) eqn:Es.
  - destruct e; try discriminate. eexists _, _. reflexivity.
  - unfold expand_product. cbv zeta. rewrite list_prod_single.
    pose proof (product_loop_no_break g gp (leaf_items e) 0 [] []
                  (leaf_items_deep e Es H) (Forall_nil _)) as Hloop.
    pose proof (replace_expansions g (leaf_items e) (leaf_items e) 0 e
                  (fun j it Hj => Hj)) as Hrep.
    unfold item, path in *. rewrite Hloop.
    cbn [pl_to_replace pl_break pl_expansions app].
    rewrite Hrep.
    cbn [bind]. rewrite (put_expansions_distribute g e H).
    eexists _, _. reflexivity.
Qed.

(** X17. The expansion of the docstring: a sum of candidates for
    expansion times a groupable symbol, call or quotient, in either
    order, becomes the sum with the factor multiplied into each of its
    terms, the factor always on the right; the node is handed up as
    expanded. *)
Theorem expand_distributes_over_candidates :
  forall should_expand e g,
    candidate_sum should_expand e = true ->
    is_group should_expand g = true ->
    (exists x, _expand should_expand (Prod e g) = Ok x /\
               x_node x = distribute g e /\ x_tag x = EXP) /\
    (exists x, _expand should_expand (Prod g e) = Ok x /\
               x_node x = distribute g e /\ x_tag x = EXP).
Proof.
  intros se e g He Hg.
  pose proof (candidate_sum_weaken se e He) as Hw.
  destruct (expand_product_distributes g (Some []) e Hw) as (items & exps & E).
  split.
  - cbn [_expand]. rewrite (expand_candidate_sum se e He), (expand_group se g Hg).
    cbn [bind x_tag x_node x_items x_expansions].
    eexists. split; [unfold item, path in *; rewrite E; cbn [bind]; reflexivity|].
    split; reflexivity.
  - cbn [_expand]. rewrite (expand_candidate_sum se e He), (expand_group se g Hg).
    cbn [bind x_tag x_node x_items x_expansions].
    eexists. split; [unfold item, path in *; rewrite E; cbn [bind]; reflexivity|].
    split; reflexivity.
Qed.

Lemma expand_distributes_over_candidates_witness :
  (exists x,
      _expand along_i (Prod (Par (Sum (sym_ "A" ["i"]) (sym_ "B" ["i"])))
                            (sym_ "c" [])) = Ok x /\
      x_node x = Par (Sum (Prod (sym_ "A" ["i"]) (sym_ "c" []))
                          (Prod (sym_ "B" ["i"]) (sym_ "c" []))) /\
      x_tag x = EXP) /\
  (exists x,
      _expand along_i (Prod (sym_ "c" [])
                            (Par (Sum (sym_ "A" ["i"]) (sym_ "B" ["i"])))) = Ok x /\
      x_node x = Par (Sum (Prod (sym_ "A" ["i"]) (sym_ "c" []))
                          (Prod (sym_ "B" ["i"]) (sym_ "c" []))) /\
      x_tag x = EXP).
Proof.
  apply (expand_distributes_over_candidates along_i
           (Par (Sum (sym_ "A" ["i"]) (sym_ "B" ["i"]))) (sym_ "c" []));
    reflexivity.
Defined.

(* ------------------------------------------------------------------ *)
(** * A pass of [unroll] over all tracked expressions *)

(** ** What appending a statement to a block of statements keeps *)

















(** ** What [loop.incr += k] keeps *)










(** ** The blocks of statements *)




(** ** The loop that [unroll] picks depends on the identities, the
    dimensions and the perfection of the loops only *)




(** ** The invariant of a pass *)









(** ** One tracked expression, then all of them *)





(** ** The tracked expressions after the pass *)








(** ** A state that is ready stays ready *)






(** ** [unroll], one dimension after the other *)






